(** * Clinical value extraction of OCR_Flask.py

    A shallow embedding of [extract_health_values] (src/OCR_Flask.py,
    lines 35-82) together with the parts of Python's [str] and [re]
    modules that the function calls: [str.splitlines], [str.strip],
    [str.replace], [re.sub], [Pattern.search] with a start offset, and the
    backtracking matcher behind them.

    Text is a list of characters over the code points U+0000..U+00FF
    (Rocq's [ascii]); the character classes below are the ones the
    Unicode-aware [re] module and [str] methods use, restricted to that
    range.  The [print] calls of the source write a trace to the console;
    they are left out of [extract_health_values], the mapping the call
    computes, and are part of [extract_health_values_call], the call
    itself. *)

From Stdlib Require Import Ascii String DecimalString.
From Stdlib Require Import List Bool Arith NArith ZArith Lia Permutation Sorted.
Import ListNotations.

Local Open Scope list_scope.

(** A Python [str]. *)
Definition text := list ascii.

(** Literals are written [str "..."]. *)
Definition str (s : string) : text := list_ascii_of_string s.

(* ------------------------------------------------------------------ *)
(** ** Character classes *)

Module Chars.

(** The code point of a character. *)
Definition code (c : ascii) : N := N_of_ascii c.

Definition between (lo hi : N) (c : ascii) : bool :=
  (lo <=? code c)%N && (code c <=? hi)%N.

(** [[0-9]] *)
Definition is_digit (c : ascii) : bool := between 48 57 c.

(** [\s] of a [str] pattern and the characters removed by [str.strip()]:
    [Py_UNICODE_ISSPACE]. *)
Definition is_space (c : ascii) : bool :=
  between 9 13 c || between 28 32 c || (code c =? 133)%N || (code c =? 160)%N.

(** [str.isalnum] on one character: letters, decimal digits, and the
    characters with a digit or numeric value (superscripts, fractions). *)
Definition is_alnum (c : ascii) : bool :=
  between 48 57 c || between 65 90 c || between 97 122 c
  || (code c =? 170)%N || (code c =? 178)%N || (code c =? 179)%N
  || (code c =? 181)%N || (code c =? 185)%N || (code c =? 186)%N
  || between 188 190 c
  || between 192 214 c || between 216 246 c || between 248 255 c.

(** [\w] of a [str] pattern. *)
Definition is_word (c : ascii) : bool := is_alnum c || (code c =? 95)%N.

(** Line boundaries of [str.splitlines]. *)
Definition is_linebreak (c : ascii) : bool :=
  between 10 13 c || between 28 30 c || (code c =? 133)%N.

(** [.] without [re.DOTALL]. *)
Definition not_newline (c : ascii) : bool := negb (code c =? 10)%N.

(** Simple case folding of the [re.IGNORECASE] literal comparison.  The
    literals of the patterns are ASCII, and no character of the range other
    than an ASCII letter folds to an ASCII letter. *)
Definition lower (c : ascii) : ascii :=
  if between 65 90 c then ascii_of_N (code c + 32) else c.

(** A pattern literal [l] under [re.IGNORECASE]. *)
Definition ieq (l c : ascii) : bool := Ascii.eqb (lower c) (lower l).

Definition is_char (l c : ascii) : bool := Ascii.eqb c l.

Definition one_of (ls : list ascii) (c : ascii) : bool :=
  existsb (fun l => Ascii.eqb c l) ls.

End Chars.
Import Chars.

(* ------------------------------------------------------------------ *)
(** ** The matcher of [re] *)

Module Re.

(** The pattern constructs the source uses.  A repetition always has a
    one-character body ([\s*], [\s+], [[0-9]+], [[0-9]*], [[.,]?],
    [[0-9]{2,3}], [.*?]). *)
Inductive regex : Type :=
| Eps                              (* the empty pattern *)
| Chr (p : ascii -> bool)          (* one character of a class *)
| Seq (a b : regex)                (* a then b *)
| Alt (a b : regex)                (* a|b, a tried first *)
| Rep (greedy : bool) (p : ascii -> bool) (lo : nat) (hi : option nat)
                                   (* lo to hi characters of a class *)
| WordB.                           (* \b *)

(** A position in the subject string: the characters before it, nearest
    first, and the characters from it on. *)
Record cursor : Type := Cursor { before : text; after : text }.

(** The index of the position, and the string it is a position of. *)
Definition offset (c : cursor) : nat := length (before c).

Definition whole (c : cursor) : text := rev (before c) ++ after c.

(** [n] characters on, or the end of the string when it comes first. *)
Fixpoint advance (n : nat) (c : cursor) : cursor :=
  match n, after c with
  | S k, x :: t => advance k (Cursor (x :: before c) t)
  | _, _ => c
  end.

(** The position [pos] of the string [s]; a [pos] beyond the end is the
    end, as [search] clips it. *)
Definition cursor_at (s : text) (pos : nat) : cursor :=
  advance pos (Cursor [] s).

(** Is the character before, or after, the position a word character? *)
Definition word_before (c : cursor) : bool :=
  match before c with x :: _ => is_word x | [] => false end.

Definition word_after (c : cursor) : bool :=
  match after c with x :: _ => is_word x | [] => false end.

(** [\b]: exactly one of the two neighbours is a word character. *)
Definition at_boundary (c : cursor) : bool :=
  xorb (word_before c) (word_after c).

(** The upper bound of a repetition leaves room for one more. *)
Definition can_repeat (hi : option nat) : bool :=
  match hi with Some 0 => false | _ => true end.

(** The ends of [p{lo,hi}] from a position, in the order the matcher tries
    them: longest first when greedy, shortest first when lazy. *)
Fixpoint rep (greedy : bool) (p : ascii -> bool) (lo : nat) (hi : option nat)
    (bef aft : text) : list cursor :=
  let stop := if lo =? 0 then [Cursor bef aft] else [] in
  match aft with
  | x :: t =>
      if p x && can_repeat hi then
        let more := rep greedy p (pred lo) (option_map pred hi) (x :: bef) t in
        if greedy then more ++ stop else stop ++ more
      else stop
  | [] => stop
  end.

(** All the ends of a match of [r] that starts at [c], in the order in
    which the backtracking matcher reaches them; the matcher stops at the
    first one. *)
Fixpoint ends (r : regex) (c : cursor) : list cursor :=
  match r with
  | Eps => [c]
  | Chr p =>
      match after c with
      | x :: t => if p x then [Cursor (x :: before c) t] else []
      | [] => []
      end
  | Seq a b => flat_map (ends b) (ends a c)
  | Alt a b => ends a c ++ ends b c
  | Rep greedy p lo hi => rep greedy p lo hi (before c) (after c)
  | WordB => if at_boundary c then [c] else []
  end.

(** The match of [r] at exactly the position [c]. *)
Definition match_at (r : regex) (c : cursor) : option cursor :=
  match ends r c with e :: _ => Some e | [] => None end.

(** The leftmost match at or after a position: start and end. *)
Fixpoint scan (r : regex) (bef aft : text) : option (cursor * cursor) :=
  match match_at r (Cursor bef aft) with
  | Some e => Some (Cursor bef aft, e)
  | None =>
      match aft with
      | x :: t => scan r (x :: bef) t
      | [] => None
      end
  end.

(** The same, from a position. *)
Definition scan_from (r : regex) (c : cursor) : option (cursor * cursor) :=
  scan r (before c) (after c).

(** [pattern.search(s, pos)]: the offsets [(m.start(), m.end())]. *)
Definition search (r : regex) (s : text) (pos : nat) : option (nat * nat) :=
  match scan_from r (cursor_at s pos) with
  | Some (b, e) => Some (offset b, offset e)
  | None => None
  end.

(** [s[i:j]] *)
Definition slice (s : text) (i j : nat) : text := firstn (j - i) (skipn i s).

(** The loop of [re.sub(r, repl, s)] for a pattern that cannot match the
    empty string: copy up to the next match, emit [repl], go on from the
    end of the match.  [fuel] bounds the number of matches; the length of
    the string is enough ([sub_loop_fuel] below). *)
Fixpoint sub_loop (fuel : nat) (r : regex) (repl : text) (c : cursor) : text :=
  match fuel with
  | 0 => after c
  | S f =>
      match scan_from r c with
      | None => after c
      | Some (b, e) =>
          firstn (offset b - offset c) (after c) ++ repl ++ sub_loop f r repl e
      end
  end.

(** [re.sub(r, repl, s)] *)
Definition sub (r : regex) (repl : text) (s : text) : text :=
  sub_loop (length s) r repl (Cursor [] s).

(** Pattern notation: a sequence, and alternatives in their order. *)
Fixpoint seqs (rs : list regex) : regex :=
  match rs with
  | [] => Eps
  | [r] => r
  | r :: rs' => Seq r (seqs rs')
  end.

Fixpoint alts (rs : list regex) : regex :=
  match rs with
  | [] => Rep true (fun _ => false) 1 None
  | [r] => r
  | r :: rs' => Alt r (alts rs')
  end.

(** A literal under [re.IGNORECASE]. *)
Definition lit (s : string) : regex :=
  seqs (map (fun l => Chr (ieq l)) (list_ascii_of_string s)).

(** [\s*], as it stands between the words of a synonym. *)
Definition ws_star : regex := Rep true is_space 0 None.

(** [\b(?:a1|a2|...)\b] *)
Definition bounded (rs : list regex) : regex :=
  Seq WordB (Seq (alts rs) WordB).

End Re.
Import Re.

(* ------------------------------------------------------------------ *)
(** ** The [str] methods the function calls *)

(** [text.splitlines()]: a line ends at a line boundary, ["\r\n"] counts as
    one boundary, and no empty line follows a final boundary. *)
Fixpoint splitlines_from (cur : text) (s : text) : list text :=
  match s with
  | [] => match cur with [] => [] | _ => [rev cur] end
  | c :: t =>
      if Ascii.eqb c "013" then
        match t with
        | c' :: t' =>
            if Ascii.eqb c' "010" then rev cur :: splitlines_from [] t'
            else rev cur :: splitlines_from [] t
        | [] => rev cur :: splitlines_from [] t
        end
      else if is_linebreak c then rev cur :: splitlines_from [] t
      else splitlines_from (c :: cur) t
  end.

Definition splitlines (s : text) : list text := splitlines_from [] s.

(** [s.lstrip()] and [s.rstrip()] *)
Fixpoint lstrip (s : text) : text :=
  match s with
  | c :: t => if is_space c then lstrip t else s
  | [] => []
  end.

Definition rstrip (s : text) : text := rev (lstrip (rev s)).

(** [s.strip()] *)
Definition strip (s : text) : text := rstrip (lstrip s).

(** [s.replace(',', '.')] *)
Definition replace_comma (s : text) : text :=
  map (fun c => if Ascii.eqb c "," then "."%char else c) s.

(* ------------------------------------------------------------------ *)
(** ** The [dict] holding the results

    A Python [dict] enumerates its keys in the order of their first
    insertion; assigning to a key that is present keeps its place.  A value
    is a [str] or [None]. *)

Definition dict := list (string * option text).

(** [k in d] *)
Definition dict_mem (k : string) (d : dict) : bool :=
  existsb (fun kv => String.eqb (fst kv) k) d.

(** [d[k]], when [k] is in [d]. *)
Definition dict_get (k : string) (d : dict) : option (option text) :=
  match find (fun kv => String.eqb (fst kv) k) d with
  | Some kv => Some (snd kv)
  | None => None
  end.

(** [d[k] = v] *)
Fixpoint dict_set (k : string) (v : option text) (d : dict) : dict :=
  match d with
  | [] => [(k, v)]
  | kv :: t => if String.eqb (fst kv) k then (k, v) :: t else kv :: dict_set k v t
  end.

(** [list(d)] *)
Definition keys (d : dict) : list string := map fst d.

(* ------------------------------------------------------------------ *)
(** ** [extract_health_values] *)

(** The [patterns] dictionary, in the order of the literal; every pattern is
    compiled with [re.IGNORECASE]. *)
Definition patterns : list (string * regex) :=
  [ ("Plasma Glucose"%string,
      bounded [ seqs [lit "Plasma"; ws_star; lit "Glucose"];
                seqs [lit "Plasma"; ws_star; lit "Glu"];
                seqs [lit "Glu"; ws_star; lit "(Plasma)"];
                seqs [lit "Glucose,"; ws_star; lit "Plasma"];
                lit "P-Glucose";
                seqs [lit "Plazma"; ws_star; lit "Glucose"];
                seqs [lit "Plasma"; ws_star; lit "Glukose"] ]);
    ("HbA1c"%string,
      bounded [ lit "HbA1c"; lit "A1c"; lit "HbAic"; lit "HbAIc"; lit "H6A1c";
                lit "HbAlc"; lit "Glycosylated Hemoglobin"; lit "HgbA1c";
                lit "Hemoglobin A1c"; lit "HbA1C"; lit "HBA1c";
                lit "Hemogloben A1c" ]);
    ("HDL"%string,
      bounded [ lit "HDL"; lit "HDL-C"; lit "High-density Lipoprotein";
                lit "HDLc" ]);
    ("LDL"%string,
      bounded [ lit "LDL"; lit "LDL-C"; lit "Low-density Lipoprotein";
                lit "LDLc" ]);
    ("Triglycerides"%string,
      bounded [ lit "Triglycerides"; lit "Triglyceride"; lit "Trigs";
                lit "Trig" ]);
    ("Albumin"%string,
      bounded [ lit "Serum Albumin"; lit "Albumin"; lit "Albm"; lit "Albumn";
                lit "Albmin" ]);
    ("Cholesterol"%string,
      bounded [ lit "Total Cholesterol"; lit "Cholesterol"; lit "Cholestrol";
                lit "Chol"; lit "Tot Chol" ]);
    ("BMI"%string,
      bounded [ lit "BMI"; lit "Body Mass Index"; lit "B.M.I." ]);
    ("Blood Pressure"%string,
      bounded [ lit "Blood Pressure"; lit "BP"; lit "B.P.";
                lit "BloodPressure" ]);
    ("TSH"%string,
      bounded [ lit "TSH"; lit "Thyroid Stimulating Hormone"; lit "T.S.H.";
                lit "Thyrotropin"; lit "THS";
                lit "Tyroid Stimulating Hormone" ]);
    ("LDH"%string,
      bounded [ lit "LDH"; lit "LD"; lit "Lactate Dehydrogenase";
                lit "LD Value"; lit "LHD"; lit "Lactate Dehidrogenase" ]);
    ("CK"%string,
      bounded [ lit "CK"; lit "Creatine Kinase"; lit "CPK";
                lit "Creatine Phosphokinase"; lit "Creatin Kinase"; lit "CKK";
                lit "Cretine Kinase" ]) ].

(** [[0-9]+[.,]?[0-9]*], the group of [num_pat]. *)
Definition num_body : regex :=
  seqs [ Rep true is_digit 1 None;
         Rep true (one_of ["."%char; ","%char]) 0 (Some 1);
         Rep true is_digit 0 None ].

(** [num_pat]: a word boundary, the group, a word boundary. *)
Definition num_pat : regex := Seq WordB (Seq num_body WordB).

(** [([0-9]{2,3}/[0-9]{2,3})] *)
Definition bp_pat : regex :=
  seqs [ Rep true is_digit 2 (Some 3); Chr (is_char "/");
         Rep true is_digit 2 (Some 3) ].

(** [\(.*?\)] *)
Definition paren_pat : regex :=
  seqs [ Chr (is_char "("); Rep false not_newline 0 None; Chr (is_char ")") ].

(** [\s+] *)
Definition ws_pat : regex := Rep true is_space 1 None.

(** The two [re.sub] calls and the [strip] at the head of the line loop. *)
Definition clean (line : text) : text :=
  strip (sub ws_pat (str " ") (sub paren_pat [] line)).

(** The value the body of the inner loop finds for [key] in one cleaned
    line: the label, then the value after the end of the label. *)
Definition line_value (key : string) (pattern : regex) (clean_line : text)
    : option text :=
  match search pattern clean_line 0 with
  | None => None
  | Some (_, m_end) =>
      if String.eqb key "Blood Pressure" then
        match search bp_pat clean_line m_end with
        | Some (b, e) => Some (slice clean_line b e)
        | None => None
        end
      else
        match search num_pat clean_line m_end with
        | Some (b, e) => Some (replace_comma (slice clean_line b e))
        | None => None
        end
  end.

(** One turn of the inner loop. *)
Definition try_metric (clean_line : text) (results : dict)
    (kp : string * regex) : dict :=
  if dict_mem (fst kp) results then results
  else
    match line_value (fst kp) (snd kp) clean_line with
    | Some value => dict_set (fst kp) (Some value) results
    | None => results
    end.

(** One turn of the outer loop. *)
Definition process_line (results : dict) (line : text) : dict :=
  fold_left (try_metric (clean line)) patterns results.

(** The outer loop, from the empty [results]. *)
Definition scan_lines (lines : list text) : dict :=
  fold_left process_line lines [].

(** The closing loop: every key still missing is set to [None]. *)
Definition set_missing (results : dict) : dict :=
  fold_left
    (fun res kp => if dict_mem (fst kp) res then res
                   else dict_set (fst kp) None res)
    patterns results.

(** The function: split into lines, scan them, set the missing keys. *)
Definition extract_health_values (t : text) : dict :=
  set_missing (scan_lines (splitlines t)).

(** How a call ends: with a value, or with an exception of some kind. *)
Inductive outcome (A : Type) : Type :=
| Returned (a : A)
| Raised (kind : string).
Arguments Returned {A} a.
Arguments Raised {A} kind.

(** ** The call and its trace *)

(** [str(n)] for a number [n] that is not negative. *)
Definition decimal (n : nat) : text :=
  str (NilZero.string_of_uint (Nat.to_uint n)).

Section Trace.

(** [print] writes one line to the console, which lies outside the
    program: the call returns, or it raises, as it does with
    [UnicodeEncodeError] when the console cannot encode the line. *)
Variable print : text -> outcome unit.

(** A statement that may raise, then the rest. *)
Definition and_then {A : Type} (m : outcome unit) (rest : outcome A)
    : outcome A :=
  match m with
  | Returned _ => rest
  | Raised e => Raised e
  end.

(** One turn of the inner loop (lines 61-76), for the line of index [i]. *)
Definition try_metric_call (i : nat) (clean_line : text) (results : dict)
    (kp : string * regex) : outcome dict :=
  let key := fst kp in
  if dict_mem key results then Returned results
  else
    match search (snd kp) clean_line 0 with
    | None => Returned results
    | Some (_, m_end) =>
        and_then
          (print (str "  - Matched '" ++ str key ++ str "' in line "
                  ++ decimal (i + 1)))
          (if String.eqb key "Blood Pressure" then
             match search bp_pat clean_line m_end with
             | Some (b, e) =>
                 let value := slice clean_line b e in
                 and_then
                   (print (str "    - Found Blood Pressure value '"
                           ++ value ++ str "'"))
                   (Returned (dict_set key (Some value) results))
             | None => Returned results
             end
           else
             match search num_pat clean_line m_end with
             | Some (b, e) =>
                 let value := replace_comma (slice clean_line b e) in
                 and_then
                   (print (str "    - Found value '" ++ value
                           ++ str "' for '" ++ str key ++ str "'"))
                   (Returned (dict_set key (Some value) results))
             | None => Returned results
             end)
    end.

(** The inner loop over [patterns.items()]; an exception ends it. *)
Fixpoint inner_loop_call (i : nat) (clean_line : text)
    (ps : list (string * regex)) (results : dict) : outcome dict :=
  match ps with
  | [] => Returned results
  | kp :: more =>
      match try_metric_call i clean_line results kp with
      | Returned r => inner_loop_call i clean_line more r
      | Raised e => Raised e
      end
  end.

(** What line 59 prints for the line of index [i]. *)
Definition line_message (i : nat) (line : text) : text :=
  str "Line " ++ decimal (i + 1) ++ str ": '" ++ line
  ++ str "' (cleaned: '" ++ clean line ++ str "')".

(** One turn of the outer loop (lines 56-76). *)
Definition process_line_call (i : nat) (results : dict) (line : text)
    : outcome dict :=
  and_then (print (line_message i line))
           (inner_loop_call i (clean line) patterns results).

(** The outer loop over [enumerate(lines)], from index [i] on. *)
Fixpoint scan_lines_call (i : nat) (lines : list text) (results : dict)
    : outcome dict :=
  match lines with
  | [] => Returned results
  | line :: more =>
      match process_line_call i results line with
      | Returned r => scan_lines_call (S i) more r
      | Raised e => Raised e
      end
  end.

(** The call of [extract_health_values] on a [str] (lines 35-82), with
    its [print] calls.  The body has no [raise], tests no length and sets
    no time limit; [splitlines], [re.sub], [search] with a start offset no
    larger than the length, [group(1)] after a successful search,
    [replace], and the reads and writes of the dictionary all succeed on
    every string. *)
Definition extract_health_values_call (t : text) : outcome dict :=
  match scan_lines_call 0 (splitlines t) [] with
  | Returned results => Returned (set_missing results)
  | Raised e => Raised e
  end.

End Trace.

(** The line feed, for the examples. *)
Definition LF : string := String "010" EmptyString.

(** The lines [ls] joined by line feeds. *)
Definition lines_of (ls : list string) : text :=
  str (String.concat LF ls).

(** The console of the examples: it writes what is ASCII and raises on
    any other character. *)
Definition ascii_console (s : text) : outcome unit :=
  if forallb (fun c => (code c <? 128)%N) s then Returned tt
  else Raised "UnicodeEncodeError".

(* ------------------------------------------------------------------ *)
(** ** The notions of the statements and of their proofs *)

Module Notions.

(** [span c e w]: the position [e] lies [w] after the position [c]. *)
Definition span (c e : cursor) (w : text) : Prop :=
  after c = w ++ after e /\ before e = rev w ++ before c.

(** [n] respects the upper bound of a repetition. *)
Definition within (hi : option nat) (n : nat) : Prop :=
  match hi with Some h => n <= h | None => True end.

(** The strings a pattern accepts when the context is left aside. *)
Fixpoint lang (r : regex) (w : text) : Prop :=
  match r with
  | Eps => w = []
  | Chr p => exists x, w = [x] /\ p x = true
  | Seq a b => exists u v, w = u ++ v /\ lang a u /\ lang b v
  | Alt a b => lang a w \/ lang b w
  | Rep _ p lo hi =>
      Forall (fun x => p x = true) w /\ lo <= length w /\ within hi (length w)
  | WordB => w = []
  end.

(** The pattern has no [\b]. *)
Fixpoint wordb_free (r : regex) : bool :=
  match r with
  | Seq a b | Alt a b => wordb_free a && wordb_free b
  | WordB => false
  | _ => true
  end.

(** The pattern stored under a key in a dictionary of patterns. *)
Definition pattern_for (k : string) (ps : list (string * regex)) : option regex :=
  match find (fun kp => String.eqb (fst kp) k) ps with
  | Some kp => Some (snd kp)
  | None => None
  end.

(** The value of the first line, top to bottom, that gives one. *)
Fixpoint first_value (k : string) (p : regex) (lines : list text) : option text :=
  match lines with
  | [] => None
  | l :: rest =>
      match line_value k p (clean l) with
      | Some v => Some v
      | None => first_value k p rest
      end
  end.

(** The keys of [patterns], in the order of the literal. *)
Definition registry : list string :=
  [ "Plasma Glucose"; "HbA1c"; "HDL"; "LDL"; "Triglycerides"; "Albumin";
    "Cholesterol"; "BMI"; "Blood Pressure"; "TSH"; "LDH"; "CK" ]%string.

(** The shape of the dictionary while the lines are scanned: no key twice,
    only keys of [patterns], only strings as values. *)
Definition scanning (d : dict) : Prop :=
  NoDup (keys d) /\
  forall k v, In (k, v) d -> In k (map fst patterns) /\ exists s, v = Some s.

(** The longest prefix of characters of a class, and what follows it. *)
Fixpoint take_while (p : ascii -> bool) (s : text) : text :=
  match s with
  | x :: t => if p x then x :: take_while p t else []
  | [] => []
  end.

Fixpoint drop_while (p : ascii -> bool) (s : text) : text :=
  match s with
  | x :: t => if p x then drop_while p t else s
  | [] => []
  end.

(** Two or three digits, [/], two or three digits. *)
Definition is_ratio (v : text) : bool :=
  let a := take_while is_digit v in
  match drop_while is_digit v with
  | x :: b =>
      is_char "/" x && forallb is_digit b &&
      (2 <=? length a) && (length a <=? 3) &&
      (2 <=? length b) && (length b <=? 3)
  | [] => false
  end.

(** The decimal shape in the words of the specification: digits,
    optionally followed by one separator from [seps] and digits. *)
Definition spec_is_decimal (seps : list ascii) (v : text) : bool :=
  let a := take_while is_digit v in
  (1 <=? length a) &&
  match drop_while is_digit v with
  | [] => true
  | x :: b => one_of seps x && (1 <=? length b) && forallb is_digit b
  end.

(** The decimal shape of [num_pat]: digits, optionally followed by one
    separator from [seps] and by digits or nothing. *)
Definition is_decimal_open (seps : list ascii) (v : text) : bool :=
  let a := take_while is_digit v in
  (1 <=? length a) &&
  match drop_while is_digit v with
  | [] => true
  | x :: b => one_of seps x && forallb is_digit b
  end.

(** The separator of a value, and the separators of a token in the line. *)
Definition dot : list ascii := ["."%char].

Definition dot_or_comma : list ascii := ["."%char; ","%char].

(** The test [key == "Blood Pressure"] of the inner loop. *)
Definition is_bp (k : string) : bool := String.eqb k "Blood Pressure".

(** The pattern stored under a key: [patterns[key]]; [Eps] stands for a
    key that is not there. *)
Definition pattern_of (k : string) : regex :=
  match pattern_for k patterns with Some p => p | None => Eps end.

(** What the result holds for a key of the registry. *)
Definition final_value (t : text) (k : string) : option text :=
  match dict_get k (scan_lines (splitlines t)) with
  | Some v => v
  | None => None
  end.

(** The result in the words of the specification: the entries emitted
    metric by metric, in the order of the registry. *)
Definition spec_registry_order (t : text) : dict :=
  map (fun k => (k, final_value t k)) registry.

(** The pattern has the form [\b(?:...)\b]. *)
Definition is_bounded (r : regex) : bool :=
  match r with
  | Seq WordB (Seq _ WordB) => true
  | _ => false
  end.

(** The pattern accepts the empty string. *)
Fixpoint nullable (r : regex) : bool :=
  match r with
  | Eps | WordB => true
  | Chr _ => false
  | Seq a b => nullable a && nullable b
  | Alt a b => nullable a || nullable b
  | Rep _ _ lo _ => lo =? 0
  end.

(** Every character. *)
Definition all_chars : list ascii := map ascii_of_nat (seq 0 256).

(** The class does not tell a letter from its other case. *)
Definition caseless (p : ascii -> bool) : bool :=
  forallb (fun c => Bool.eqb (p (lower c)) (p c)) all_chars.

(** No class of the pattern does. *)
Fixpoint caseless_regex (r : regex) : bool :=
  match r with
  | Eps | WordB => true
  | Chr p => caseless p
  | Seq a b | Alt a b => caseless_regex a && caseless_regex b
  | Rep _ p _ _ => caseless p
  end.

(** Two positions of two strings that differ in the case of letters only. *)
Definition same_fold (c c' : cursor) : Prop :=
  map lower (before c) = map lower (before c') /\
  map lower (after c) = map lower (after c').

(** Two searches end alike: no match, or a match at the same offsets. *)
Definition same_offsets (m m' : option (cursor * cursor)) : Prop :=
  match m, m' with
  | Some (b, e), Some (b', e') => offset b = offset b' /\ offset e = offset e'
  | None, None => True
  | _, _ => False
  end.

(** [re.sub] from a position on, with the fuel the rest of the string asks
    for. *)
Definition sub_at (r : regex) (repl : text) (c : cursor) : text :=
  sub_loop (length (after c)) r repl c.

(** Line normalization in the words of the specification, step by step. *)

(** What follows the first [)] of [s], when there is one. *)
Fixpoint after_close (s : text) : option text :=
  match s with
  | [] => None
  | x :: t => if is_char ")" x then Some t else after_close t
  end.

(** Step 1: each [(] is removed together with everything up to the first
    [)] that follows it; a [(] that no [)] follows stays in place. *)
Fixpoint remove_parens (fuel : nat) (s : text) : text :=
  match fuel with
  | 0 => s
  | S f =>
      match s with
      | [] => []
      | x :: t =>
          if is_char "(" x then
            match after_close t with
            | Some rest => remove_parens f rest
            | None => x :: remove_parens f t
            end
          else x :: remove_parens f t
      end
  end.

Definition spec_strip_parens (s : text) : text :=
  remove_parens (length s) s.

(** Step 2: each run of whitespace becomes one space. *)
Fixpoint collapse (fuel : nat) (s : text) : text :=
  match fuel with
  | 0 => s
  | S f =>
      match s with
      | [] => []
      | x :: t =>
          if is_space x then " "%char :: collapse f (drop_while is_space t)
          else x :: collapse f t
      end
  end.

Definition spec_collapse_whitespace (s : text) : text :=
  collapse (length s) s.

(** Step 3: leading and trailing whitespace is removed. *)
Definition spec_trim (s : text) : text :=
  rev (drop_while is_space (rev (drop_while is_space s))).

Definition spec_normalize (line : text) : text :=
  spec_trim (spec_collapse_whitespace (spec_strip_parens line)).

(** The line holds no line feed. *)
Definition no_newline (s : text) : Prop :=
  Forall (fun x => not_newline x = true) s.

(** What is left of the string after a position. *)
Definition rest (c : cursor) : nat := length (after c).

(** [x] lies after [y]; [x] does not lie before [y]. *)
Definition further (x y : cursor) : Prop := rest x < rest y.

Definition not_before (x y : cursor) : Prop := rest x <= rest y.

(** The three parts of the group of [num_pat]. *)
Definition digits1 : regex := Rep true is_digit 1 None.

Definition opt_sep : regex := Rep true (one_of dot_or_comma) 0 (Some 1).

Definition digits0 : regex := Rep true is_digit 0 None.

(** [[.,]?[0-9]*] *)
Definition tail_pat : regex := Seq opt_sep digits0.

(** A number token of the string [s]: from offset [i] to offset [j], one
    or more digits, optionally one [.] or [,] and digits or nothing, with a
    word boundary at both ends. *)
Definition is_num_token (s : text) (i j : nat) : Prop :=
  i <= j /\ j <= length s /\
  at_boundary (cursor_at s i) = true /\ at_boundary (cursor_at s j) = true /\
  is_decimal_open dot_or_comma (slice s i j) = true.

(** The line gives a value for [k]. *)
Definition gives (k : string) (cl : text) : bool :=
  match line_value k (pattern_of k) cl with Some _ => true | None => false end.

(** The index of the line that resolves [k]: the first line, top to
    bottom, that gives a value for the pattern of [k]. *)
Fixpoint first_line (k : string) (lines : list text) : option nat :=
  match lines with
  | [] => None
  | l :: rest =>
      match line_value k (pattern_of k) (clean l) with
      | Some _ => Some 0
      | None => option_map S (first_line k rest)
      end
  end.

(** [k] is resolved by the line of index [i]; [k] is resolved by no line. *)
Definition resolved_by (lines : list text) (i : nat) (k : string) : bool :=
  match first_line k lines with
  | Some j => j =? i
  | None => false
  end.

Definition unresolved (lines : list text) (k : string) : bool :=
  match first_line k lines with
  | Some _ => false
  | None => true
  end.

(** The keys in the order in which the scan resolves them, line after
    line and in the order of the registry within one line, then the keys
    that no line resolves, in the order of the registry. *)
Definition insertion_order (lines : list text) : list string :=
  flat_map (fun i => filter (resolved_by lines i) registry)
           (seq 0 (length lines))
  ++ filter (unresolved lines) registry.

End Notions.
Import Notions.

(* ------------------------------------------------------------------ *)
(** ** What the matcher computes *)

Module ReFacts.

Lemma span_nil c : span c c [].
Proof. split; reflexivity. Qed.

Lemma span_app c d e u v : span c d u -> span d e v -> span c e (u ++ v).
Proof.
  intros [H1 H2] [H3 H4]. split.
  - rewrite H1, H3, app_assoc. reflexivity.
  - rewrite H4, H2, rev_app_distr, app_assoc. reflexivity.
Qed.

Lemma span_cons bef x t : span (Cursor bef (x :: t)) (Cursor (x :: bef) t) [x].
Proof. split; reflexivity. Qed.

Lemma span_offset c e w : span c e w -> offset e = offset c + length w.
Proof.
  intros [_ H]. unfold offset. rewrite H, length_app, length_rev. lia.
Qed.

Lemma span_whole c e w : span c e w -> whole e = whole c.
Proof.
  intros [H1 H2]. unfold whole.
  rewrite H2, H1, rev_app_distr, rev_involutive, <- app_assoc. reflexivity.
Qed.

Lemma cursor_eq c e : before c = before e -> after c = after e -> c = e.
Proof. destruct c, e; simpl; intros; subst; reflexivity. Qed.

Lemma span_inj c e e' w : span c e w -> span c e' w -> e = e'.
Proof.
  intros [H1 H2] [H3 H4]. apply cursor_eq.
  - congruence.
  - rewrite H1 in H3. apply app_inv_head in H3. exact H3.
Qed.

Lemma span_same_length c e e' u v :
  span c e u -> span c e' v -> length u = length v -> u = v /\ e = e'.
Proof.
  intros He He' L.
  assert (u = v).
  { destruct He as [H1 _], He' as [H3 _]. rewrite H1 in H3.
    apply (f_equal (firstn (length u))) in H3.
    rewrite firstn_app, firstn_all, Nat.sub_diag in H3. simpl in H3.
    rewrite L, firstn_app, firstn_all, Nat.sub_diag in H3. simpl in H3.
    rewrite !app_nil_r in H3. exact H3. }
  subst v. split; [reflexivity | eapply span_inj; eassumption].
Qed.

Lemma rep_sound g p : forall aft lo hi bef e,
  In e (rep g p lo hi bef aft) ->
  exists w, span (Cursor bef aft) e w /\
            Forall (fun x => p x = true) w /\ lo <= length w /\
            within hi (length w).
Proof.
  induction aft as [|x t IH]; intros lo hi bef e H; simpl in H.
  - destruct (Nat.eqb_spec lo 0); [|contradiction].
    destruct H as [<-|[]]. exists []. subst lo. repeat split; simpl; auto.
    destruct hi; simpl; lia.
  - assert (Stop : In e (if lo =? 0 then [Cursor bef (x :: t)] else []) ->
      exists w, span (Cursor bef (x :: t)) e w /\
            Forall (fun x => p x = true) w /\ lo <= length w /\
            within hi (length w)).
    { destruct (Nat.eqb_spec lo 0); [|contradiction].
      intros [<-|[]]. exists []. subst lo. repeat split; simpl; auto.
      destruct hi; simpl; lia. }
    destruct (p x && can_repeat hi) eqn:E; [|auto].
    apply andb_prop in E. destruct E as [Px Hr].
    assert (More : In e (rep g p (pred lo) (option_map pred hi) (x :: bef) t) ->
      exists w, span (Cursor bef (x :: t)) e w /\
            Forall (fun x => p x = true) w /\ lo <= length w /\
            within hi (length w)).
    { intros Hin. apply IH in Hin. destruct Hin as (w & Hs & Hf & Hlo & Hhi).
      exists (x :: w). split; [|split; [|split]].
      - change (x :: w) with ([x] ++ w).
        eapply span_app; [apply span_cons | exact Hs].
      - constructor; assumption.
      - simpl. lia.
      - destruct hi as [[|h]|]; simpl in *; try discriminate; lia. }
    destruct g; apply in_app_or in H; destruct H; auto.
Qed.

Lemma rep_complete g p : forall w aft lo hi bef e,
  span (Cursor bef aft) e w ->
  Forall (fun x => p x = true) w -> lo <= length w -> within hi (length w) ->
  In e (rep g p lo hi bef aft).
Proof.
  induction w as [|x w IH]; intros aft lo hi bef e Hs Hf Hlo Hhi.
  - assert (e = Cursor bef aft) by (eapply span_inj; [exact Hs | apply span_nil]).
    subst e. simpl in Hlo. assert (lo = 0) by lia. subst lo.
    destruct aft as [|y t]; simpl; auto.
    destruct (p y && can_repeat hi); [|simpl; auto].
    destruct g; [apply in_or_app; right | ]; simpl; auto.
  - destruct Hs as [H1 H2]. simpl in H1, H2. subst aft. simpl.
    inversion Hf as [|? ? Px Hf']; subst. rewrite Px.
    assert (can_repeat hi = true) as ->.
    { destruct hi as [[|h]|]; simpl in *; auto; lia. }
    simpl.
    assert (In e (rep g p (pred lo) (option_map pred hi) (x :: bef) (w ++ after e))).
    { apply IH; auto.
      - split; simpl; auto. rewrite H2, <- app_assoc. reflexivity.
      - simpl in Hlo. lia.
      - destruct hi as [h|]; simpl in *; auto; lia. }
    destruct g; apply in_or_app; auto.
Qed.

Lemma ends_sound r : forall c e,
  In e (ends r c) -> exists w, span c e w /\ lang r w.
Proof.
  induction r as [|p|a IHa b IHb|a IHa b IHb|g p lo hi|]; intros c e H; simpl in H.
  - destruct H as [<-|[]]. exists []. split; [apply span_nil | reflexivity].
  - destruct c as [bef [|x t]]; simpl in H; [contradiction|].
    destruct (p x) eqn:Px; [|contradiction]. destruct H as [<-|[]].
    exists [x]. split; [apply span_cons | exists x; auto].
  - apply in_flat_map in H. destruct H as (d & Hd & He).
    apply IHa in Hd. apply IHb in He.
    destruct Hd as (u & Su & Lu), He as (v & Sv & Lv).
    exists (u ++ v). split; [eapply span_app; eassumption|].
    exists u, v. auto.
  - apply in_app_or in H. destruct H as [H|H]; [apply IHa in H|apply IHb in H];
      destruct H as (w & Sw & Lw); exists w; simpl; auto.
  - destruct c as [bef aft]. simpl in H. apply rep_sound in H.
    destruct H as (w & Sw & L). exists w. simpl. auto.
  - destruct (at_boundary c); [|contradiction]. destruct H as [<-|[]].
    exists []. split; [apply span_nil | reflexivity].
Qed.

Lemma span_split c e u v :
  span c e (u ++ v) -> exists d, span c d u /\ span d e v.
Proof.
  intros [H1 H2]. exists (Cursor (rev u ++ before c) (v ++ after e)). split; split; simpl.
  - rewrite H1, app_assoc. reflexivity.
  - reflexivity.
  - reflexivity.
  - rewrite H2, rev_app_distr, app_assoc. reflexivity.
Qed.

Lemma ends_complete r : forall c e w,
  wordb_free r = true -> span c e w -> lang r w -> In e (ends r c).
Proof.
  induction r as [|p|a IHa b IHb|a IHa b IHb|g p lo hi|];
    intros c e w F S L; simpl in *.
  - subst w. left. eapply span_inj; [apply span_nil | exact S].
  - destruct L as (x & -> & Px). destruct S as [H1 H2]. simpl in *.
    rewrite H1, Px. left. apply cursor_eq; simpl; auto.
  - apply andb_prop in F. destruct F as [Fa Fb].
    destruct L as (u & v & -> & Lu & Lv).
    apply span_split in S. destruct S as (d & Su & Sv).
    apply in_flat_map. exists d. split; eauto.
  - apply andb_prop in F. destruct F as [Fa Fb].
    apply in_or_app. destruct L; [left|right]; eauto.
  - destruct L as (Hf & Hlo & Hhi). destruct c as [bef aft]; simpl.
    eapply rep_complete; eauto.
  - discriminate.
Qed.

(** A pattern between two [\b]. *)
Lemma ends_bounded_in r c e :
  In e (ends (Seq WordB (Seq r WordB)) c) <->
  at_boundary c = true /\ In e (ends r c) /\ at_boundary e = true.
Proof.
  simpl. destruct (at_boundary c); simpl.
  - rewrite app_nil_r, in_flat_map. split.
    + intros (d & Hd & He). destruct (at_boundary d) eqn:B; [|contradiction].
      destruct He as [<-|[]]. auto.
    + intros (_ & He & B). exists e. rewrite B. simpl. auto.
  - split; [contradiction | intros [? _]; discriminate].
Qed.

Lemma ends_bounded r c :
  ends (Seq WordB (Seq r WordB)) c =
  if at_boundary c then filter at_boundary (ends r c) else [].
Proof.
  simpl. destruct (at_boundary c); simpl; [|reflexivity].
  rewrite app_nil_r. induction (ends r c) as [|d l IH]; simpl; [reflexivity|].
  rewrite IH. destruct (at_boundary d); reflexivity.
Qed.

(** *** Positions of a string *)

Lemma advance_eq : forall n bef aft,
  advance n (Cursor bef aft) = Cursor (rev (firstn n aft) ++ bef) (skipn n aft).
Proof.
  induction n as [|n IH]; intros bef aft; [reflexivity|].
  destruct aft as [|x t]; [reflexivity|].
  simpl. rewrite IH. simpl. rewrite <- app_assoc. reflexivity.
Qed.

Lemma cursor_at_eq s pos :
  cursor_at s pos = Cursor (rev (firstn pos s)) (skipn pos s).
Proof. unfold cursor_at. rewrite advance_eq, app_nil_r. reflexivity. Qed.

Lemma cursor_at_span s pos :
  span (Cursor [] s) (cursor_at s pos) (firstn pos s).
Proof.
  rewrite cursor_at_eq. split; simpl.
  - symmetry. apply firstn_skipn.
  - rewrite app_nil_r. reflexivity.
Qed.

Lemma cursor_at_offset s pos : offset (cursor_at s pos) = Nat.min pos (length s).
Proof.
  rewrite cursor_at_eq. unfold offset. simpl.
  rewrite length_rev, length_firstn. reflexivity.
Qed.

Lemma cursor_at_whole s pos : whole (cursor_at s pos) = s.
Proof.
  rewrite cursor_at_eq. unfold whole. simpl.
  rewrite rev_involutive. apply firstn_skipn.
Qed.

Lemma cursor_of_whole d : cursor_at (whole d) (offset d) = d.
Proof.
  destruct d as [bef aft]. rewrite cursor_at_eq. unfold whole, offset. simpl.
  rewrite <- (length_rev bef).
  rewrite firstn_app, firstn_all, Nat.sub_diag, skipn_app, skipn_all, Nat.sub_diag.
  simpl. rewrite app_nil_r, rev_involutive. reflexivity.
Qed.

Lemma span_cursor_at s pos e w :
  span (cursor_at s pos) e w -> e = cursor_at s (offset e).
Proof.
  intros H. apply span_whole in H. rewrite cursor_at_whole in H.
  rewrite <- H. symmetry. apply cursor_of_whole.
Qed.

Lemma firstn_plus (s : text) : forall i k,
  firstn (i + k) s = firstn i s ++ firstn k (skipn i s).
Proof.
  induction s as [|x t IH]; intros [|i] k; simpl;
    rewrite ?firstn_nil; try reflexivity.
  rewrite IH. reflexivity.
Qed.

Lemma span_between s i j :
  i <= j -> j <= length s ->
  span (cursor_at s i) (cursor_at s j) (slice s i j).
Proof.
  intros Hij Hj. rewrite !cursor_at_eq. unfold slice. split; simpl.
  - replace (skipn j s) with (skipn (j - i) (skipn i s)).
    + symmetry. apply firstn_skipn.
    + rewrite skipn_skipn. f_equal. lia.
  - rewrite <- rev_app_distr. f_equal.
    replace j with (i + (j - i)) at 1 by lia.
    rewrite firstn_plus. reflexivity.
Qed.

Lemma span_slice s i e w :
  i <= length s -> span (cursor_at s i) e w ->
  w = slice s i (offset e) /\ i <= offset e /\ offset e <= length s.
Proof.
  intros Hi H. pose proof (span_offset _ _ _ H) as Ho.
  rewrite cursor_at_offset, Nat.min_l in Ho by lia.
  pose proof (span_cursor_at _ _ _ _ H) as He.
  assert (Hle : offset e <= length s).
  { rewrite He, cursor_at_offset. lia. }
  assert (Hs : span (cursor_at s i) (cursor_at s (offset e)) (slice s i (offset e))).
  { apply span_between; lia. }
  rewrite <- He in Hs.
  destruct (span_same_length _ _ _ _ _ H Hs) as [-> _].
  - unfold slice. rewrite length_firstn, length_skipn. lia.
  - repeat split; lia.
Qed.

(** *** The leftmost match *)

Lemma match_at_in r c e : match_at r c = Some e -> In e (ends r c).
Proof.
  unfold match_at. destruct (ends r c); [discriminate|].
  intros [= ->]. left. reflexivity.
Qed.

Lemma match_at_none r c : match_at r c = None <-> ends r c = [].
Proof.
  unfold match_at. destruct (ends r c); split; congruence.
Qed.

Lemma scan_some r : forall aft bef b e,
  scan r bef aft = Some (b, e) ->
  exists u, span (Cursor bef aft) b u /\ match_at r b = Some e /\
    forall u' d, span (Cursor bef aft) d u' -> length u' < length u ->
                 ends r d = [].
Proof.
  induction aft as [|x t IH]; intros bef b e H; simpl in H.
  - destruct (match_at r (Cursor bef [])) eqn:M; [|discriminate].
    injection H as <- <-. exists []. split; [apply span_nil|].
    split; [exact M|]. simpl. intros; lia.
  - destruct (match_at r (Cursor bef (x :: t))) eqn:M.
    + injection H as <- <-. exists []. split; [apply span_nil|].
      split; [exact M|]. simpl. intros; lia.
    + apply IH in H. destruct H as (u & Su & Mu & Hmin).
      exists (x :: u). split; [|split; [exact Mu|]].
      * change (x :: u) with ([x] ++ u).
        eapply span_app; [apply span_cons | exact Su].
      * intros u' d Sd L. destruct u' as [|y u'].
        -- assert (d = Cursor bef (x :: t))
             by (eapply span_inj; [exact Sd | apply span_nil]).
           subst d. apply match_at_none. exact M.
        -- destruct Sd as [H1 H2]. simpl in H1, H2. injection H1 as <- H1.
           apply (Hmin u' d).
           ++ split; simpl; auto. rewrite H2, <- app_assoc. reflexivity.
           ++ simpl in L. lia.
Qed.

Lemma scan_none r : forall aft bef,
  scan r bef aft = None ->
  forall u d, span (Cursor bef aft) d u -> ends r d = [].
Proof.
  induction aft as [|x t IH]; intros bef H u d Sd; simpl in H.
  - destruct (match_at r (Cursor bef [])) eqn:M; [discriminate|].
    destruct Sd as [H1 H2]. simpl in H1. destruct u; [|discriminate].
    simpl in *. apply match_at_none.
    replace d with (Cursor bef []); [exact M|]. apply cursor_eq; simpl; auto.
  - destruct (match_at r (Cursor bef (x :: t))) eqn:M; [discriminate|].
    destruct u as [|y u].
    + assert (d = Cursor bef (x :: t))
        by (eapply span_inj; [exact Sd | apply span_nil]).
      subst d. apply match_at_none. exact M.
    + destruct Sd as [H1 H2]. simpl in H1, H2. injection H1 as <- H1.
      apply (IH _ H u d). split; simpl; auto.
      rewrite H2, <- app_assoc. reflexivity.
Qed.

(** [pattern.search(s, pos)] in terms of offsets. *)
Lemma search_some r s pos i j :
  pos <= length s -> search r s pos = Some (i, j) ->
  pos <= i /\ i <= j /\ j <= length s /\
  match_at r (cursor_at s i) = Some (cursor_at s j) /\
  forall i', pos <= i' -> i' < i -> ends r (cursor_at s i') = [].
Proof.
  unfold search, scan_from. intros Hp H.
  destruct (scan r _ _) as [[b e]|] eqn:Sc; [|discriminate].
  injection H as <- <-.
  replace (scan r _ _) with
    (scan_from r (cursor_at s pos)) in Sc by reflexivity.
  unfold scan_from in Sc. apply scan_some in Sc.
  destruct Sc as (u & Su & M & Hmin).
  replace (Cursor _ _) with (cursor_at s pos) in *
    by (destruct (cursor_at s pos); reflexivity).
  destruct (span_slice _ _ _ _ Hp Su) as (-> & Hb1 & Hb2).
  pose proof (span_cursor_at _ _ _ _ Su) as Hb.
  pose proof (match_at_in _ _ _ M) as Hin. apply ends_sound in Hin.
  destruct Hin as (w & Sw & _). rewrite Hb in Sw.
  destruct (span_slice _ _ _ _ Hb2 Sw) as (_ & He1 & He2).
  pose proof (span_cursor_at _ _ _ _ Sw) as He.
  repeat split; try lia.
  - rewrite <- Hb, <- He. exact M.
  - intros i' L1 L2. apply (Hmin (slice s pos i') (cursor_at s i')).
    + apply span_between; lia.
    + unfold slice. rewrite !length_firstn, !length_skipn. lia.
Qed.

Lemma search_none r s pos :
  pos <= length s -> search r s pos = None ->
  forall i, pos <= i -> i <= length s -> ends r (cursor_at s i) = [].
Proof.
  unfold search, scan_from. intros Hp H i L1 L2.
  destruct (scan r _ _) as [[b e]|] eqn:Sc; [discriminate|].
  eapply (scan_none _ _ _ Sc (slice s pos i)).
  replace (Cursor _ _) with (cursor_at s pos)
    by (destruct (cursor_at s pos); reflexivity).
  apply span_between; lia.
Qed.

End ReFacts.
Import ReFacts.

(* ------------------------------------------------------------------ *)
(** ** The dictionary and the two loops *)

Module Loop.

Lemma patterns_keys : map fst patterns = registry.
Proof. vm_compute. reflexivity. Qed.

Lemma registry_nodup : NoDup registry.
Proof.
  apply (NoDup_count_occ' string_dec). intros k H.
  unfold registry in H. simpl in H.
  repeat (destruct H as [<-|H]; [vm_compute; reflexivity|]). contradiction.
Qed.

Lemma patterns_nodup : NoDup (map fst patterns).
Proof. rewrite patterns_keys. exact registry_nodup. Qed.

Local Opaque patterns.

Lemma dict_mem_get k d :
  dict_mem k d = match dict_get k d with Some _ => true | None => false end.
Proof.
  unfold dict_mem, dict_get. induction d as [|kv d IH]; simpl; [reflexivity|].
  destruct (String.eqb (fst kv) k); simpl; auto.
Qed.

Lemma dict_mem_in k d : dict_mem k d = true <-> In k (keys d).
Proof.
  unfold dict_mem, keys. induction d as [|kv d IH]; simpl.
  - split; [discriminate | contradiction].
  - destruct (String.eqb_spec (fst kv) k); simpl.
    + split; auto.
    + rewrite IH. split; auto. intros [?|?]; [contradiction | assumption].
Qed.

Lemma dict_mem_false k d : dict_mem k d = false <-> ~ In k (keys d).
Proof.
  rewrite <- dict_mem_in. destruct (dict_mem k d); split; congruence.
Qed.

Lemma dict_get_set_same k v d : dict_get k (dict_set k v d) = Some v.
Proof.
  unfold dict_get. induction d as [|kv d IH]; simpl.
  - rewrite String.eqb_refl. reflexivity.
  - destruct (String.eqb (fst kv) k) eqn:E; simpl.
    + rewrite String.eqb_refl. reflexivity.
    + rewrite E. exact IH.
Qed.

Lemma dict_get_set_other k k' v d :
  k <> k' -> dict_get k (dict_set k' v d) = dict_get k d.
Proof.
  intros N. unfold dict_get. induction d as [|kv d IH]; simpl.
  - destruct (String.eqb_spec k' k); [congruence | reflexivity].
  - destruct (String.eqb_spec (fst kv) k'); simpl.
    + destruct (String.eqb_spec k' k); [congruence|].
      destruct (String.eqb_spec (fst kv) k); [congruence | reflexivity].
    + destruct (String.eqb (fst kv) k); [reflexivity | exact IH].
Qed.

Lemma dict_set_absent k v d :
  dict_mem k d = false -> dict_set k v d = d ++ [(k, v)].
Proof.
  unfold dict_mem. induction d as [|kv d IH]; simpl; [reflexivity|].
  destruct (String.eqb (fst kv) k); simpl; [discriminate|].
  intros H. rewrite IH by exact H. reflexivity.
Qed.

Lemma dict_get_in k v d : dict_get k d = Some v -> In (k, v) d.
Proof.
  unfold dict_get. induction d as [|[k' v'] d IH]; simpl; [discriminate|].
  destruct (String.eqb_spec k' k); simpl.
  - intros [= <-]. subst. auto.
  - auto.
Qed.

Lemma in_dict_get k v d : NoDup (keys d) -> In (k, v) d -> dict_get k d = Some v.
Proof.
  unfold dict_get, keys. induction d as [|[k' v'] d IH]; simpl; [contradiction|].
  intros ND H. inversion ND as [|? ? Hn ND']; subst.
  destruct H as [[= -> ->]|H].
  - rewrite String.eqb_refl. reflexivity.
  - destruct (String.eqb_spec k' k).
    + subst k'. exfalso. apply Hn. apply (in_map fst) in H. exact H.
    + auto.
Qed.

Lemma pattern_for_in k p ps :
  NoDup (map fst ps) -> In (k, p) ps -> pattern_for k ps = Some p.
Proof.
  unfold pattern_for. induction ps as [|[k' p'] ps IH]; simpl; [contradiction|].
  intros ND H. inversion ND as [|? ? Hn ND']; subst.
  destruct H as [[= -> ->]|H].
  - rewrite String.eqb_refl. reflexivity.
  - destruct (String.eqb_spec k' k).
    + subst k'. exfalso. apply Hn. apply (in_map fst) in H. exact H.
    + auto.
Qed.

Lemma pattern_for_none k ps : ~ In k (map fst ps) -> pattern_for k ps = None.
Proof.
  unfold pattern_for. induction ps as [|[k' p'] ps IH]; simpl; [reflexivity|].
  intros H. destruct (String.eqb_spec k' k); [tauto|]. apply IH. tauto.
Qed.

(** What one turn of the inner loop does to the entry of [k]. *)
Lemma try_metric_get cl res kp k :
  dict_get k (try_metric cl res kp) =
  match dict_get k res with
  | Some v => Some v
  | None =>
      if String.eqb (fst kp) k then
        match line_value (fst kp) (snd kp) cl with
        | Some v => Some (Some v)
        | None => None
        end
      else None
  end.
Proof.
  unfold try_metric. rewrite dict_mem_get.
  destruct (String.eqb_spec (fst kp) k) as [->|N].
  - destruct (dict_get k res) eqn:G; [exact G|].
    destruct (line_value k (snd kp) cl); [apply dict_get_set_same | exact G].
  - destruct (dict_get (fst kp) res) eqn:G.
    + destruct (dict_get k res); reflexivity.
    + destruct (line_value (fst kp) (snd kp) cl).
      * rewrite dict_get_set_other by congruence.
        destruct (dict_get k res); reflexivity.
      * destruct (dict_get k res); reflexivity.
Qed.

Lemma inner_loop_get cl : forall ps res k,
  NoDup (map fst ps) ->
  dict_get k (fold_left (try_metric cl) ps res) =
  match dict_get k res with
  | Some v => Some v
  | None =>
      match pattern_for k ps with
      | Some p =>
          match line_value k p cl with
          | Some v => Some (Some v)
          | None => None
          end
      | None => None
      end
  end.
Proof.
  induction ps as [|[k0 p0] ps IH]; intros res k ND; simpl.
  - destruct (dict_get k res); reflexivity.
  - inversion ND as [|? ? Hn ND']; subst.
    rewrite IH by exact ND'. rewrite try_metric_get. simpl.
    unfold pattern_for. simpl.
    destruct (dict_get k res); [reflexivity|].
    destruct (String.eqb_spec k0 k) as [->|N]; simpl.
    + fold (pattern_for k ps). rewrite (pattern_for_none _ _ Hn).
      destruct (line_value k p0 cl); reflexivity.
    + reflexivity.
Qed.

Lemma process_line_get res line k :
  dict_get k (process_line res line) =
  match dict_get k res with
  | Some v => Some v
  | None =>
      match pattern_for k patterns with
      | Some p =>
          match line_value k p (clean line) with
          | Some v => Some (Some v)
          | None => None
          end
      | None => None
      end
  end.
Proof. apply inner_loop_get. exact patterns_nodup. Qed.

Lemma fold_left_cons {A B : Type} (f : A -> B -> A) x xs a :
  fold_left f (x :: xs) a = fold_left f xs (f a x).
Proof. reflexivity. Qed.

Lemma first_value_cons k p l rest :
  first_value k p (l :: rest) =
  match line_value k p (clean l) with
  | Some v => Some v
  | None => first_value k p rest
  end.
Proof. reflexivity. Qed.

Lemma outer_loop_get : forall lines res k,
  dict_get k (fold_left process_line lines res) =
  match dict_get k res with
  | Some v => Some v
  | None =>
      match pattern_for k patterns with
      | Some p =>
          match first_value k p lines with
          | Some v => Some (Some v)
          | None => None
          end
      | None => None
      end
  end.
Proof.
  induction lines as [|l lines IH]; intros res k.
  - cbn [fold_left]. destruct (dict_get k res); [reflexivity|].
    destruct (pattern_for k patterns); reflexivity.
  - rewrite fold_left_cons, IH, process_line_get.
    destruct (dict_get k res); [reflexivity|].
    destruct (pattern_for k patterns); [|reflexivity].
    rewrite first_value_cons.
    destruct (line_value k r (clean l)); reflexivity.
Qed.

Lemma scan_lines_get lines k :
  dict_get k (scan_lines lines) =
  match pattern_for k patterns with
  | Some p =>
      match first_value k p lines with
      | Some v => Some (Some v)
      | None => None
      end
  | None => None
  end.
Proof. unfold scan_lines. exact (outer_loop_get lines [] k). Qed.

Lemma try_metric_shape cl res kp :
  try_metric cl res kp = res \/
  (dict_mem (fst kp) res = false /\
   exists s, line_value (fst kp) (snd kp) cl = Some s /\
             try_metric cl res kp = res ++ [(fst kp, Some s)]).
Proof.
  unfold try_metric. destruct (dict_mem (fst kp) res) eqn:M; [auto|].
  destruct (line_value (fst kp) (snd kp) cl) as [s|]; [|auto].
  right. split; [reflexivity|]. exists s. split; [reflexivity|].
  apply dict_set_absent. exact M.
Qed.

Lemma keys_app d d' : keys (d ++ d') = keys d ++ keys d'.
Proof. apply map_app. Qed.

Lemma scanning_snoc d k s :
  scanning d -> dict_mem k d = false -> In k (map fst patterns) ->
  scanning (d ++ [(k, Some s)]).
Proof.
  intros [ND Hv] M Hk. split.
  - rewrite keys_app. simpl. apply NoDup_app_remove_l with (l := []).
    simpl. apply Permutation_NoDup with (l := k :: keys d).
    + apply Permutation_cons_append.
    + constructor; [apply dict_mem_false; exact M | exact ND].
  - intros k' v' H. apply in_app_or in H. destruct H as [H|[[= <- <-]|[]]].
    + apply Hv. exact H.
    + split; [exact Hk | eauto].
Qed.

Lemma inner_loop_scanning cl : forall ps res,
  (forall kp, In kp ps -> In (fst kp) (map fst patterns)) ->
  scanning res -> scanning (fold_left (try_metric cl) ps res).
Proof.
  induction ps as [|kp ps IH]; intros res Hps Hres; simpl; [exact Hres|].
  apply IH; [intros; apply Hps; right; assumption|].
  destruct (try_metric_shape cl res kp) as [->|(M & s & _ & ->)]; [exact Hres|].
  apply scanning_snoc; auto. apply Hps. left. reflexivity.
Qed.

Lemma process_line_scanning res line :
  scanning res -> scanning (process_line res line).
Proof.
  apply inner_loop_scanning. intros kp H. apply in_map. exact H.
Qed.

Lemma scan_lines_scanning lines : scanning (scan_lines lines).
Proof.
  unfold scan_lines.
  assert (H : scanning []) by (split; [constructor | intros ? ? []]).
  revert H. generalize (@nil (string * option text)).
  induction lines as [|l lines IH]; intros d H; [exact H|].
  rewrite fold_left_cons. apply IH. apply process_line_scanning. exact H.
Qed.

(** The closing loop appends the missing keys, in the order of [patterns]. *)
Lemma closing_loop : forall (ps : list (string * regex)) (res : dict),
  NoDup (map fst ps) ->
  fold_left
    (fun (res : dict) (kp : string * regex) =>
                   if dict_mem (fst kp) res then res
                   else dict_set (fst kp) None res) ps res =
  res ++ map (fun k => (k, None))
             (filter (fun k => negb (dict_mem k res)) (map fst ps)).
Proof.
  induction ps as [|[k0 p0] ps IH]; intros res ND; simpl.
  - rewrite app_nil_r. reflexivity.
  - inversion ND as [|? ? Hn ND']; subst. rewrite IH by exact ND'.
    destruct (dict_mem k0 res) eqn:M; simpl; [reflexivity|].
    rewrite dict_set_absent by exact M. rewrite <- app_assoc. simpl.
    do 2 f_equal. f_equal. apply filter_ext_in. intros k Hk. f_equal.
    unfold dict_mem. rewrite existsb_app. simpl.
    destruct (String.eqb_spec k0 k); [subst; contradiction|].
    rewrite !orb_false_r. reflexivity.
Qed.

Lemma set_missing_eq res :
  set_missing res =
  res ++ map (fun k => (k, None))
             (filter (fun k => negb (dict_mem k res)) (map fst patterns)).
Proof. apply closing_loop. exact patterns_nodup. Qed.

End Loop.
Import Loop.

(* ------------------------------------------------------------------ *)
(** ** The values the two value patterns produce *)

Module Values.

Lemma Forall_forallb (p : ascii -> bool) s :
  Forall (fun x => p x = true) s <-> forallb p s = true.
Proof. rewrite forallb_forall, Forall_forall. reflexivity. Qed.

Lemma take_drop_app p u rest :
  Forall (fun x => p x = true) u ->
  match rest with [] => True | x :: _ => p x = false end ->
  take_while p (u ++ rest) = u /\ drop_while p (u ++ rest) = rest.
Proof.
  intros Hu Hr. induction Hu as [|x u Px _ IH]; simpl.
  - destruct rest as [|y t]; simpl; [auto|]. rewrite Hr. auto.
  - rewrite Px. destruct IH as [-> ->]. auto.
Qed.

Lemma take_drop_all p u :
  Forall (fun x => p x = true) u ->
  take_while p u = u /\ drop_while p u = [].
Proof.
  intros Hu. rewrite <- (app_nil_r u) at 1 3. apply take_drop_app; simpl; auto.
Qed.

Lemma take_drop p s : take_while p s ++ drop_while p s = s.
Proof.
  induction s as [|x t IH]; simpl; [reflexivity|].
  destruct (p x); simpl; [rewrite IH|]; reflexivity.
Qed.

Lemma take_while_all p s : Forall (fun x => p x = true) (take_while p s).
Proof.
  induction s as [|x t IH]; simpl; [constructor|].
  destruct (p x) eqn:E; constructor; assumption.
Qed.

Lemma drop_while_head p s :
  match drop_while p s with [] => True | x :: _ => p x = false end.
Proof.
  induction s as [|x t IH]; simpl; [exact I|].
  destruct (p x) eqn:E; [exact IH | exact E].
Qed.

Lemma digit_not_sep x : is_digit x = true -> one_of dot_or_comma x = false.
Proof.
  destruct x as [[] [] [] [] [] [] [] []]; vm_compute; congruence.
Qed.

Lemma digit_not_slash x : is_digit x = true -> is_char "/" x = false.
Proof.
  destruct x as [[] [] [] [] [] [] [] []]; vm_compute; congruence.
Qed.

Lemma sep_not_digit x : one_of dot_or_comma x = true -> is_digit x = false.
Proof.
  destruct x as [[] [] [] [] [] [] [] []]; vm_compute; congruence.
Qed.

Lemma slash_not_digit x : is_char "/" x = true -> is_digit x = false.
Proof.
  destruct x as [[] [] [] [] [] [] [] []]; vm_compute; congruence.
Qed.

Lemma digit_is_word x : is_digit x = true -> is_word x = true.
Proof.
  destruct x as [[] [] [] [] [] [] [] []]; vm_compute; congruence.
Qed.

Lemma sep_not_word x : one_of dot_or_comma x = true -> is_word x = false.
Proof.
  destruct x as [[] [] [] [] [] [] [] []]; vm_compute; congruence.
Qed.

(** [lang num_body] is the open decimal shape with both separators. *)
Lemma num_body_lang w :
  lang num_body w <->
  exists a s b, w = a ++ s ++ b /\
    Forall (fun x => is_digit x = true) a /\ 1 <= length a /\
    Forall (fun x => one_of dot_or_comma x = true) s /\ length s <= 1 /\
    Forall (fun x => is_digit x = true) b.
Proof.
  unfold num_body. simpl. split.
  - intros (a & v & -> & (Ha & La & _) & s & b & -> & (Hs & _ & Ls) & Hb & _ & _).
    exists a, s, b. repeat split; auto.
  - intros (a & s & b & -> & Ha & La & Hs & Ls & Hb).
    exists a, (s ++ b). split; [reflexivity|]. split; [auto|].
    exists s, b. repeat split; auto; lia.
Qed.

Lemma num_body_shape w : lang num_body w <-> is_decimal_open dot_or_comma w = true.
Proof.
  rewrite num_body_lang. unfold is_decimal_open. split.
  - intros (a & s & b & -> & Ha & La & Hs & Ls & Hb).
    destruct s as [|x [|y s]]; simpl in Ls; try lia.
    + cbn [app]. assert (Hab : Forall (fun x => is_digit x = true) (a ++ b))
        by (apply Forall_app; auto).
      destruct (take_drop_all _ _ Hab) as [-> ->].
      rewrite length_app. apply andb_true_intro. split; [|reflexivity].
      apply Nat.leb_le. lia.
    + inversion Hs as [|? ? Px _]; subst.
      destruct (take_drop_app is_digit a ([x] ++ b) Ha) as [-> ->].
      { cbn [app]. apply sep_not_digit. exact Px. }
      cbn [app]. rewrite Px. cbn [andb].
      apply andb_true_intro. split; [apply Nat.leb_le; lia|].
      apply Forall_forallb. exact Hb.
  - intros H. apply andb_prop in H. destruct H as [La H].
    apply Nat.leb_le in La.
    pose proof (take_drop is_digit w) as E.
    pose proof (take_while_all is_digit w) as Ha.
    destruct (drop_while is_digit w) as [|x b] eqn:D.
    + exists (take_while is_digit w), [], []. rewrite <- E at 1.
      repeat split; auto.
    + apply andb_prop in H. destruct H as [Px Hb].
      exists (take_while is_digit w), [x], b. rewrite <- E at 1.
      repeat split; auto. apply Forall_forallb. exact Hb.
Qed.

Lemma replace_comma_digits a :
  Forall (fun x => is_digit x = true) a -> replace_comma a = a.
Proof.
  unfold replace_comma. induction 1 as [|x a Px _ IH]; simpl; [reflexivity|].
  rewrite IH. f_equal. destruct (Ascii.eqb_spec x ","); [|reflexivity].
  subst x. discriminate.
Qed.

(** After [replace(',', '.')] the only separator left is the period. *)
Lemma replace_comma_shape w :
  is_decimal_open dot_or_comma w = true ->
  is_decimal_open dot (replace_comma w) = true.
Proof.
  intros H. apply num_body_shape, num_body_lang in H.
  destruct H as (a & s & b & -> & Ha & La & Hs & Ls & Hb).
  unfold replace_comma. rewrite !map_app.
  fold (replace_comma a). fold (replace_comma b).
  rewrite (replace_comma_digits _ Ha), (replace_comma_digits _ Hb).
  unfold is_decimal_open.
  destruct s as [|x [|y s]]; simpl in Ls; try lia.
  - cbn [app map]. assert (Hab : Forall (fun x => is_digit x = true) (a ++ b))
      by (apply Forall_app; auto).
    destruct (take_drop_all _ _ Hab) as [-> ->].
    rewrite length_app. apply andb_true_intro. split; [|reflexivity].
    apply Nat.leb_le. lia.
  - inversion Hs as [|? ? Px _]; subst.
    assert (Ex : (if Ascii.eqb x "," then "."%char else x) = "."%char).
    { destruct x as [[] [] [] [] [] [] [] []]; vm_compute in Px;
        try discriminate; reflexivity. }
    cbn [app map]. rewrite Ex.
    destruct (take_drop_app is_digit a ("."%char :: b) Ha) as [-> ->];
      [reflexivity|].
    apply andb_true_intro. split; [apply Nat.leb_le; lia|].
    apply andb_true_intro. split; [reflexivity|].
    apply Forall_forallb. exact Hb.
Qed.

Lemma bp_pat_lang w :
  lang bp_pat w <->
  exists a b, w = a ++ "/"%char :: b /\
    Forall (fun x => is_digit x = true) a /\ 2 <= length a <= 3 /\
    Forall (fun x => is_digit x = true) b /\ 2 <= length b <= 3.
Proof.
  unfold bp_pat. simpl. split.
  - intros (a & v & -> & (Ha & La & La') & s & b & -> & (x & -> & Px) & Hb & Lb & Lb').
    exists a, b. apply Ascii.eqb_eq in Px. subst x. repeat split; auto.
  - intros (a & b & -> & Ha & [La La'] & Hb & [Lb Lb']).
    exists a, ("/"%char :: b). split; [reflexivity|]. split; [auto|].
    exists ["/"%char], b. repeat split; auto. exists "/"%char. auto.
Qed.

Lemma bp_pat_shape w : lang bp_pat w <-> is_ratio w = true.
Proof.
  rewrite bp_pat_lang. unfold is_ratio. split.
  - intros (a & b & -> & Ha & [La La'] & Hb & [Lb Lb']).
    destruct (take_drop_app is_digit a ("/"%char :: b) Ha) as [-> ->];
      [reflexivity|].
    apply Forall_forallb in Hb. rewrite Hb.
    repeat (apply andb_true_intro; split);
      try reflexivity; apply Nat.leb_le; lia.
  - intros H.
    pose proof (take_drop is_digit w) as E.
    pose proof (take_while_all is_digit w) as Ha.
    destruct (drop_while is_digit w) as [|x b] eqn:D; [discriminate|].
    repeat (apply andb_prop in H; destruct H as [H ?]).
    apply Ascii.eqb_eq in H. subst x.
    exists (take_while is_digit w), b. rewrite <- E at 1.
    repeat split; try (apply Nat.leb_le; assumption); auto.
    apply Forall_forallb. assumption.
Qed.

End Values.
Import Values.

(* ------------------------------------------------------------------ *)
(** ** The value found in one line *)

Module LineValue.

Lemma lang_bounded r w : lang (Seq WordB (Seq r WordB)) w <-> lang r w.
Proof.
  simpl. split.
  - intros (u & v & -> & -> & u' & v' & -> & L & ->).
    simpl. rewrite app_nil_r. exact L.
  - intros L. exists [], w. repeat split.
    exists w, []. rewrite app_nil_r. auto.
Qed.

Lemma search_lang r s pos i j :
  pos <= length s -> search r s pos = Some (i, j) ->
  pos <= i /\ i <= j /\ j <= length s /\ lang r (slice s i j).
Proof.
  intros Hp H. apply search_some in H; [|exact Hp].
  destruct H as (H1 & H2 & H3 & M & _). repeat split; auto.
  apply match_at_in, ends_sound in M. destruct M as (w & Sw & L).
  apply span_slice in Sw; [|lia]. destruct Sw as (-> & _ & _).
  rewrite cursor_at_offset, Nat.min_l in L by exact H3. exact L.
Qed.

(** [line_value] unfolded: the label match, then the value match from the
    end of the label. *)
Lemma line_value_some k p cl v :
  line_value k p cl = Some v ->
  exists b e, search p cl 0 = Some (b, e) /\ e <= length cl /\
    exists i j, e <= i /\ i <= j /\ j <= length cl /\
      if is_bp k
      then search bp_pat cl e = Some (i, j) /\ v = slice cl i j
      else search num_pat cl e = Some (i, j) /\ v = replace_comma (slice cl i j).
Proof.
  unfold line_value, is_bp. destruct (search p cl 0) as [[b e]|] eqn:S; [|discriminate].
  intros H. exists b, e. split; [reflexivity|].
  apply search_some in S; [|lia]. destruct S as (_ & _ & He & _).
  split; [exact He|].
  destruct (String.eqb k "Blood Pressure").
  - destruct (search bp_pat cl e) as [[i j]|] eqn:S2; [|discriminate].
    injection H as <-. exists i, j.
    apply search_some in S2; [|exact He]. destruct S2 as (? & ? & ? & _). auto.
  - destruct (search num_pat cl e) as [[i j]|] eqn:S2; [|discriminate].
    injection H as <-. exists i, j.
    apply search_some in S2; [|exact He]. destruct S2 as (? & ? & ? & _). auto.
Qed.

(** The value has the shape of the pattern that found it. *)
Lemma line_value_shape k p cl v :
  line_value k p cl = Some v ->
  if is_bp k then is_ratio v = true else is_decimal_open dot v = true.
Proof.
  intros H. apply line_value_some in H.
  destruct H as (b & e & _ & He & i & j & _ & _ & _ & H).
  destruct (is_bp k); destruct H as [S ->];
    apply search_lang in S; try exact He; destruct S as (_ & _ & _ & L).
  - apply bp_pat_shape. exact L.
  - apply replace_comma_shape, num_body_shape.
    apply (lang_bounded num_body). exact L.
Qed.

Lemma is_ratio_nonempty v : is_ratio v = true -> v <> [].
Proof. intros H ->. discriminate. Qed.

Lemma is_decimal_open_nonempty seps v : is_decimal_open seps v = true -> v <> [].
Proof. intros H ->. discriminate. Qed.

Lemma line_value_nonempty k p cl v : line_value k p cl = Some v -> v <> [].
Proof.
  intros H. apply line_value_shape in H. destruct (is_bp k).
  - apply is_ratio_nonempty. exact H.
  - eapply is_decimal_open_nonempty. exact H.
Qed.

Lemma first_value_some k p lines v :
  first_value k p lines = Some v ->
  exists pre l post, lines = pre ++ l :: post /\
    first_value k p pre = None /\ line_value k p (clean l) = Some v.
Proof.
  induction lines as [|l lines IH]; [discriminate|].
  rewrite first_value_cons. destruct (line_value k p (clean l)) eqn:E.
  - intros [= ->]. exists [], l, lines. auto.
  - intros H. apply IH in H. destruct H as (pre & l' & post & -> & Hp & Hv).
    exists (l :: pre), l', post. rewrite first_value_cons, E. auto.
Qed.

Lemma first_value_app k p pre post :
  first_value k p (pre ++ post) =
  match first_value k p pre with
  | Some v => Some v
  | None => first_value k p post
  end.
Proof.
  induction pre as [|l pre IH]; [reflexivity|].
  rewrite <- app_comm_cons, !first_value_cons.
  destruct (line_value k p (clean l)); [reflexivity | exact IH].
Qed.

End LineValue.
Import LineValue.

(* ------------------------------------------------------------------ *)
(** ** The result mapping *)

Local Opaque patterns registry.

Lemma keys_absent (l : list string) :
  keys (map (fun k => (k, @None text)) l) = l.
Proof.
  unfold keys. rewrite map_map. simpl. apply map_id.
Qed.

Lemma dict_get_app k d d' :
  dict_get k (d ++ d') =
  match dict_get k d with Some v => Some v | None => dict_get k d' end.
Proof.
  unfold dict_get. induction d as [|kv d IH]; simpl; [reflexivity|].
  destruct (String.eqb (fst kv) k); [reflexivity | exact IH].
Qed.

Lemma dict_get_absent k (l : list string) :
  dict_get k (map (fun k' => (k', @None text)) l) =
  if existsb (String.eqb k) l then Some None else None.
Proof.
  unfold dict_get. induction l as [|k' l IH]; simpl; [reflexivity|].
  rewrite (String.eqb_sym k k'). destruct (String.eqb k' k); [reflexivity | exact IH].
Qed.

Lemma existsb_eqb_in k (l : list string) :
  existsb (String.eqb k) l = true <-> In k l.
Proof.
  rewrite existsb_exists. split.
  - intros (x & Hx & E). apply String.eqb_eq in E. subst. exact Hx.
  - intros H. exists k. split; [exact H | apply String.eqb_refl].
Qed.

Lemma existsb_filter_absent k (d : dict) (l : list string) :
  dict_mem k d = false ->
  existsb (String.eqb k) (filter (fun k' => negb (dict_mem k' d)) l) =
  existsb (String.eqb k) l.
Proof.
  intros M. induction l as [|k' l IH]; simpl; [reflexivity|].
  destruct (String.eqb_spec k k') as [<-|N].
  - rewrite M. simpl. rewrite String.eqb_refl. reflexivity.
  - destruct (dict_mem k' d); simpl; [exact IH|].
    destruct (String.eqb_spec k k'); [contradiction | exact IH].
Qed.

(** The result: the entries set while scanning, then the missing keys. *)
Lemma extract_eq t :
  extract_health_values t =
  scan_lines (splitlines t) ++
  map (fun k => (k, None))
      (filter (fun k => negb (dict_mem k (scan_lines (splitlines t)))) registry).
Proof.
  unfold extract_health_values. rewrite set_missing_eq, patterns_keys.
  reflexivity.
Qed.

Lemma scanned_keys lines k :
  In k (keys (scan_lines lines)) -> In k registry.
Proof.
  intros H. destruct (scan_lines_scanning lines) as [_ Hv].
  unfold keys in H. apply in_map_iff in H. destruct H as ([k' v] & <- & H).
  apply Hv in H. destruct H as [H _]. rewrite patterns_keys in H. exact H.
Qed.

Lemma extract_get t k :
  dict_get k (extract_health_values t) =
  match dict_get k (scan_lines (splitlines t)) with
  | Some v => Some v
  | None => if existsb (String.eqb k) registry then Some None else None
  end.
Proof.
  rewrite extract_eq, dict_get_app.
  destruct (dict_get k (scan_lines (splitlines t))) eqn:G; [reflexivity|].
  rewrite dict_get_absent, existsb_filter_absent; [reflexivity|].
  rewrite dict_mem_get, G. reflexivity.
Qed.

Lemma scanned_value lines k v :
  dict_get k (scan_lines lines) = Some v ->
  exists p s, pattern_for k patterns = Some p /\ v = Some s /\
              first_value k p lines = Some s.
Proof.
  rewrite scan_lines_get. destruct (pattern_for k patterns) as [p|]; [|discriminate].
  destruct (first_value k p lines) as [s|] eqn:F; [|discriminate].
  intros [= <-]. exists p, s. auto.
Qed.

Lemma extract_keys_nodup t : NoDup (keys (extract_health_values t)).
Proof.
  rewrite extract_eq, keys_app. destruct (scan_lines_scanning (splitlines t)) as [ND _].
  rewrite keys_absent.
  apply NoDup_app; [exact ND | apply NoDup_filter, registry_nodup |].
  intros k H1 H2. apply filter_In in H2. destruct H2 as [_ H2].
  apply dict_mem_in in H1. rewrite H1 in H2. discriminate.
Qed.

Lemma extract_keys_in t k : In k (keys (extract_health_values t)) <-> In k registry.
Proof.
  rewrite extract_eq, keys_app, keys_absent, in_app_iff, filter_In. split.
  - intros [H|[H _]]; [eapply scanned_keys; exact H | exact H].
  - intros H. destruct (dict_mem k (scan_lines (splitlines t))) eqn:M.
    + left. apply dict_mem_in. exact M.
    + right. auto.
Qed.

Lemma extract_keys_perm t : Permutation (keys (extract_health_values t)) registry.
Proof.
  apply NoDup_Permutation.
  - apply extract_keys_nodup.
  - exact registry_nodup.
  - intros k. apply extract_keys_in.
Qed.

Lemma registry_length : length registry = 12.
Proof. vm_compute. reflexivity. Qed.

Lemma extract_length t : length (extract_health_values t) = 12.
Proof.
  rewrite <- registry_length, <- (Permutation_length (extract_keys_perm t)).
  unfold keys. rewrite length_map. reflexivity.
Qed.

(** C1: for every input string, the empty one included, the result of
    [extract_health_values] has exactly one entry for each of the twelve
    metrics of the registry and no other entry; a metric that got no value
    while the lines were scanned is mapped to [None], and no entry holds
    the empty string. *)
Theorem C1_one_entry_per_registry_metric (t : text) :
  let d := extract_health_values t in
  let scanned := scan_lines (splitlines t) in
  Permutation (keys d) registry /\ NoDup (keys d) /\ length d = 12 /\
  (forall k, dict_get k d =
     match dict_get k scanned with
     | Some v => Some v
     | None => if existsb (String.eqb k) registry then Some None else None
     end) /\
  (forall k, dict_get k scanned <> Some None) /\
  (forall k, dict_get k d <> Some (Some [])) /\
  extract_health_values [] = map (fun k => (k, None)) registry.
Proof.
  intros d scanned.
  assert (P : Permutation (keys d) registry) by apply extract_keys_perm.
  assert (NS : forall k, dict_get k scanned <> Some None).
  { intros k G. apply scanned_value in G. destruct G as (p & s & _ & E & _).
    discriminate. }
  split; [exact P|]. split; [apply extract_keys_nodup|].
  split; [|split; [|split; [|split]]].
  - apply extract_length.
  - intros k. apply extract_get.
  - exact NS.
  - intros k G. unfold d in G. rewrite extract_get in G.
    fold scanned in G. destruct (dict_get k scanned) as [v|] eqn:E.
    + injection G as ->. unfold scanned in E. apply scanned_value in E.
      destruct E as (p & s & _ & [= <-] & F).
      apply first_value_some in F. destruct F as (_ & l & _ & _ & _ & F).
      apply line_value_nonempty in F. apply F. reflexivity.
    + destruct (existsb (String.eqb k) registry); discriminate.
  - vm_compute. reflexivity.
Qed.

Lemma set_missing_get res k :
  dict_get k (set_missing res) =
  match dict_get k res with
  | Some v => Some v
  | None => if existsb (String.eqb k) registry then Some None else None
  end.
Proof.
  rewrite set_missing_eq, patterns_keys, dict_get_app.
  destruct (dict_get k res) eqn:G; [reflexivity|].
  rewrite dict_get_absent, existsb_filter_absent; [reflexivity|].
  rewrite dict_mem_get, G. reflexivity.
Qed.

Lemma scan_lines_unresolved lines k p :
  pattern_for k patterns = Some p ->
  dict_get k (scan_lines lines) = None -> first_value k p lines = None.
Proof.
  intros P. rewrite scan_lines_get, P.
  destruct (first_value k p lines); [discriminate | reflexivity].
Qed.

(** Once a line has given a value to a metric, no later line changes it. *)
Lemma resolved_is_kept lines more k v :
  dict_get k (scan_lines lines) = Some v ->
  dict_get k (scan_lines (lines ++ more)) = Some v.
Proof.
  rewrite !scan_lines_get. destruct (pattern_for k patterns) as [p|]; [|discriminate].
  rewrite first_value_app. destruct (first_value k p lines); [auto | discriminate].
Qed.

Lemma pattern_for_some k ps :
  In k (map fst ps) -> pattern_for k ps <> None.
Proof.
  unfold pattern_for. induction ps as [|[k' p'] ps IH]; simpl; [contradiction|].
  destruct (String.eqb_spec k' k); [discriminate|].
  intros [?|H]; [contradiction | exact (IH H)].
Qed.

Lemma pattern_for_registry k :
  In k registry -> pattern_for k patterns = Some (pattern_of k).
Proof.
  intros H. rewrite <- patterns_keys in H. apply pattern_for_some in H.
  unfold pattern_of. destruct (pattern_for k patterns); [reflexivity | contradiction].
Qed.

Lemma pattern_of_in k : In k registry -> In (k, pattern_of k) patterns.
Proof.
  intros H. apply pattern_for_registry in H. unfold pattern_for in H.
  destruct (find _ patterns) as [[k' p]|] eqn:F; [|discriminate].
  apply find_some in F. destruct F as [F E]. simpl in E, H.
  apply String.eqb_eq in E. subst k'. injection H as <-. exact F.
Qed.

(** C2: first match wins.  When the lines before line [l] leave the metric
    [k] unresolved and [l] gives it the value [v], the metric holds [v]
    after [l] and after every later line, whatever those lines contain; the
    result of [extract_health_values] holds [v] for [k], which is what the
    two loops give on the line [l] alone. *)
Theorem C2_first_match_wins (t : text) (pre : list text) (l : text)
    (post : list text) (k : string) (v : text) :
  In k registry ->
  splitlines t = pre ++ l :: post ->
  dict_get k (scan_lines pre) = None ->
  line_value k (pattern_of k) (clean l) = Some v ->
  (forall n, dict_get k (scan_lines (pre ++ l :: firstn n post)) = Some (Some v)) /\
  dict_get k (extract_health_values t) = Some (Some v) /\
  dict_get k (extract_health_values t) = dict_get k (set_missing (scan_lines [l])).
Proof.
  intros Hk Ht Hpre Hl. pose proof (pattern_for_registry _ Hk) as P.
  assert (F : forall post', dict_get k (scan_lines (pre ++ l :: post')) = Some (Some v)).
  { intros post'. rewrite scan_lines_get, P, first_value_app.
    rewrite (scan_lines_unresolved _ _ _ P Hpre), first_value_cons, Hl.
    reflexivity. }
  split; [intros n; apply F|].
  assert (E : dict_get k (extract_health_values t) = Some (Some v)).
  { unfold extract_health_values. rewrite set_missing_get, Ht, F. reflexivity. }
  split; [exact E|]. rewrite E, set_missing_get, scan_lines_get, P.
  rewrite first_value_cons, Hl. reflexivity.
Qed.

Lemma C2_first_match_wins_witness :
  dict_get "HbA1c" (extract_health_values (lines_of ["HbA1c 5.8%"; "HbA1c 6,9"]%string))
  = Some (Some (str "5.8")).
Proof.
  refine (proj1 (proj2 (C2_first_match_wins
           (lines_of ["HbA1c 5.8%"; "HbA1c 6,9"]%string)
           [] (str "HbA1c 5.8%") [str "HbA1c 6,9"]
           "HbA1c" (str "5.8") _ _ _ _)));
    vm_compute; auto 10.
Defined.

(** C5: a line on which the label of [k] matches but no value follows it
    leaves [k] unresolved, and the next line is tried for [k] as if the
    first had not been there; the two lines ["Albumin: normal"] and
    ["Albumin 4.1 g/dL"] give Albumin = ["4.1"]. *)
Theorem C5_label_without_value_is_retried :
  (forall (res : dict) (l next : text) (k : string),
     In k registry ->
     dict_mem k res = false ->
     search (pattern_of k) (clean l) 0 <> None ->
     line_value k (pattern_of k) (clean l) = None ->
     dict_mem k (process_line res l) = false /\
     dict_get k (process_line (process_line res l) next) =
       dict_get k (process_line res next)) /\
  (forall (pre post : list text) (l : text) (k : string),
     In k registry ->
     search (pattern_of k) (clean l) 0 <> None ->
     line_value k (pattern_of k) (clean l) = None ->
     dict_get k (scan_lines (pre ++ l :: post)) =
       dict_get k (scan_lines (pre ++ post))) /\
  dict_get "Albumin"
    (extract_health_values (lines_of ["Albumin: normal"; "Albumin 4.1 g/dL"]%string))
  = Some (Some (str "4.1")).
Proof.
  split; [|split].
  - intros res l next k Hk M _ V. pose proof (pattern_for_registry _ Hk) as P.
    assert (G : dict_get k res = None).
    { rewrite dict_mem_get in M. destruct (dict_get k res); [discriminate | reflexivity]. }
    assert (G' : dict_get k (process_line res l) = None).
    { rewrite process_line_get, G, P, V. reflexivity. }
    split.
    + rewrite dict_mem_get, G'. reflexivity.
    + rewrite (process_line_get (process_line res l)), G'.
      rewrite (process_line_get res), G. reflexivity.
  - intros pre post l k Hk _ V. pose proof (pattern_for_registry _ Hk) as P.
    rewrite !scan_lines_get, P.
    rewrite !first_value_app, first_value_cons, V. reflexivity.
  - vm_compute. reflexivity.
Qed.

Lemma C5_label_without_value_is_retried_witness :
  dict_get "Albumin" (scan_lines [str "Albumin: normal"; str "Albumin 4.1 g/dL"])
  = dict_get "Albumin" (scan_lines [str "Albumin 4.1 g/dL"]).
Proof.
  refine (proj1 (proj2 C5_label_without_value_is_retried)
           [] [str "Albumin 4.1 g/dL"] (str "Albumin: normal")
           "Albumin"%string _ _ _).
  - vm_compute. auto 10.
  - vm_compute. discriminate.
  - vm_compute. reflexivity.
Defined.

(* ------------------------------------------------------------------ *)
(** ** The order of the entries *)

Lemma nodup_keys_nodup (d : dict) : NoDup (keys d) -> NoDup d.
Proof. apply NoDup_map_inv. Qed.

Lemma in_registry_order_keys t : keys (spec_registry_order t) = registry.
Proof.
  unfold spec_registry_order, keys. rewrite map_map. simpl. apply map_id.
Qed.

Lemma in_registry_order_in t k v :
  In (k, v) (spec_registry_order t) <-> In k registry /\ v = final_value t k.
Proof.
  unfold spec_registry_order. rewrite in_map_iff. split.
  - intros (k' & [= <- <-] & H). auto.
  - intros [H ->]. exists k. auto.
Qed.

Lemma extract_in t k v :
  In (k, v) (extract_health_values t) <-> In k registry /\ v = final_value t k.
Proof.
  split.
  - intros H. assert (Hk : In k registry).
    { apply (proj1 (extract_keys_in t k)). apply (in_map fst) in H. exact H. }
    split; [exact Hk|].
    apply in_dict_get in H; [|apply extract_keys_nodup].
    rewrite extract_get in H. unfold final_value.
    destruct (dict_get k (scan_lines (splitlines t))); [congruence|].
    apply existsb_eqb_in in Hk. rewrite Hk in H. congruence.
  - intros [Hk ->]. apply dict_get_in. rewrite extract_get. unfold final_value.
    destruct (dict_get k (scan_lines (splitlines t))); [reflexivity|].
    apply existsb_eqb_in in Hk. rewrite Hk. reflexivity.
Qed.

Lemma dict_mem_snoc k k0 v (d : dict) :
  k0 <> k -> dict_mem k (d ++ [(k0, v)]) = dict_mem k d.
Proof.
  intros N. unfold dict_mem. rewrite existsb_app. cbn [existsb fst].
  destruct (String.eqb_spec k0 k); [contradiction|].
  rewrite !orb_false_r. reflexivity.
Qed.

(** The keys one turn of the outer loop adds: those not yet there for
    which the line gives a value, in the order of the dictionary of
    patterns. *)
Lemma inner_loop_keys cl : forall (ps : list (string * regex)) (res : dict),
  NoDup (map fst ps) ->
  keys (fold_left (try_metric cl) ps res) =
  keys res ++
  filter (fun k => negb (dict_mem k res) &&
                   match pattern_for k ps with
                   | Some p =>
                       match line_value k p cl with
                       | Some _ => true
                       | None => false
                       end
                   | None => false
                   end) (map fst ps).
Proof.
  induction ps as [|[k0 p0] ps IH]; intros res ND.
  - cbn [fold_left map filter]. rewrite app_nil_r. reflexivity.
  - inversion ND as [|? ? Hn ND']; subst. rewrite fold_left_cons.
    rewrite IH by exact ND'. cbn [map filter fst].
    assert (P0 : pattern_for k0 ((k0, p0) :: ps) = Some p0).
    { unfold pattern_for. cbn [find fst]. rewrite String.eqb_refl.
      reflexivity. }
    assert (Pt : forall k, In k (map fst ps) ->
                 pattern_for k ((k0, p0) :: ps) = pattern_for k ps).
    { intros k Hk. unfold pattern_for. cbn [find fst].
      destruct (String.eqb_spec k0 k); [subst; contradiction|reflexivity]. }
    rewrite P0. unfold try_metric. cbn [fst snd].
    destruct (dict_mem k0 res) eqn:M; cbn [negb andb].
    + f_equal. apply filter_ext_in. intros k Hk. rewrite (Pt k Hk).
      reflexivity.
    + destruct (line_value k0 p0 cl) as [v|].
      * rewrite dict_set_absent by exact M. rewrite keys_app.
        cbn [keys map fst]. rewrite <- app_assoc. cbn [app].
        do 2 f_equal. apply filter_ext_in. intros k Hk. rewrite (Pt k Hk).
        rewrite dict_mem_snoc; [reflexivity|].
        intros ->. contradiction.
      * f_equal. apply filter_ext_in. intros k Hk. rewrite (Pt k Hk).
        reflexivity.
Qed.

Lemma process_line_keys res line :
  keys (process_line res line) =
  keys res ++
  filter (fun k => negb (dict_mem k res) && gives k (clean line)) registry.
Proof.
  unfold process_line. rewrite inner_loop_keys by exact patterns_nodup.
  rewrite patterns_keys. apply (f_equal (app (keys res))).
  apply filter_ext_in. intros k Hk.
  rewrite (pattern_for_registry k Hk). reflexivity.
Qed.

Lemma process_line_mem res line k :
  In k registry ->
  dict_mem k (process_line res line) = dict_mem k res || gives k (clean line).
Proof.
  intros Hk. rewrite !dict_mem_get, process_line_get.
  rewrite (pattern_for_registry k Hk). unfold gives.
  destruct (dict_get k res); [reflexivity|].
  destruct (line_value k (pattern_of k) (clean line)); reflexivity.
Qed.

Lemma resolved_by_head l more k :
  resolved_by (l :: more) 0 k = gives k (clean l).
Proof.
  unfold resolved_by, gives. cbn [first_line].
  destruct (line_value k (pattern_of k) (clean l)); [reflexivity|].
  destruct (first_line k more); reflexivity.
Qed.

Lemma resolved_by_tail l more i k :
  resolved_by (l :: more) (S i) k =
  negb (gives k (clean l)) && resolved_by more i k.
Proof.
  unfold resolved_by, gives. cbn [first_line].
  destruct (line_value k (pattern_of k) (clean l)); [reflexivity|].
  destruct (first_line k more); reflexivity.
Qed.

Lemma flat_map_after_map {A B C : Type} (f : B -> list C) (g : A -> B) l :
  flat_map f (map g l) = flat_map (fun x => f (g x)) l.
Proof.
  induction l as [|x l IH]; [reflexivity|].
  cbn [map flat_map]. rewrite IH. reflexivity.
Qed.

(** The keys the scan adds, line after line. *)
Lemma outer_loop_keys : forall lines res,
  keys (fold_left process_line lines res) =
  keys res ++
  flat_map (fun i => filter (fun k => negb (dict_mem k res) &&
                                      resolved_by lines i k) registry)
           (seq 0 (length lines)).
Proof.
  induction lines as [|l more IH]; intros res.
  - cbn [fold_left length seq flat_map]. rewrite app_nil_r. reflexivity.
  - rewrite fold_left_cons, IH, process_line_keys, <- app_assoc.
    cbn [length seq flat_map]. f_equal. f_equal.
    + apply filter_ext. intros k. rewrite resolved_by_head. reflexivity.
    + rewrite <- seq_shift, flat_map_after_map.
      apply flat_map_ext. intros i. apply filter_ext_in. intros k Hk.
      rewrite resolved_by_tail, (process_line_mem res l k Hk), negb_orb.
      rewrite andb_assoc. reflexivity.
Qed.

Lemma scan_lines_keys lines :
  keys (scan_lines lines) =
  flat_map (fun i => filter (resolved_by lines i) registry)
           (seq 0 (length lines)).
Proof.
  unfold scan_lines. rewrite outer_loop_keys. cbn [keys map app].
  apply flat_map_ext. intros i. apply filter_ext. intros k. reflexivity.
Qed.

Lemma first_line_value k lines :
  first_line k lines = None <-> first_value k (pattern_of k) lines = None.
Proof.
  induction lines as [|l more IH]; cbn [first_line first_value]; [tauto|].
  destruct (line_value k (pattern_of k) (clean l)); [split; discriminate|].
  rewrite <- IH. destruct (first_line k more); cbn; split; congruence.
Qed.

Lemma scan_lines_mem lines k :
  In k registry -> dict_mem k (scan_lines lines) = negb (unresolved lines k).
Proof.
  intros Hk. rewrite dict_mem_get, scan_lines_get.
  rewrite (pattern_for_registry k Hk). unfold unresolved.
  pose proof (first_line_value k lines) as E.
  destruct (first_value k (pattern_of k) lines);
    destruct (first_line k lines); try reflexivity.
  - discriminate (proj1 E eq_refl).
  - discriminate (proj2 E eq_refl).
Qed.

Lemma extract_keys_order t :
  keys (extract_health_values t) = insertion_order (splitlines t).
Proof.
  rewrite extract_eq, keys_app, scan_lines_keys. unfold insertion_order.
  f_equal. unfold keys. rewrite map_map. cbn [fst]. rewrite map_id.
  apply filter_ext_in. intros k Hk. rewrite (scan_lines_mem _ k Hk).
  apply negb_involutive.
Qed.

Lemma entries_of_keys t :
  extract_health_values t =
  map (fun k => (k, final_value t k)) (keys (extract_health_values t)).
Proof.
  assert (H : forall kv, In kv (extract_health_values t) ->
                         kv = (fst kv, final_value t (fst kv))).
  { intros [k v] H. apply extract_in in H. destruct H as [_ ->].
    reflexivity. }
  revert H. generalize (extract_health_values t).
  induction d as [|kv d IH]; intros H; [reflexivity|].
  cbn [keys map]. rewrite <- (H kv (or_introl eq_refl)).
  f_equal. apply IH. intros kv' Hk. apply H. right. exact Hk.
Qed.

Lemma filter_all {A : Type} (f : A -> bool) (l : list A) :
  (forall x, In x l -> f x = true) -> filter f l = l.
Proof.
  induction l as [|x l IH]; intros H; [reflexivity|]. cbn [filter].
  rewrite (H x (or_introl eq_refl)). f_equal. apply IH.
  intros y Hy. apply H. right. exact Hy.
Qed.

Lemma filter_none {A : Type} (f : A -> bool) (l : list A) :
  (forall x, In x l -> f x = false) -> filter f l = [].
Proof.
  induction l as [|x l IH]; intros H; [reflexivity|]. cbn [filter].
  rewrite (H x (or_introl eq_refl)). apply IH.
  intros y Hy. apply H. right. exact Hy.
Qed.

Lemma flat_map_nil {A B : Type} (f : A -> list B) (l : list A) :
  (forall x, f x = []) -> flat_map f l = [].
Proof.
  intros H. induction l as [|x l IH]; [reflexivity|].
  cbn [flat_map]. rewrite H, IH. reflexivity.
Qed.

(** C9, as the code has it: the result holds the same twelve entries as
    the emission in registry order, each metric with its resolved string or
    [None], and enumerates them in the insertion order of the dictionary:
    first the resolved metrics in the order in which the scan resolved
    them, which is line after line and, among the metrics that one line
    resolves, the order of the registry; then the unresolved ones in
    registry order.  When no metric is resolved the order is the registry
    order. *)
Theorem C9_entries_in_insertion_order (t : text) :
  let d := extract_health_values t in
  let lines := splitlines t in
  Permutation d (spec_registry_order t) /\
  d = map (fun k => (k, final_value t k))
        (flat_map (fun i => filter (resolved_by lines i) registry)
                  (seq 0 (length lines))
         ++ filter (unresolved lines) registry) /\
  ((forall k, In k registry -> first_line k lines = None) ->
   d = spec_registry_order t).
Proof.
  intros d lines.
  assert (E : d = map (fun k => (k, final_value t k)) (insertion_order lines)).
  { unfold d, lines. rewrite <- extract_keys_order. apply entries_of_keys. }
  split; [|split; [exact E|]].
  - apply NoDup_Permutation.
    + apply nodup_keys_nodup, extract_keys_nodup.
    + apply nodup_keys_nodup. rewrite in_registry_order_keys.
      exact registry_nodup.
    + intros [k v]. unfold d. rewrite extract_in, in_registry_order_in.
      reflexivity.
  - intros H. rewrite E. unfold spec_registry_order, insertion_order.
    f_equal. rewrite flat_map_nil, filter_all; [reflexivity| |].
    + intros k Hk. unfold unresolved. rewrite (H k Hk). reflexivity.
    + intros i. apply filter_none. intros k Hk. unfold resolved_by.
      rewrite (H k Hk). reflexivity.
Qed.

Lemma C9_entries_in_insertion_order_witness :
  keys (extract_health_values (lines_of ["TSH 2.1"; "LDL 130 HDL 40"]%string)) =
  [ "TSH"; "HDL"; "LDL"; "Plasma Glucose"; "HbA1c"; "Triglycerides";
    "Albumin"; "Cholesterol"; "BMI"; "Blood Pressure"; "LDH"; "CK" ]%string.
Proof.
  pose proof (C9_entries_in_insertion_order
                (lines_of ["TSH 2.1"; "LDL 130 HDL 40"]%string)) as H.
  cbv zeta in H. destruct H as (_ & H & _). rewrite H.
  vm_compute. reflexivity.
Defined.

(** C9 as stated fails: on the two lines ["LDL 130"] and ["HDL 40"] the
    result enumerates LDL, then HDL, then the ten unresolved metrics, which
    is not the registry order. *)
Lemma C9_registry_order_counterexample :
  keys (extract_health_values (lines_of ["LDL 130"; "HDL 40"]%string)) =
    [ "LDL"; "HDL"; "Plasma Glucose"; "HbA1c"; "Triglycerides"; "Albumin";
      "Cholesterol"; "BMI"; "Blood Pressure"; "TSH"; "LDH"; "CK" ]%string /\
  extract_health_values (lines_of ["LDL 130"; "HDL 40"]%string) <>
    spec_registry_order (lines_of ["LDL 130"; "HDL 40"]%string).
Proof.
  split; [vm_compute; reflexivity|]. vm_compute. discriminate.
Qed.

(* ------------------------------------------------------------------ *)
(** ** Large inputs *)

Section TraceFacts.

Variable print : text -> outcome unit.

(** The call with its trace and the mapping computed without it: the
    same result, or an exception that a [print] call raised. *)
Definition agrees (m : outcome dict) (d : dict) : Prop :=
  match m with
  | Returned r => r = d
  | Raised e => exists s, print s = Raised e
  end.

Lemma and_then_agrees (s : text) (m : outcome dict) d :
  agrees m d -> agrees (and_then (print s) m) d.
Proof.
  intros H. unfold and_then. destruct (print s) as [u|e] eqn:P; [exact H|].
  exists s. exact P.
Qed.

Lemma try_metric_call_agrees i cl res kp :
  agrees (try_metric_call print i cl res kp) (try_metric cl res kp).
Proof.
  unfold try_metric_call, try_metric, line_value. cbv zeta.
  destruct (dict_mem (fst kp) res); [reflexivity|].
  destruct (search (snd kp) cl 0) as [[b e]|]; [|reflexivity].
  apply and_then_agrees.
  destruct (String.eqb (fst kp) "Blood Pressure").
  - destruct (search bp_pat cl e) as [[i' j']|]; [|reflexivity].
    apply and_then_agrees. reflexivity.
  - destruct (search num_pat cl e) as [[i' j']|]; [|reflexivity].
    apply and_then_agrees. reflexivity.
Qed.

Lemma inner_loop_call_agrees i cl : forall ps res,
  agrees (inner_loop_call print i cl ps res) (fold_left (try_metric cl) ps res).
Proof.
  induction ps as [|kp ps IH]; intros res; [reflexivity|].
  cbn [inner_loop_call]. rewrite fold_left_cons.
  pose proof (try_metric_call_agrees i cl res kp) as H.
  destruct (try_metric_call print i cl res kp) as [r|e]; [|exact H].
  cbn [agrees] in H. subst r. apply IH.
Qed.

Lemma process_line_call_agrees i res line :
  agrees (process_line_call print i res line) (process_line res line).
Proof.
  unfold process_line_call, process_line. apply and_then_agrees.
  apply inner_loop_call_agrees.
Qed.

Lemma scan_lines_call_agrees : forall lines i res,
  agrees (scan_lines_call print i lines res) (fold_left process_line lines res).
Proof.
  induction lines as [|l lines IH]; intros i res; [reflexivity|].
  cbn [scan_lines_call]. rewrite fold_left_cons.
  pose proof (process_line_call_agrees i res l) as H.
  destruct (process_line_call print i res l) as [r|e]; [|exact H].
  cbn [agrees] in H. subst r. apply IH.
Qed.

Lemma call_agrees t :
  agrees (extract_health_values_call print t) (extract_health_values t).
Proof.
  unfold extract_health_values_call, extract_health_values, scan_lines.
  pose proof (scan_lines_call_agrees (splitlines t) 0 []) as H.
  destruct (scan_lines_call print 0 (splitlines t) []) as [r|e]; [|exact H].
  cbn [agrees] in H |- *. subst r. reflexivity.
Qed.

Lemma call_returns t :
  (forall s, exists u, print s = Returned u) ->
  extract_health_values_call print t = Returned (extract_health_values t).
Proof.
  intros H. pose proof (call_agrees t) as A.
  destruct (extract_health_values_call print t) as [r|e].
  - cbn [agrees] in A. subst r. reflexivity.
  - destruct A as (s & P). destruct (H s) as (u & Q). congruence.
Qed.

Lemma call_raises t line more e :
  splitlines t = line :: more ->
  print (line_message 0 line) = Raised e ->
  extract_health_values_call print t = Raised e.
Proof.
  intros S P. unfold extract_health_values_call. rewrite S.
  cbn [scan_lines_call]. unfold process_line_call, and_then. rewrite P.
  reflexivity.
Qed.

End TraceFacts.



Lemma inner_loop_no_value cl : forall (ps : list (string * regex)) res,
  (forall kp, In kp ps -> line_value (fst kp) (snd kp) cl = None) ->
  fold_left (try_metric cl) ps res = res.
Proof.
  induction ps as [|kp ps IH]; intros res H; [reflexivity|].
  rewrite fold_left_cons.
  assert (E : try_metric cl res kp = res).
  { unfold try_metric. rewrite (H kp (or_introl eq_refl)).
    destruct (dict_mem (fst kp) res); reflexivity. }
  rewrite E. apply IH. intros kp' Hk. apply H. right. exact Hk.
Qed.

Lemma empty_line_no_value :
  forallb (fun kp =>
    match line_value (fst kp) (snd kp) (clean []) with
    | None => true
    | Some _ => false
    end) patterns = true.
Proof. vm_compute. reflexivity. Qed.

(** An empty line changes nothing. *)
Lemma process_empty_line res : process_line res [] = res.
Proof.
  unfold process_line. apply inner_loop_no_value. intros kp H.
  pose proof empty_line_no_value as E. rewrite forallb_forall in E.
  apply E in H. destruct (line_value (fst kp) (snd kp) (clean [])); congruence.
Qed.

Lemma scan_empty_lines n res : fold_left process_line (repeat [] n) res = res.
Proof.
  induction n as [|n IH]; [reflexivity|].
  cbn [repeat]. rewrite fold_left_cons, process_empty_line. exact IH.
Qed.

Lemma splitlines_line_feeds n : splitlines (repeat "010"%char n) = repeat [] n.
Proof.
  unfold splitlines. induction n as [|n IH]; [reflexivity|].
  cbn [repeat splitlines_from]. rewrite IH. reflexivity.
Qed.

(** An input of line feeds only, however long, gives the mapping with
    every metric absent. *)
Lemma extract_line_feeds n :
  extract_health_values (repeat "010"%char n) = map (fun k => (k, None)) registry.
Proof.
  unfold extract_health_values, scan_lines.
  rewrite splitlines_line_feeds, scan_empty_lines.
  vm_compute. reflexivity.
Qed.


(* ------------------------------------------------------------------ *)
(** ** The label patterns *)

Module Labels.

Lemma is_bounded_eq r :
  is_bounded r = true -> exists body, r = Seq WordB (Seq body WordB).
Proof.
  destruct r as [| |a b| | |]; try discriminate.
  destruct a; try discriminate. destruct b as [| |b1 b2| | |]; try discriminate.
  destruct b2; try discriminate. intros _. exists b1. reflexivity.
Qed.

Lemma nullable_lang r : lang r [] -> nullable r = true.
Proof.
  induction r as [|p|a IHa b IHb|a IHa b IHb|g p lo hi|]; simpl; auto.
  - intros (x & H & _). discriminate.
  - intros (u & v & E & Lu & Lv). symmetry in E. apply app_eq_nil in E.
    destruct E as [-> ->]. rewrite IHa, IHb by assumption. reflexivity.
  - intros [H|H]; [rewrite IHa | rewrite IHb]; auto using orb_true_r.
  - intros (_ & H & _). simpl in H. apply Nat.eqb_eq. lia.
Qed.

Lemma all_chars_in c : In c all_chars.
Proof.
  unfold all_chars. rewrite <- (ascii_nat_embedding c). apply in_map.
  apply in_seq. pose proof (nat_ascii_bounded c). lia.
Qed.

Lemma caseless_spec p c : caseless p = true -> p (lower c) = p c.
Proof.
  unfold caseless. rewrite forallb_forall. intros H.
  apply Bool.eqb_prop. apply H. apply all_chars_in.
Qed.

Lemma is_word_caseless : caseless is_word = true.
Proof. vm_compute. reflexivity. Qed.

Lemma patterns_bounded :
  forallb (fun kp => is_bounded (snd kp)) patterns = true.
Proof. vm_compute. reflexivity. Qed.

Lemma patterns_not_nullable :
  forallb (fun kp =>
    match snd kp with
    | Seq WordB (Seq body WordB) => negb (nullable body)
    | _ => false
    end) patterns = true.
Proof. vm_compute. reflexivity. Qed.

Lemma patterns_caseless :
  forallb (fun kp => caseless_regex (snd kp)) patterns = true.
Proof. vm_compute. reflexivity. Qed.

Lemma pattern_of_bounded k :
  In k registry ->
  exists body, pattern_of k = Seq WordB (Seq body WordB) /\ nullable body = false.
Proof.
  intros H. apply pattern_of_in in H.
  pose proof patterns_not_nullable as N. rewrite forallb_forall in N.
  apply N in H. simpl in H.
  destruct (pattern_of k) as [| |a b| | |]; try discriminate.
  destruct a; try discriminate. destruct b as [| |b1 b2| | |]; try discriminate.
  destruct b2; try discriminate. exists b1. split; [reflexivity|].
  apply negb_true_iff. exact H.
Qed.

Lemma pattern_of_caseless k : In k registry -> caseless_regex (pattern_of k) = true.
Proof.
  intros H. apply pattern_of_in in H.
  pose proof patterns_caseless as N. rewrite forallb_forall in N.
  apply N in H. exact H.
Qed.

(** A match of a bounded pattern starts and ends at a word boundary and is
    not empty when the body cannot be. *)
Lemma bounded_search body s i j :
  search (Seq WordB (Seq body WordB)) s 0 = Some (i, j) ->
  i <= j /\ j <= length s /\
  at_boundary (cursor_at s i) = true /\ at_boundary (cursor_at s j) = true /\
  lang body (slice s i j).
Proof.
  intros H. pose proof H as H'.
  apply search_some in H; [|lia]. destruct H as (_ & Hij & Hj & M & _).
  apply match_at_in, ends_bounded_in in M. destruct M as (B1 & _ & B2).
  apply search_lang in H'; [|lia]. destruct H' as (_ & _ & _ & L).
  apply (proj1 (lang_bounded _ _)) in L. repeat split; assumption.
Qed.

Lemma word_after_at s j :
  word_after (cursor_at s j) =
  match nth_error s j with Some c => is_word c | None => false end.
Proof.
  rewrite cursor_at_eq. unfold word_after. simpl.
  revert j. induction s as [|x t IH]; intros [|j]; simpl; auto.
Qed.

Lemma hd_rev_firstn (s : text) : forall j,
  hd_error (rev (firstn (S j) s)) = nth_error s j \/
  (length s <= j /\ hd_error (rev (firstn (S j) s)) = hd_error (rev s)).
Proof.
  induction s as [|x t IH]; intros j.
  - left. destruct j; reflexivity.
  - destruct j as [|j].
    + left. reflexivity.
    + destruct (Nat.le_gt_cases (length (x :: t)) (S j)) as [L|L].
      * right. split; [exact L|]. rewrite firstn_all2 by lia. reflexivity.
      * left. simpl in L. change (firstn (S (S j)) (x :: t)) with (x :: firstn (S j) t).
        change (rev (x :: firstn (S j) t)) with (rev (firstn (S j) t) ++ [x]).
        destruct (IH j) as [E|[L' _]]; [|lia].
        simpl nth_error. rewrite <- E.
        destruct (rev (firstn (S j) t)) eqn:R; [|reflexivity].
        apply (f_equal (@length ascii)) in R.
        rewrite length_rev, length_firstn in R. cbn [length] in R. lia.
Qed.

Lemma word_before_at s j :
  j < length s ->
  word_before (cursor_at s (S j)) =
  match nth_error s j with Some c => is_word c | None => false end.
Proof.
  intros L. rewrite cursor_at_eq. unfold word_before.
  change (before (Cursor (rev (firstn (S j) s)) (skipn (S j) s)))
    with (rev (firstn (S j) s)).
  destruct (hd_rev_firstn s j) as [E|[L' _]]; [|lia].
  destruct (rev (firstn (S j) s)) as [|y l]; simpl in E; rewrite <- E; reflexivity.
Qed.

Lemma word_before_end s j :
  length s <= j ->
  word_before (cursor_at s (S j)) = word_before (cursor_at s (length s)).
Proof.
  intros L. rewrite !cursor_at_eq.
  rewrite !firstn_all2 by lia. reflexivity.
Qed.

(** After a character that is not a word character, a boundary needs a
    word character next. *)
Lemma boundary_after_nonword s j c :
  nth_error s j = Some c -> is_word c = false ->
  at_boundary (cursor_at s (S j)) = true ->
  exists c', nth_error s (S j) = Some c' /\ is_word c' = true.
Proof.
  intros N W B. unfold at_boundary in B.
  assert (L : j < length s) by (apply nth_error_Some; congruence).
  rewrite word_before_at, N, W, word_after_at in B by exact L.
  cbn [xorb] in B.
  destruct (nth_error s (S j)) as [c'|]; [|discriminate].
  exists c'. auto.
Qed.

End Labels.
Import Labels.

(* ------------------------------------------------------------------ *)
(** ** Case of letters *)

Module Caseless.

Lemma same_fold_boundary c c' :
  same_fold c c' -> at_boundary c = at_boundary c'.
Proof.
  intros [Hb Ha]. unfold at_boundary, word_before, word_after.
  pose proof (caseless_spec is_word) as W.
  destruct (before c) as [|x l], (before c') as [|x' l']; try discriminate;
  destruct (after c) as [|y m], (after c') as [|y' m']; try discriminate;
    simpl in Hb, Ha; try reflexivity.
  - injection Ha as Ey _.
    rewrite <- (W y), <- (W y'), Ey by exact is_word_caseless. reflexivity.
  - injection Hb as Ex _.
    rewrite <- (W x), <- (W x'), Ex by exact is_word_caseless. reflexivity.
  - injection Ha as Ey _. injection Hb as Ex _.
    rewrite <- (W x), <- (W x'), <- (W y), <- (W y'), Ex, Ey
      by exact is_word_caseless.
    reflexivity.
Qed.

Lemma Forall2_flat_map {A B : Type} (R : A -> A -> Prop) (S : B -> B -> Prop)
    (f f' : A -> list B) l l' :
  Forall2 R l l' ->
  (forall a a', R a a' -> Forall2 S (f a) (f' a')) ->
  Forall2 S (flat_map f l) (flat_map f' l').
Proof.
  intros H Hf. induction H as [|a a' l l' Ha _ IH]; simpl; [constructor|].
  apply Forall2_app; auto.
Qed.

Lemma rep_same_fold g p : caseless p = true ->
  forall aft aft' lo hi bef bef',
  map lower bef = map lower bef' -> map lower aft = map lower aft' ->
  Forall2 same_fold (rep g p lo hi bef aft) (rep g p lo hi bef' aft').
Proof.
  intros C. induction aft as [|x t IH]; intros [|x' t'] lo hi bef bef' Hb Ha;
    try discriminate; simpl.
  - destruct (lo =? 0); repeat constructor; auto.
  - simpl in Ha. injection Ha as Ex Et.
    assert (Px : p x = p x').
    { rewrite <- (caseless_spec p x C), <- (caseless_spec p x' C), Ex. reflexivity. }
    rewrite <- Px.
    assert (Stop : Forall2 same_fold
              (if lo =? 0 then [Cursor bef (x :: t)] else [])
              (if lo =? 0 then [Cursor bef' (x' :: t')] else [])).
    { destruct (lo =? 0); repeat constructor; simpl; auto. congruence. }
    destruct (p x && can_repeat hi); [|exact Stop].
    assert (More : Forall2 same_fold
              (rep g p (pred lo) (option_map pred hi) (x :: bef) t)
              (rep g p (pred lo) (option_map pred hi) (x' :: bef') t')).
    { apply IH; simpl; congruence. }
    destruct g; apply Forall2_app; assumption.
Qed.

Lemma ends_same_fold r : caseless_regex r = true ->
  forall c c', same_fold c c' -> Forall2 same_fold (ends r c) (ends r c').
Proof.
  induction r as [|p|a IHa b IHb|a IHa b IHb|g p lo hi|]; intros C c c' S;
    simpl in *.
  - constructor; [exact S | constructor].
  - destruct S as [Hb Ha].
    destruct (after c) as [|x t] eqn:E, (after c') as [|x' t'] eqn:E';
      try discriminate; [constructor|].
    simpl in Ha. injection Ha as Ex Et.
    assert (Px : p x = p x').
    { rewrite <- (caseless_spec p x C), <- (caseless_spec p x' C), Ex. reflexivity. }
    rewrite <- Px. destruct (p x); repeat constructor; simpl; congruence.
  - apply andb_prop in C. destruct C as [Ca Cb].
    eapply Forall2_flat_map; [apply IHa; eassumption|].
    intros d d' Sd. apply IHb; assumption.
  - apply andb_prop in C. destruct C as [Ca Cb].
    apply Forall2_app; auto.
  - destruct S as [Hb Ha]. apply rep_same_fold; assumption.
  - rewrite (same_fold_boundary _ _ S).
    destruct (at_boundary c'); constructor; [exact S | constructor].
Qed.

Lemma same_fold_offset c c' : same_fold c c' -> offset c = offset c'.
Proof.
  intros [Hb _]. unfold offset. apply (f_equal (@length ascii)) in Hb.
  rewrite !length_map in Hb. exact Hb.
Qed.

Lemma scan_same_fold r : caseless_regex r = true ->
  forall aft aft' bef bef',
  map lower bef = map lower bef' -> map lower aft = map lower aft' ->
  same_offsets (scan r bef aft) (scan r bef' aft').
Proof.
  intros C.
  assert (M : forall c c', same_fold c c' ->
            match match_at r c, match_at r c' with
            | Some e, Some e' => same_fold e e'
            | None, None => True
            | _, _ => False
            end).
  { intros c c' S. unfold match_at.
    destruct (ends_same_fold r C c c' S); auto. }
  induction aft as [|x t IH]; intros [|x' t'] bef bef' Hb Ha;
    try discriminate; simpl.
  - specialize (M (Cursor bef []) (Cursor bef' []) (conj Hb Ha)).
    destruct (match_at r (Cursor bef [])), (match_at r (Cursor bef' []));
      simpl; try contradiction; auto.
    split; [|apply same_fold_offset; exact M].
    apply (same_fold_offset (Cursor bef []) (Cursor bef' [])). split; auto.
  - specialize (M (Cursor bef (x :: t)) (Cursor bef' (x' :: t')) (conj Hb Ha)).
    destruct (match_at r (Cursor bef (x :: t))),
             (match_at r (Cursor bef' (x' :: t')));
      simpl; try contradiction.
    + split; [|apply same_fold_offset; exact M].
      apply (same_fold_offset (Cursor bef (x :: t)) (Cursor bef' (x' :: t'))).
      split; auto.
    + simpl in Ha. injection Ha as Ex Et. apply IH; simpl; congruence.
Qed.

(** The search finds the same offsets in two strings that differ in the
    case of letters only. *)
Lemma search_caseless r s s' :
  caseless_regex r = true -> map lower s = map lower s' ->
  search r s 0 = search r s' 0.
Proof.
  intros C E. unfold search, scan_from, cursor_at. simpl.
  pose proof (scan_same_fold r C s s' [] [] eq_refl E) as H.
  destruct (scan r [] s) as [[b e]|], (scan r [] s') as [[b' e']|];
    simpl in H; try contradiction; [|reflexivity].
  destruct H as [-> ->]. reflexivity.
Qed.

(** The language of a literal. *)
Lemma lit_lang (ls : list ascii) : forall w,
  lang (seqs (map (fun l => Chr (ieq l)) ls)) w ->
  Forall2 (fun l c => ieq l c = true) ls w.
Proof.
  induction ls as [|l ls IH]; intros w H.
  - simpl in H. subst w. constructor.
  - destruct ls as [|l' ls].
    + simpl in H. destruct H as (x & -> & Px). repeat constructor. exact Px.
    + change (seqs (map (fun l => Chr (ieq l)) (l :: l' :: ls)))
        with (Seq (Chr (ieq l)) (seqs (map (fun l => Chr (ieq l)) (l' :: ls)))) in H.
      destruct H as (u & v & -> & (x & -> & Px) & Lv).
      constructor; [exact Px | apply IH; exact Lv].
Qed.

Lemma ieq_period c : ieq "." c = true -> c = "."%char.
Proof.
  destruct c as [[] [] [] [] [] [] [] []]; vm_compute; intros H;
    try discriminate; reflexivity.
Qed.

Lemma period_not_word : is_word "." = false.
Proof. vm_compute. reflexivity. Qed.

End Caseless.
Import Caseless.

(* ------------------------------------------------------------------ *)
(** ** Whole words, either case *)

(** C7: a label match of any metric is not empty and starts and ends at a
    word boundary; it is found at the same place whatever the case of the
    letters of the line.  On the line ["LDL 130"] neither CK nor LDH is
    resolved (["LD"] does not match inside ["LDL"]), and on ["LD 220"] LDH
    is resolved to ["220"] through its synonym ["LD"], LDL is not. *)
Theorem C7_whole_word_either_case :
  (forall k s i j,
     In k registry -> search (pattern_of k) s 0 = Some (i, j) ->
     i < j /\ at_boundary (cursor_at s i) = true /\
     at_boundary (cursor_at s j) = true) /\
  (forall k s s',
     In k registry -> map lower s = map lower s' ->
     search (pattern_of k) s 0 = search (pattern_of k) s' 0) /\
  (let r := extract_health_values (str "LDL 130") in
   dict_get "CK" r = Some None /\ dict_get "LDH" r = Some None /\
   dict_get "LDL" r = Some (Some (str "130")) /\
   search (pattern_of "LDH") (clean (str "LDL 130")) 0 = None /\
   search (pattern_of "CK") (clean (str "LDL 130")) 0 = None) /\
  (let r := extract_health_values (str "LD 220") in
   dict_get "LDH" r = Some (Some (str "220")) /\ dict_get "LDL" r = Some None /\
   search (pattern_of "LDH") (clean (str "LD 220")) 0 = Some (0, 2) /\
   search (pattern_of "LDL") (clean (str "LD 220")) 0 = None) /\
  dict_get "LDH" (extract_health_values (str "ld 220")) = Some (Some (str "220")).
Proof.
  split; [|split; [|split; [|split]]].
  - intros k s i j Hk H.
    destruct (pattern_of_bounded k Hk) as (body & E & N). rewrite E in H.
    apply bounded_search in H. destruct H as (Hij & _ & B1 & B2 & L).
    repeat split; auto.
    destruct (Nat.eq_dec i j) as [->|]; [|lia].
    unfold slice in L. rewrite Nat.sub_diag in L. simpl in L.
    apply nullable_lang in L. congruence.
  - intros k s s' Hk E. apply search_caseless; [|exact E].
    apply pattern_of_caseless. exact Hk.
  - vm_compute. repeat split; reflexivity.
  - vm_compute. repeat split; reflexivity.
  - vm_compute. reflexivity.
Qed.

Lemma C7_whole_word_either_case_witness :
  search (pattern_of "LDH") (str "ld 220") 0 =
  search (pattern_of "LDH") (str "LD 220") 0.
Proof.
  refine (proj1 (proj2 C7_whole_word_either_case)
            "LDH"%string (str "ld 220") (str "LD 220") _ _).
  - vm_compute. auto 12.
  - vm_compute. reflexivity.
Defined.

(** C10: a synonym spelled with a final period (["B.P."], ["T.S.H."],
    ["B.M.I."]) matches only where a word character follows that period,
    and so does every label match that ends in a period.  On the line
    ["B.P. 120/80"] the label of Blood Pressure does not match and the
    metric stays unresolved; with a word character after the period, as in
    ["B.P.x 120/80"], it matches and the ratio is found. *)
Theorem C10_final_period_needs_word_character :
  (forall syn s i j,
     In syn ["B.P."; "T.S.H."; "B.M.I."]%string ->
     search (bounded [lit syn]) s 0 = Some (i, j) ->
     exists c, nth_error s j = Some c /\ is_word c = true) /\
  (forall k s i j,
     In k registry -> search (pattern_of k) s 0 = Some (i, j) ->
     nth_error s (pred j) = Some "."%char ->
     exists c, nth_error s j = Some c /\ is_word c = true) /\
  search (pattern_of "Blood Pressure") (clean (str "B.P. 120/80")) 0 = None /\
  search (bounded [lit "B.P."]) (clean (str "B.P. 120/80")) 0 = None /\
  dict_get "Blood Pressure" (extract_health_values (str "B.P. 120/80"))
    = Some None /\
  search (pattern_of "Blood Pressure") (clean (str "B.P.x 120/80")) 0
    = Some (0, 4) /\
  dict_get "Blood Pressure" (extract_health_values (str "B.P.x 120/80"))
    = Some (Some (str "120/80")).
Proof.
  assert (G : forall body s i j,
    search (Seq WordB (Seq body WordB)) s 0 = Some (i, j) ->
    nullable body = false ->
    nth_error s (pred j) = Some "."%char ->
    exists c, nth_error s j = Some c /\ is_word c = true).
  { intros body s i j H N P. apply bounded_search in H.
    destruct H as (Hij & _ & _ & B2 & L).
    destruct j as [|j].
    - assert (i = 0) by lia. subst i. unfold slice in L. simpl in L.
      apply nullable_lang in L. congruence.
    - simpl in P.
      apply (boundary_after_nonword s j "."%char P period_not_word B2). }
  split; [|split; [|repeat split; vm_compute; reflexivity]].
  - intros syn s i j Hs H. pose proof H as H'.
    unfold bounded in H'. cbn [alts] in H'. apply bounded_search in H'.
    destruct H' as (Hij & Hj & _ & _ & L).
    assert (E : exists ls, list_ascii_of_string syn = ls ++ ["."%char] /\ ls <> []).
    { exists (removelast (list_ascii_of_string syn)).
      simpl in Hs. destruct Hs as [<-|[<-|[<-|[]]]];
        (split; [vm_compute; reflexivity | vm_compute; discriminate]). }
    destruct E as (ls & E & Hne).
    unfold lit in L. apply lit_lang in L. rewrite E in L.
    apply Forall2_app_inv_l in L. destruct L as (w1 & w2 & L1 & L2 & Ew).
    inversion L2 as [|? c ? l2 Pc L3]; subst. inversion L3; subst.
    apply ieq_period in Pc. subst c.
    assert (Lw : length (slice s i j) = j - i).
    { unfold slice. rewrite length_firstn, length_skipn. lia. }
    rewrite Ew, length_app in Lw. simpl in Lw.
    assert (Hl : length w1 = length ls) by (symmetry; eapply Forall2_length; eauto).
    assert (P : nth_error s (pred j) = Some "."%char).
    { assert (Q : nth_error (slice s i j) (length w1) = Some "."%char).
      { rewrite Ew, nth_error_app2, Nat.sub_diag by lia. reflexivity. }
      unfold slice in Q. rewrite nth_error_firstn in Q.
      destruct (length w1 <? j - i); [|discriminate].
      rewrite nth_error_skipn in Q. rewrite <- Q. f_equal. lia. }
    apply (G (lit syn) s i j); [exact H | | exact P].
    simpl in Hs. destruct Hs as [<-|[<-|[<-|[]]]]; vm_compute; reflexivity.
  - intros k s i j Hk H P.
    destruct (pattern_of_bounded k Hk) as (body & E & N). rewrite E in H.
    eapply G; eauto.
Qed.

Lemma C10_final_period_needs_word_character_witness :
  exists c, nth_error (str "B.P.x 120/80") 4 = Some c /\ is_word c = true.
Proof.
  refine (proj1 C10_final_period_needs_word_character
            "B.P."%string (str "B.P.x 120/80") 0 4 _ _).
  - simpl. auto.
  - vm_compute. reflexivity.
Defined.

(* ------------------------------------------------------------------ *)
(** ** The shape of the resolved values *)

Lemma resolved_from_line t k v :
  dict_get k (extract_health_values t) = Some (Some v) ->
  exists pre l post,
    splitlines t = pre ++ l :: post /\
    In k registry /\
    first_value k (pattern_of k) pre = None /\
    line_value k (pattern_of k) (clean l) = Some v.
Proof.
  rewrite extract_get.
  destruct (dict_get k (scan_lines (splitlines t))) as [o|] eqn:G.
  - intros [= ->]. pose proof G as G'. apply scanned_value in G.
    destruct G as (p & s & P & [= <-] & F).
    assert (Hk : In k registry).
    { eapply scanned_keys. apply dict_get_in in G'.
      apply (in_map fst) in G'. exact G'. }
    rewrite (pattern_for_registry _ Hk) in P. injection P as <-.
    apply first_value_some in F. destruct F as (pre & l & post & E & F1 & F2).
    exists pre, l, post. auto.
  - destruct (existsb (String.eqb k) registry); discriminate.
Qed.

(** The shape of what a key holds once resolved, as the two value
    patterns give it: for Blood Pressure two or three digits, [/], two or
    three digits; for every other key one or more digits, then at most
    one [.], then digits or nothing. *)
Lemma resolved_value_shape (t : text) (k : string) (v : text) :
  dict_get k (extract_health_values t) = Some (Some v) ->
  if is_bp k then is_ratio v = true else is_decimal_open dot v = true.
Proof.
  intros H. apply resolved_from_line in H.
  destruct H as (pre & l & post & _ & _ & _ & H).
  apply line_value_shape in H. exact H.
Qed.

(** C4: the code breaks the decimal shape where a word character follows
    the separator.  From ["HDL 7.x"] HDL holds ["7."] and from
    ["HDL 41.2mg"] it holds ["41."], digits and a separator with no digit
    after it, which is not the shape of the claim.  With a space after
    the number the value has the shape (["HDL 41.2 mg"] gives ["41.2"]),
    and a separator that a space follows is not taken (["HDL 7. mg"]
    gives ["7"]).  The ratio of Blood Pressure keeps its shape on every
    input: ["120/80"] is taken and ["5/3"] is not. *)
Theorem C4_decimal_value_ends_with_separator :
  dict_get "HDL" (extract_health_values (str "HDL 7.x"))
    = Some (Some (str "7.")) /\
  spec_is_decimal dot (str "7.") = false /\
  dict_get "HDL" (extract_health_values (str "HDL 41.2mg"))
    = Some (Some (str "41.")) /\
  spec_is_decimal dot (str "41.") = false /\
  dict_get "HDL" (extract_health_values (str "HDL 41.2 mg"))
    = Some (Some (str "41.2")) /\
  dict_get "HDL" (extract_health_values (str "HDL 7. mg"))
    = Some (Some (str "7")) /\
  (forall t v,
     dict_get "Blood Pressure" (extract_health_values t) = Some (Some v) ->
     is_ratio v = true) /\
  is_ratio (str "120/80") = true /\ is_ratio (str "5/3") = false /\
  dict_get "Blood Pressure" (extract_health_values (str "Blood Pressure 120/80 mmHg"))
    = Some (Some (str "120/80")) /\
  dict_get "Blood Pressure" (extract_health_values (str "Blood Pressure 5/3"))
    = Some None.
Proof.
  do 6 (split; [vm_compute; reflexivity|]).
  split; [intros t v H; exact (resolved_value_shape t "Blood Pressure" v H)|].
  do 3 (split; [vm_compute; reflexivity|]). vm_compute. reflexivity.
Qed.

(* ------------------------------------------------------------------ *)
(** ** [re.sub] *)

Module Sub.

Lemma match_nonempty r c e :
  nullable r = false -> In e (ends r c) -> length (after e) < length (after c).
Proof.
  intros N H. apply ends_sound in H. destruct H as (w & [Ha _] & L).
  destruct w as [|y w]; [apply nullable_lang in L; congruence|].
  rewrite Ha, length_app. simpl. lia.
Qed.

Lemma scan_shrinks r bef aft b e :
  nullable r = false -> scan r bef aft = Some (b, e) ->
  length (after e) < length aft /\ length bef <= offset b.
Proof.
  intros N H. apply scan_some in H. destruct H as (u & [Ha Hb] & M & _).
  apply match_at_in, (match_nonempty _ _ _ N) in M. simpl in Ha, Hb.
  split.
  - rewrite Ha, length_app. lia.
  - unfold offset. rewrite Hb, length_app. lia.
Qed.

Lemma scan_at_end r bef : nullable r = false -> scan r bef [] = None.
Proof.
  intros N. simpl. destruct (match_at r (Cursor bef [])) as [e|] eqn:M; [|reflexivity].
  apply match_at_in, (match_nonempty _ _ _ N) in M. simpl in M. lia.
Qed.

(** More fuel than the length changes nothing. *)
Lemma sub_loop_fuel r repl : nullable r = false ->
  forall n m c, length (after c) <= n -> length (after c) <= m ->
  sub_loop n r repl c = sub_loop m r repl c.
Proof.
  intros N.
  assert (Z : forall m c, length (after c) <= 0 -> sub_loop m r repl c = after c).
  { intros [|m] [bef aft] H; [reflexivity|]. simpl in H.
    destruct aft; [|simpl in H; lia].
    simpl. unfold scan_from. simpl before. simpl after.
    rewrite (scan_at_end r bef N). reflexivity. }
  induction n as [|n IH]; intros m c Hn Hm.
  - rewrite (Z m c Hn). reflexivity.
  - destruct m as [|m]; [rewrite (Z (S n) c Hm); reflexivity|].
    simpl. unfold scan_from.
    destruct (scan r (before c) (after c)) as [[b e]|] eqn:Sc; [|reflexivity].
    apply (scan_shrinks _ _ _ _ _ N) in Sc. destruct Sc as [Sc _].
    do 2 f_equal. apply IH; lia.
Qed.

Lemma sub_at_end r repl bef : sub_at r repl (Cursor bef []) = [].
Proof. reflexivity. Qed.

Lemma sub_loop_S f r repl c :
  sub_loop (S f) r repl c =
  match scan r (before c) (after c) with
  | None => after c
  | Some (b, e) =>
      firstn (offset b - offset c) (after c) ++ repl ++ sub_loop f r repl e
  end.
Proof. reflexivity. Qed.

Lemma scan_here r bef aft e :
  match_at r (Cursor bef aft) = Some e ->
  scan r bef aft = Some (Cursor bef aft, e).
Proof. intros M. destruct aft; simpl; rewrite M; reflexivity. Qed.

Lemma scan_next r bef x t :
  match_at r (Cursor bef (x :: t)) = None ->
  scan r bef (x :: t) = scan r (x :: bef) t.
Proof. intros M. simpl. rewrite M. reflexivity. Qed.

Lemma sub_at_match r repl bef x t e :
  nullable r = false ->
  match_at r (Cursor bef (x :: t)) = Some e ->
  sub_at r repl (Cursor bef (x :: t)) = repl ++ sub_at r repl e.
Proof.
  intros N M. unfold sub_at at 1.
  change (length (after (Cursor bef (x :: t)))) with (S (length t)).
  rewrite sub_loop_S.
  change (before (Cursor bef (x :: t))) with bef.
  change (after (Cursor bef (x :: t))) with (x :: t).
  rewrite (scan_here _ _ _ _ M), Nat.sub_diag.
  change (firstn 0 (x :: t)) with (@nil ascii). cbn [app]. f_equal.
  apply match_at_in, (match_nonempty _ _ _ N) in M. simpl in M.
  apply sub_loop_fuel; [exact N | lia | lia].
Qed.

Lemma sub_at_skip r repl bef x t :
  nullable r = false ->
  match_at r (Cursor bef (x :: t)) = None ->
  sub_at r repl (Cursor bef (x :: t)) = x :: sub_at r repl (Cursor (x :: bef) t).
Proof.
  intros N M. unfold sub_at.
  change (length (after (Cursor bef (x :: t)))) with (S (length t)).
  change (length (after (Cursor (x :: bef) t))) with (length t).
  rewrite sub_loop_S.
  change (before (Cursor bef (x :: t))) with bef.
  change (after (Cursor bef (x :: t))) with (x :: t).
  rewrite (scan_next _ _ _ _ M).
  destruct (scan r (x :: bef) t) as [[b e]|] eqn:Sc.
  - pose proof (scan_shrinks _ _ _ _ _ N Sc) as [L1 L2].
    destruct t as [|y t]; [simpl in L1; lia|].
    change (length (y :: t)) with (S (length t)).
    rewrite (sub_loop_S _ _ _ (Cursor (x :: bef) (y :: t))).
    change (before (Cursor (x :: bef) (y :: t))) with (x :: bef).
    change (after (Cursor (x :: bef) (y :: t))) with (y :: t).
    rewrite Sc. unfold offset at 1 2 3 4.
    change (before (Cursor bef (x :: y :: t))) with bef.
    change (before (Cursor (x :: bef) (y :: t))) with (x :: bef).
    change (length (x :: bef)) with (S (length bef)) in *.
    unfold offset in L2.
    replace (length (before b) - length bef)
      with (S (length (before b) - S (length bef))) by lia.
    cbn [firstn app]. do 3 f_equal.
    simpl in L1. apply sub_loop_fuel; [exact N | lia | lia].
  - destruct t as [|y t]; [reflexivity|].
    change (length (y :: t)) with (S (length t)). rewrite sub_loop_S.
    change (before (Cursor (x :: bef) (y :: t))) with (x :: bef).
    change (after (Cursor (x :: bef) (y :: t))) with (y :: t).
    rewrite Sc. reflexivity.
Qed.

Lemma sub_eq r repl s : sub r repl s = sub_at r repl (Cursor [] s).
Proof. reflexivity. Qed.

End Sub.
Import Sub.

(* ------------------------------------------------------------------ *)
(** ** Line normalization *)

Module Normalize.

Lemma after_close_length s rest :
  after_close s = Some rest -> length rest < length s.
Proof.
  revert rest. induction s as [|x t IH]; intros rest; simpl; [discriminate|].
  destruct (is_char ")" x).
  - intros [= ->]. lia.
  - intros H. apply IH in H. lia.
Qed.

Lemma after_close_no_newline s rest :
  no_newline s -> after_close s = Some rest -> no_newline rest.
Proof.
  intros F. revert rest. induction F as [|x t Px F IH]; intros rest; simpl;
    [discriminate|].
  destruct (is_char ")" x); [intros [= <-]; exact F | apply IH].
Qed.

Lemma drop_while_length p (s : text) : length (drop_while p s) <= length s.
Proof.
  induction s as [|x t IH]; simpl; [lia|]. destruct (p x); simpl; lia.
Qed.

(** The lazy [.*?] followed by [\)] stops at the first [)]. *)
Lemma lazy_to_close : forall t bef,
  no_newline t ->
  match flat_map (ends (Chr (is_char ")"))) (rep false not_newline 0 None bef t) with
  | e :: _ => Some (after e)
  | [] => None
  end = after_close t.
Proof.
  induction t as [|y t IH]; intros bef F; [reflexivity|].
  inversion F as [|? ? Py F']; subst.
  cbn [rep Nat.eqb pred option_map can_repeat]. rewrite Py.
  cbn [andb app flat_map ends after before after_close].
  destruct (is_char ")" y); [reflexivity|]. cbn [app]. apply IH. exact F'.
Qed.

Lemma paren_match_at bef x t :
  no_newline t ->
  match match_at paren_pat (Cursor bef (x :: t)) with
  | Some e => Some (after e)
  | None => None
  end = if is_char "(" x then after_close t else None.
Proof.
  intros F. unfold match_at, paren_pat.
  cbn [seqs ends after before]. destruct (is_char "(" x); [|reflexivity].
  cbn [flat_map after before]. rewrite app_nil_r.
  rewrite <- (lazy_to_close t (x :: bef) F).
  destruct (flat_map _ _); reflexivity.
Qed.

Lemma paren_not_nullable : nullable paren_pat = false.
Proof. reflexivity. Qed.

Lemma ws_not_nullable : nullable ws_pat = false.
Proof. reflexivity. Qed.

Lemma sub_paren_at : forall n aft bef,
  length aft <= n -> no_newline aft ->
  sub_at paren_pat [] (Cursor bef aft) = remove_parens n aft.
Proof.
  induction n as [|n IH]; intros aft bef L F.
  - destruct aft; [reflexivity | simpl in L; lia].
  - destruct aft as [|x t]; [reflexivity|].
    inversion F as [|? ? Px Ft]; subst. simpl in L.
    pose proof (paren_match_at bef x t Ft) as M. cbn [remove_parens].
    destruct (match_at paren_pat (Cursor bef (x :: t))) as [e|] eqn:E.
    + rewrite (sub_at_match _ _ _ _ _ _ paren_not_nullable E). cbn [app].
      destruct (is_char "(" x); [|discriminate]. rewrite <- M.
      destruct e as [bef' aft']. simpl after in *. symmetry in M.
      apply IH.
      * apply after_close_length in M. lia.
      * eapply after_close_no_newline; eassumption.
    + rewrite (sub_at_skip _ _ _ _ _ paren_not_nullable E).
      assert (R : (if is_char "(" x
                   then match after_close t with
                        | Some rest => remove_parens n rest
                        | None => x :: remove_parens n t
                        end
                   else x :: remove_parens n t) = x :: remove_parens n t).
      { destruct (is_char "(" x); [|reflexivity]. rewrite <- M. reflexivity. }
      rewrite R. f_equal. apply IH; [lia | exact Ft].
Qed.

(** The greedy [\s*] first stops after the whole run. *)
Lemma greedy_run p : forall t bef,
  exists bef' l, rep true p 0 None bef t = Cursor bef' (drop_while p t) :: l.
Proof.
  induction t as [|y t IH]; intros bef.
  - exists bef, []. reflexivity.
  - cbn [rep Nat.eqb pred option_map can_repeat drop_while].
    destruct (p y); cbn [andb].
    + destruct (IH (y :: bef)) as (bef' & l & ->).
      exists bef', (l ++ [Cursor bef (y :: t)]). reflexivity.
    + exists bef, []. reflexivity.
Qed.

Lemma ws_match_at bef x t :
  match match_at ws_pat (Cursor bef (x :: t)) with
  | Some e => Some (after e)
  | None => None
  end = if is_space x then Some (drop_while is_space t) else None.
Proof.
  unfold match_at, ws_pat.
  cbn [ends rep after before Nat.eqb pred option_map can_repeat].
  destruct (is_space x); cbn [andb]; [|reflexivity].
  destruct (greedy_run is_space t (x :: bef)) as (bef' & l & ->).
  reflexivity.
Qed.

Lemma sub_ws_at : forall n aft bef,
  length aft <= n ->
  sub_at ws_pat (str " ") (Cursor bef aft) = collapse n aft.
Proof.
  induction n as [|n IH]; intros aft bef L.
  - destruct aft; [reflexivity | simpl in L; lia].
  - destruct aft as [|x t]; [reflexivity|]. simpl in L.
    pose proof (ws_match_at bef x t) as M. cbn [collapse].
    destruct (match_at ws_pat (Cursor bef (x :: t))) as [e|] eqn:E.
    + rewrite (sub_at_match _ _ _ _ _ _ ws_not_nullable E).
      destruct (is_space x); [|discriminate]. injection M as M.
      destruct e as [bef' aft']. simpl after in M. subst aft'.
      change (str " ") with [" "%char]. cbn [app]. f_equal.
      apply IH. pose proof (drop_while_length is_space t). lia.
    + rewrite (sub_at_skip _ _ _ _ _ ws_not_nullable E).
      destruct (is_space x); [discriminate|]. f_equal. apply IH. lia.
Qed.

Lemma lstrip_eq s : lstrip s = drop_while is_space s.
Proof.
  induction s as [|x t IH]; simpl; [reflexivity|].
  destruct (is_space x); [exact IH | reflexivity].
Qed.

Lemma strip_eq s : strip s = spec_trim s.
Proof. unfold strip, rstrip, spec_trim. rewrite !lstrip_eq. reflexivity. Qed.

Lemma remove_parens_no_newline : forall n s,
  no_newline s -> no_newline (remove_parens n s).
Proof.
  induction n as [|n IH]; intros s F; [exact F|].
  destruct s as [|x t]; [exact F|]. inversion F as [|? ? Px Ft]; subst.
  cbn [remove_parens]. destruct (is_char "(" x).
  - destruct (after_close t) as [rest|] eqn:A.
    + apply IH. eapply after_close_no_newline; eassumption.
    + constructor; [exact Px | apply IH; exact Ft].
  - constructor; [exact Px | apply IH; exact Ft].
Qed.

(** The two [re.sub] calls and the [strip] are the three steps. *)
Lemma clean_normalize line : no_newline line -> clean line = spec_normalize line.
Proof.
  intros F. unfold clean, spec_normalize. rewrite strip_eq. f_equal.
  rewrite !sub_eq.
  rewrite (sub_paren_at (length line) line [] (le_n _) F).
  fold (spec_strip_parens line). apply sub_ws_at. apply le_n.
Qed.

(** No line of [splitlines] holds a line boundary. *)
Lemma splitlines_from_lines : forall n s cur l,
  length s <= n ->
  Forall (fun x => is_linebreak x = false) cur ->
  In l (splitlines_from cur s) -> Forall (fun x => is_linebreak x = false) l.
Proof.
  induction n as [|n IH]; intros s cur l L Fc H.
  - destruct s; [|simpl in L; lia]. simpl in H.
    destruct cur; [contradiction|]. destruct H as [<-|[]].
    apply Forall_rev. exact Fc.
  - destruct s as [|c t].
    + simpl in H. destruct cur; [contradiction|]. destruct H as [<-|[]].
      apply Forall_rev. exact Fc.
    + simpl in L. cbn [splitlines_from] in H.
      assert (Cut : forall t', length t' <= n ->
                In l (rev cur :: splitlines_from [] t') ->
                Forall (fun x => is_linebreak x = false) l).
      { intros t' L' [<-|H']; [apply Forall_rev; exact Fc|].
        eapply (IH t' []); [exact L' | constructor | exact H']. }
      destruct (Ascii.eqb c "013").
      * destruct t as [|c' t']; [apply (Cut []); [simpl; lia | exact H]|].
        simpl in L.
        destruct (Ascii.eqb c' "010");
          [apply (Cut t'); [lia | exact H] | apply (Cut (c' :: t')); [simpl; lia | exact H]].
      * destruct (is_linebreak c) eqn:B; [apply (Cut t); [lia | exact H]|].
        apply (IH t (c :: cur)); [lia | constructor; assumption | exact H].
Qed.

Lemma linebreak_newline x : is_linebreak x = false -> not_newline x = true.
Proof.
  destruct x as [[] [] [] [] [] [] [] []]; vm_compute; congruence.
Qed.

Lemma splitlines_no_newline t l : In l (splitlines t) -> no_newline l.
Proof.
  intros H. apply (splitlines_from_lines (length t) t [] l (le_n _)) in H;
    [|constructor].
  unfold no_newline. eapply Forall_impl; [|exact H].
  intros x. apply linebreak_newline.
Qed.

End Normalize.
Import Normalize.

(** C6: before any matching, each line of the input is normalized in three
    steps: every [(] is removed together with everything up to the first
    [)] after it, a [(] that no [)] follows staying in place; every run of
    whitespace becomes one space; leading and trailing whitespace is
    removed.  The line ["HbA1c (ref 4-6%) 5.8%"] becomes ["HbA1c 5.8%"] and
    gives HbA1c = ["5.8"]. *)
Theorem C6_line_normalization :
  (forall t line, In line (splitlines t) ->
     clean line = spec_trim (spec_collapse_whitespace (spec_strip_parens line))) /\
  (forall line, no_newline line ->
     clean line = spec_trim (spec_collapse_whitespace (spec_strip_parens line))) /\
  spec_strip_parens (str "a (b (c) d) e ) f ( g") = str "a  d) e ) f ( g" /\
  spec_collapse_whitespace (str "  a  d) e   f  ") = str " a d) e f " /\
  spec_trim (str " a d) e f ") = str "a d) e f" /\
  clean (str "HbA1c (ref 4-6%) 5.8%") = str "HbA1c 5.8%" /\
  dict_get "HbA1c" (extract_health_values (str "HbA1c (ref 4-6%) 5.8%"))
    = Some (Some (str "5.8")).
Proof.
  split; [|split; [|repeat split; vm_compute; reflexivity]].
  - intros t line H. apply clean_normalize.
    eapply splitlines_no_newline. exact H.
  - intros line F. apply clean_normalize. exact F.
Qed.

Lemma C6_line_normalization_witness :
  clean (str "HbA1c (ref 4-6%) 5.8%") =
  spec_trim (spec_collapse_whitespace (spec_strip_parens (str "HbA1c (ref 4-6%) 5.8%"))).
Proof.
  refine (proj1 C6_line_normalization (str "HbA1c (ref 4-6%) 5.8%")
            (str "HbA1c (ref 4-6%) 5.8%") _).
  vm_compute. auto.
Defined.

(* ------------------------------------------------------------------ *)
(** ** The number token the matcher picks *)

Module Token.

Lemma sorted_app {A : Type} (R : A -> A -> Prop) l1 l2 :
  StronglySorted R l1 -> StronglySorted R l2 ->
  (forall x y, In x l1 -> In y l2 -> R x y) ->
  StronglySorted R (l1 ++ l2).
Proof.
  intros S1 S2 H. induction S1 as [|a l S1 IH F]; simpl; [exact S2|].
  constructor.
  - apply IH. intros x y Hx Hy. apply H; [right; exact Hx | exact Hy].
  - apply Forall_app. split; [exact F|].
    apply Forall_forall. intros y Hy. apply H; [left; reflexivity | exact Hy].
Qed.

Lemma sorted_flat_map {A B : Type} (Q : A -> A -> Prop) (R : B -> B -> Prop)
    (G : A -> list B) (D : list A) :
  StronglySorted Q D ->
  (forall d, In d D -> StronglySorted R (G d)) ->
  (forall d d' x y, Q d d' -> In d D -> In d' D ->
                    In x (G d) -> In y (G d') -> R x y) ->
  StronglySorted R (flat_map G D).
Proof.
  intros S. induction S as [|a l S IH F]; intros HG HX; simpl; [constructor|].
  apply sorted_app.
  - apply HG. left. reflexivity.
  - apply IH.
    + intros d Hd. apply HG. right. exact Hd.
    + intros d d' x y Hq Hd Hd'. apply HX; auto; right; assumption.
  - intros x y Hx Hy. apply in_flat_map in Hy. destruct Hy as (d' & Hd' & Hy).
    rewrite Forall_forall in F.
    apply (HX a d' x y); auto; [left; reflexivity | right; exact Hd'].
Qed.

Lemma sorted_filter {A : Type} (R : A -> A -> Prop) (f : A -> bool) l :
  StronglySorted R l -> StronglySorted R (filter f l).
Proof.
  induction 1 as [|a l S IH F]; simpl; [constructor|].
  destruct (f a); [|exact IH]. constructor; [exact IH|].
  rewrite Forall_forall in *. intros x Hx. apply filter_In in Hx.
  apply F. tauto.
Qed.

Lemma sorted_weaken {A : Type} (R R' : A -> A -> Prop) l :
  (forall x y, R x y -> R' x y) -> StronglySorted R l -> StronglySorted R' l.
Proof.
  intros W. induction 1 as [|a l S IH F]; constructor; [exact IH|].
  eapply Forall_impl; [|exact F]. intros x. apply W.
Qed.

Lemma filter_flat_map {A B : Type} (f : B -> bool) (G : A -> list B) D :
  filter f (flat_map G D) = flat_map (fun d => filter f (G d)) D.
Proof.
  induction D as [|a l IH]; simpl; [reflexivity|].
  rewrite filter_app, IH. reflexivity.
Qed.

Lemma span_rest c e w : span c e w -> rest c = length w + rest e.
Proof. intros [H _]. unfold rest. rewrite H, length_app. reflexivity. Qed.

Lemma rep_rest g p lo hi bef aft e :
  In e (rep g p lo hi bef aft) -> rest e <= length aft.
Proof.
  intros H. apply rep_sound in H. destruct H as (w & S & _).
  apply span_rest in S. unfold rest in *. simpl in S. lia.
Qed.

(** A greedy repetition tries the longer ends first. *)
Lemma rep_greedy_sorted p : forall aft lo hi bef,
  StronglySorted further (rep true p lo hi bef aft).
Proof.
  induction aft as [|x t IH]; intros lo hi bef; simpl.
  - destruct (lo =? 0); repeat constructor.
  - assert (Stop : StronglySorted further
                     (if lo =? 0 then [Cursor bef (x :: t)] else []))
      by (destruct (lo =? 0); repeat constructor).
    destruct (p x && can_repeat hi); [|exact Stop].
    apply sorted_app; [apply IH | exact Stop |].
    intros a b Ha Hb. apply rep_rest in Ha.
    destruct (lo =? 0); [|contradiction]. destruct Hb as [<-|[]].
    unfold further, rest in *. simpl. lia.
Qed.

Lemma num_body_eq : num_body = Seq digits1 tail_pat.
Proof. reflexivity. Qed.

Lemma digits0_at_nondigit bef x t :
  is_digit x = false -> ends digits0 (Cursor bef (x :: t)) = [Cursor bef (x :: t)].
Proof. intros H. simpl. rewrite H. reflexivity. Qed.

Lemma opt_sep_at_nonsep bef x t :
  one_of dot_or_comma x = false ->
  ends opt_sep (Cursor bef (x :: t)) = [Cursor bef (x :: t)].
Proof. intros H. unfold opt_sep. cbn [ends rep before after]. rewrite H. reflexivity. Qed.

Lemma ends_rest r c e : In e (ends r c) -> rest e <= rest c.
Proof.
  intros H. apply ends_sound in H. destruct H as (w & S & _).
  apply span_rest in S. lia.
Qed.

Lemma ends_greedy_sorted p lo hi c :
  StronglySorted further (ends (Rep true p lo hi) c).
Proof. apply rep_greedy_sorted. Qed.

(** The ends of [[.,]?[0-9]*] come longest first. *)
Lemma tail_sorted d : StronglySorted further (ends tail_pat d).
Proof.
  change (ends tail_pat d) with (flat_map (ends digits0) (ends opt_sep d)).
  apply sorted_flat_map with (Q := further).
  - apply ends_greedy_sorted.
  - intros d' _. apply ends_greedy_sorted.
  - intros d1 d2 x y Q H1 H2 Hx Hy.
    pose proof (ends_sound _ _ _ H1) as (w1 & S1 & F1 & _ & L1).
    pose proof (ends_sound _ _ _ H2) as (w2 & S2 & _ & _ & L2).
    pose proof (span_rest _ _ _ S1) as R1. pose proof (span_rest _ _ _ S2) as R2.
    unfold further in Q. simpl in L1, L2.
    destruct w2 as [|? w2]; [|simpl in R1, R2, L1, L2; lia].
    destruct w1 as [|s [|? w1]]; simpl in R1, R2, L1, L2; try lia.
    assert (d2 = d) by (eapply span_inj; [exact S2 | apply span_nil]). subst d2.
    inversion F1 as [|? ? Ps _]; subst.
    destruct S1 as [Ha Hb]. simpl in Ha.
    destruct d as [bef aft]. simpl in Ha. subst aft.
    rewrite digits0_at_nondigit in Hy by (apply sep_not_digit; exact Ps).
    destruct Hy as [<-|[]].
    apply ends_rest in Hx. unfold further, rest in *. simpl. lia.
Qed.

Lemma prefix_split {A : Type} (u : list A) : forall v T Dr,
  u ++ v = T ++ Dr -> length u < length T ->
  exists z r, T = u ++ z :: r /\ v = z :: r ++ Dr.
Proof.
  induction u as [|a u IH]; intros v T Dr E L.
  - destruct T as [|z r]; [simpl in L; lia|]. exists z, r. auto.
  - destruct T as [|a' T]; [simpl in L; lia|].
    simpl in E. injection E as <- E. simpl in L.
    destruct (IH v T Dr E) as (z & r & -> & ->); [lia|].
    exists z, r. auto.
Qed.

Lemma take_while_prefix p (u v : text) :
  Forall (fun x => p x = true) u -> length u <= length (take_while p (u ++ v)).
Proof.
  induction 1 as [|x u Px _ IH]; simpl; [lia|]. rewrite Px. simpl. lia.
Qed.

Lemma take_drop_length p (s : text) :
  length s = length (take_while p s) + length (drop_while p s).
Proof. rewrite <- (take_drop p s) at 1. apply length_app. Qed.

(** A word boundary does not fall inside the first run of digits. *)
Lemma boundary_not_inside c d x :
  In d (ends digits1 c) -> In x (ends tail_pat d) -> at_boundary x = true ->
  rest x <= length (drop_while is_digit (after c)).
Proof.
  intros Hd Hx B.
  destruct (ends_sound _ _ _ Hd) as (a & Sa & Fa & La & _).
  destruct (ends_sound _ _ _ Hx) as (w & Sw & _).
  pose proof (span_app _ _ _ _ _ Sa Sw) as [Ha Hb].
  destruct (Nat.le_gt_cases (rest x) (length (drop_while is_digit (after c))))
    as [|G]; [assumption|exfalso].
  pose proof (take_drop_length is_digit (after c)) as TL.
  assert (L : length (a ++ w) < length (take_while is_digit (after c))).
  { apply (f_equal (@length ascii)) in Ha. rewrite length_app in Ha.
    unfold rest in G. lia. }
  rewrite <- (take_drop is_digit (after c)) in Ha at 1. symmetry in Ha.
  destruct (prefix_split _ _ _ _ Ha L) as (z & r & ET & Ex).
  pose proof (take_while_all is_digit (after c)) as FT. rewrite ET in FT.
  apply Forall_app in FT. destruct FT as [Faw Fz].
  inversion Fz as [|? ? Pz _]; subst.
  unfold at_boundary, word_before, word_after in B. rewrite Ex, Hb in B.
  rewrite (digit_is_word _ Pz) in B.
  destruct (rev (a ++ w)) as [|y l] eqn:R.
  - apply (f_equal (@length ascii)) in R. rewrite length_rev, length_app in R.
    simpl in R, La. lia.
  - assert (Py : is_digit y = true).
    { rewrite Forall_forall in Faw. apply Faw. apply in_rev. rewrite R.
      left. reflexivity. }
    simpl in B. rewrite (digit_is_word _ Py) in B. discriminate.
Qed.

(** Where a digit follows, [[.,]?[0-9]*] stays inside the run of digits. *)
Lemma tail_inside c d x z t :
  In d (ends digits1 c) -> after d = z :: t -> is_digit z = true ->
  In x (ends tail_pat d) ->
  length (drop_while is_digit (after c)) <= rest x.
Proof.
  intros Hd Ed Pz Hx.
  destruct (ends_sound _ _ _ Hd) as (a & Sa & Fa & _).
  change (ends tail_pat d) with (flat_map (ends digits0) (ends opt_sep d)) in Hx.
  destruct d as [bef aft]. simpl in Ed. subst aft.
  rewrite opt_sep_at_nonsep in Hx by (apply digit_not_sep; exact Pz).
  cbn [flat_map] in Hx. rewrite app_nil_r in Hx.
  destruct (ends_sound _ _ _ Hx) as (b & Sb & Fb & _).
  pose proof (span_app _ _ _ _ _ Sa Sb) as [Ha _].
  assert (Fab : Forall (fun x => is_digit x = true) (a ++ b))
    by (apply Forall_app; auto).
  pose proof (take_while_prefix is_digit (a ++ b) (after x) Fab) as L.
  rewrite <- Ha in L.
  pose proof (take_drop_length is_digit (after c)) as TL.
  apply (f_equal (@length ascii)) in Ha. rewrite length_app in Ha.
  unfold rest. lia.
Qed.

(** An end of [[0-9]+] that is not the longest has a digit after it. *)
Lemma digit_follows c d d' :
  In d (ends digits1 c) -> In d' (ends digits1 c) -> further d d' ->
  exists z t, after d' = z :: t /\ is_digit z = true.
Proof.
  intros Hd Hd' Q.
  destruct (ends_sound _ _ _ Hd) as (a & Sa & Fa & _).
  destruct (ends_sound _ _ _ Hd') as (a' & Sa' & _).
  pose proof (span_rest _ _ _ Sa) as R. pose proof (span_rest _ _ _ Sa') as R'.
  destruct Sa as [Ha _], Sa' as [Ha' _]. rewrite Ha in Ha'. symmetry in Ha'.
  unfold further in Q.
  destruct (prefix_split _ _ _ _ Ha') as (z & r & Ea & Ed); [lia|].
  exists z, (r ++ after d). split; [exact Ed|].
  rewrite Ea in Fa. apply Forall_app in Fa. destruct Fa as [_ Fz].
  inversion Fz. assumption.
Qed.

(** The ends of [num_pat] from a position come longest first. *)
Lemma num_ends_sorted c : StronglySorted not_before (ends num_pat c).
Proof.
  unfold num_pat. rewrite ends_bounded.
  destruct (at_boundary c); [|constructor].
  change (ends num_body c) with (flat_map (ends tail_pat) (ends digits1 c)).
  rewrite filter_flat_map.
  apply sorted_flat_map with (Q := further).
  - apply ends_greedy_sorted.
  - intros d _. apply sorted_filter.
    apply (sorted_weaken further); [|apply tail_sorted].
    unfold further, not_before. intros; lia.
  - intros d d' x y Q Hd Hd' Hx Hy.
    apply filter_In in Hx. destruct Hx as [Hx Bx].
    apply filter_In in Hy. destruct Hy as [Hy _].
    pose proof (boundary_not_inside c d x Hd Hx Bx) as Lx.
    destruct (digit_follows c d d' Hd Hd' Q) as (z & t & E & Pz).
    pose proof (tail_inside c d' y z t Hd' E Pz Hy) as Ly.
    unfold not_before. lia.
Qed.

Lemma num_match_longest c e e' :
  match_at num_pat c = Some e -> In e' (ends num_pat c) -> rest e <= rest e'.
Proof.
  unfold match_at. intros M H. pose proof (num_ends_sorted c) as S.
  destruct (ends num_pat c) as [|e0 l]; [discriminate|]. injection M as ->.
  destruct H as [<-|H]; [lia|].
  inversion S as [|? ? _ F]; subst. rewrite Forall_forall in F.
  apply F. exact H.
Qed.

Lemma num_body_wordb_free : wordb_free num_body = true.
Proof. reflexivity. Qed.

Lemma token_is_end s i j :
  is_num_token s i j -> In (cursor_at s j) (ends num_pat (cursor_at s i)).
Proof.
  intros (Hij & Hj & B1 & B2 & Sh). unfold num_pat.
  apply ends_bounded_in. split; [exact B1|]. split; [|exact B2].
  apply (ends_complete num_body _ _ (slice s i j) num_body_wordb_free).
  - apply span_between; assumption.
  - apply num_body_shape. exact Sh.
Qed.

Lemma end_is_token s i e :
  i <= length s -> In e (ends num_pat (cursor_at s i)) ->
  e = cursor_at s (offset e) /\ is_num_token s i (offset e).
Proof.
  intros Hi H. unfold num_pat in H. apply ends_bounded_in in H.
  destruct H as (B1 & H & B2). apply ends_sound in H.
  destruct H as (w & Sw & L).
  pose proof (span_cursor_at _ _ _ _ Sw) as E. split; [exact E|].
  destruct (span_slice _ _ _ _ Hi Sw) as (-> & H1 & H2).
  unfold is_num_token. rewrite <- E.
  repeat split; auto. apply num_body_shape. exact L.
Qed.

Lemma rest_cursor_at s j : j <= length s -> rest (cursor_at s j) = length s - j.
Proof.
  intros H. rewrite cursor_at_eq. unfold rest. simpl.
  apply length_skipn.
Qed.

(** [num_pat.search(s, pos)] finds the leftmost number token at or after
    [pos], and the longest one that starts there. *)
Lemma num_search_some s pos i j :
  pos <= length s -> search num_pat s pos = Some (i, j) ->
  pos <= i /\ is_num_token s i j /\
  (forall i' j', pos <= i' -> is_num_token s i' j' -> i <= i') /\
  (forall j', is_num_token s i j' -> j' <= j).
Proof.
  intros Hp H. apply search_some in H; [|exact Hp].
  destruct H as (H1 & H2 & H3 & M & Hmin).
  split; [exact H1|].
  assert (Hi : i <= length s) by lia.
  pose proof (match_at_in _ _ _ M) as Hin.
  destruct (end_is_token s i _ Hi Hin) as [_ T].
  rewrite cursor_at_offset, Nat.min_l in T by exact H3.
  split; [exact T|]. split.
  - intros i' j' L T'. destruct (Nat.le_gt_cases i i') as [|G]; [assumption|].
    apply token_is_end in T'. rewrite (Hmin i' L G) in T'. contradiction.
  - intros j' T'. pose proof T' as (_ & Hj' & _).
    apply token_is_end in T'.
    pose proof (num_match_longest _ _ _ M T') as R.
    rewrite !rest_cursor_at in R by assumption. lia.
Qed.

Lemma num_search_none s pos :
  pos <= length s -> search num_pat s pos = None ->
  forall i j, pos <= i -> ~ is_num_token s i j.
Proof.
  intros Hp H i j L T. pose proof T as (Hij & Hj & _).
  apply token_is_end in T.
  rewrite (search_none _ _ _ Hp H i L) in T by lia. contradiction.
Qed.

End Token.
Import Token.

(** What the inner loop takes as the value of a decimal metric: when the
    label matches in a cleaned line and ends at offset [e], the leftmost
    match of [num_pat] that starts at or after [e], the longest one
    starting there, with every [,] replaced by [.]; when [num_pat]
    matches nowhere from [e] on, no value. *)
Lemma decimal_value_is_leftmost_token (k : string) (cl : text) (b e : nat) :
  is_bp k = false ->
  search (pattern_of k) cl 0 = Some (b, e) ->
  match line_value k (pattern_of k) cl with
  | Some v =>
      exists i j, e <= i /\ is_num_token cl i j /\
        v = replace_comma (slice cl i j) /\
        (forall i' j', e <= i' -> is_num_token cl i' j' -> i <= i') /\
        (forall j', is_num_token cl i j' -> j' <= j)
  | None => forall i j, e <= i -> ~ is_num_token cl i j
  end.
Proof.
  intros Hk S.
  assert (He : e <= length cl).
  { apply search_some in S; [|lia]. tauto. }
  unfold line_value. rewrite S. unfold is_bp in Hk. rewrite Hk.
  destruct (search num_pat cl e) as [[i j]|] eqn:N.
  - apply num_search_some in N; [|exact He].
    destruct N as (L & T & Hleft & Hlong).
    exists i, j. auto.
  - apply num_search_none; assumption.
Qed.

(** A match of [num_pat] ends with a separator only where a word
    character follows it. *)
Lemma trailing_separator_before_word s pos i j c :
  pos <= length s -> search num_pat s pos = Some (i, S j) ->
  nth_error s j = Some c -> one_of dot_or_comma c = true ->
  exists c', nth_error s (S j) = Some c' /\ is_word c' = true.
Proof.
  intros Hp S N Hc. apply num_search_some in S; [|exact Hp].
  destruct S as (_ & (_ & _ & _ & B & _) & _).
  apply (boundary_after_nonword s j c N); [|exact B].
  apply sep_not_word. exact Hc.
Qed.

(** C3: the code misses the claim where a word character follows the
    number.  On the line ["HbA1c 5.8mg/dL"] the label ends at offset 5 and
    the first token of digits, a separator and digits after it is
    ["5.8"], at offsets 6 to 9; the search of [num_pat] stops at offset 8
    and the value is ["5."].  The closing word boundary fails between [8]
    and [m], the matcher gives the digits after the separator back, and
    the boundary holds between the separator and [8].  With a space
    before the unit the value is ["5.8"], and a separator that a space
    follows is not taken at all: ["HbA1c 7. mg"] gives ["7"].  A match of
    [num_pat] ends with a separator only where a word character
    follows. *)
Theorem C3_separator_kept_before_word_character :
  clean (str "HbA1c 5.8mg/dL") = str "HbA1c 5.8mg/dL" /\
  search (pattern_of "HbA1c") (str "HbA1c 5.8mg/dL") 0 = Some (0, 5) /\
  slice (str "HbA1c 5.8mg/dL") 6 9 = str "5.8" /\
  spec_is_decimal dot_or_comma (str "5.8") = true /\
  search num_pat (str "HbA1c 5.8mg/dL") 5 = Some (6, 8) /\
  slice (str "HbA1c 5.8mg/dL") 6 8 = str "5." /\
  spec_is_decimal dot_or_comma (str "5.") = false /\
  dict_get "HbA1c" (extract_health_values (str "HbA1c 5.8mg/dL"))
    = Some (Some (str "5.")) /\
  dict_get "HbA1c" (extract_health_values (str "HbA1c 5.8 mg/dL"))
    = Some (Some (str "5.8")) /\
  dict_get "HbA1c" (extract_health_values (str "HbA1c 7. mg"))
    = Some (Some (str "7")) /\
  (forall s pos i j c,
     pos <= length s -> search num_pat s pos = Some (i, S j) ->
     nth_error s j = Some c -> one_of dot_or_comma c = true ->
     exists c', nth_error s (S j) = Some c' /\ is_word c' = true).
Proof.
  do 10 (split; [vm_compute; reflexivity|]).
  exact trailing_separator_before_word.
Qed.

(* ------------------------------------------------------------------ *)
(** * Further properties of the extraction *)

(** X1: each metric is decided by its own pattern alone.  For a key of the
    registry the result holds the value of the first line, top to bottom,
    on which that key's label and a value after it are found, and [None]
    when there is no such line; what the other metrics find on the same
    lines plays no part.  Any other key is not in the result. *)
Theorem X1_metric_decided_by_its_own_pattern (t : text) (k : string) :
  dict_get k (extract_health_values t) =
  if existsb (String.eqb k) registry
  then Some (first_value k (pattern_of k) (splitlines t))
  else None.
Proof.
  rewrite extract_get, scan_lines_get.
  destruct (existsb (String.eqb k) registry) eqn:E.
  - apply existsb_eqb_in in E. rewrite (pattern_for_registry _ E).
    destruct (first_value k (pattern_of k) (splitlines t)); reflexivity.
  - rewrite pattern_for_none; [reflexivity|].
    rewrite patterns_keys. intros H. apply existsb_eqb_in in H. congruence.
Qed.

(** X2: a resolved value always comes from a single line: on that line,
    once cleaned, the label of the metric matches and the value stands at
    or after the end of the label; the value is not empty.  A label on one
    line and a number on the next are never put together. *)
Theorem X2_value_stands_after_label_on_one_line (t : text) (k : string)
    (v : text) :
  dict_get k (extract_health_values t) = Some (Some v) ->
  exists line b e i j,
    In line (splitlines t) /\
    search (pattern_of k) (clean line) 0 = Some (b, e) /\
    b < e /\ e <= i /\ i < j /\ j <= length (clean line) /\
    v = (if is_bp k then slice (clean line) i j
         else replace_comma (slice (clean line) i j)) /\
    search (if is_bp k then bp_pat else num_pat) (clean line) e = Some (i, j).
Proof.
  intros H. apply resolved_from_line in H.
  destruct H as (pre & l & post & E & Hk & _ & H).
  pose proof (line_value_nonempty _ _ _ _ H) as Hne.
  apply line_value_some in H.
  destruct H as (b & e & S & He & i & j & H1 & H2 & H3 & H).
  exists l, b, e, i, j. split; [rewrite E; apply in_elt|].
  split; [exact S|].
  assert (Hbe : b < e).
  { destruct (pattern_of_bounded k Hk) as (body & Eb & N). rewrite Eb in S.
    apply bounded_search in S. destruct S as (Hij & _ & _ & _ & L).
    destruct (Nat.eq_dec b e) as [->|]; [|lia].
    unfold slice in L. rewrite Nat.sub_diag in L. simpl in L.
    apply nullable_lang in L. congruence. }
  assert (Hij : i < j).
  { destruct (Nat.eq_dec i j) as [->|]; [|lia]. exfalso. apply Hne.
    destruct (is_bp k); destruct H as [_ ->]; unfold slice;
      rewrite Nat.sub_diag; reflexivity. }
  repeat split; try assumption; destruct (is_bp k); tauto.
Qed.

Lemma X2_value_stands_after_label_on_one_line_witness :
  exists line b e i j,
    In line (splitlines (lines_of ["Albumin"; "4.1 Albumin 3,9"]%string)) /\
    search (pattern_of "Albumin") (clean line) 0 = Some (b, e) /\
    b < e /\ e <= i /\ i < j /\ j <= length (clean line) /\
    str "3.9" = (if is_bp "Albumin" then slice (clean line) i j
                 else replace_comma (slice (clean line) i j)) /\
    search (if is_bp "Albumin" then bp_pat else num_pat) (clean line) e
      = Some (i, j).
Proof.
  refine (X2_value_stands_after_label_on_one_line
            (lines_of ["Albumin"; "4.1 Albumin 3,9"]%string)
            "Albumin" (str "3.9") _).
  vm_compute. reflexivity.
Defined.

(** *** Text without digits *)

Lemma firstn_in {A : Type} (x : A) n l : In x (firstn n l) -> In x l.
Proof. intros H. rewrite <- (firstn_skipn n l). apply in_or_app. auto. Qed.

Lemma skipn_in {A : Type} (x : A) n l : In x (skipn n l) -> In x l.
Proof. intros H. rewrite <- (firstn_skipn n l). apply in_or_app. auto. Qed.

Lemma slice_in x s i j : In x (slice s i j) -> In x s.
Proof. unfold slice. intros H. eapply skipn_in, firstn_in, H. Qed.

Lemma span_after_in c e w x : span c e w -> In x (after e) -> In x (after c).
Proof. intros [H _] Hx. rewrite H. apply in_or_app. auto. Qed.

(** [re.sub] writes only characters of the string and of the replacement. *)
Lemma sub_loop_chars r repl x : forall fuel c,
  In x (sub_loop fuel r repl c) -> In x (after c) \/ In x repl.
Proof.
  induction fuel as [|f IH]; intros c H; [left; exact H|].
  rewrite sub_loop_S in H.
  destruct (scan r (before c) (after c)) as [[b e]|] eqn:Sc; [|left; exact H].
  apply scan_some in Sc. destruct Sc as (u & Su & M & _).
  apply match_at_in, ends_sound in M. destruct M as (w & Sw & _).
  replace (Cursor (before c) (after c)) with c in Su by (destruct c; reflexivity).
  apply in_app_or in H. destruct H as [H|H]; [left; eapply firstn_in, H|].
  apply in_app_or in H. destruct H as [H|H]; [right; exact H|].
  apply IH in H. destruct H as [H|H]; [left|right; exact H].
  eapply span_after_in; [exact Su|]. eapply span_after_in; [exact Sw | exact H].
Qed.

Lemma lstrip_in x s : In x (lstrip s) -> In x s.
Proof.
  induction s as [|y t IH]; simpl; [auto|].
  destruct (is_space y); [right; auto | auto].
Qed.

Lemma strip_in x s : In x (strip s) -> In x s.
Proof.
  unfold strip, rstrip. intros H.
  apply (proj2 (in_rev _ _)), lstrip_in in H.
  apply (proj2 (in_rev _ _)), lstrip_in in H. exact H.
Qed.

(** A cleaned line holds characters of the line and spaces only. *)
Lemma clean_chars x line : In x (clean line) -> In x line \/ x = " "%char.
Proof.
  unfold clean, sub. intros H. apply strip_in, sub_loop_chars in H.
  destruct H as [H|[<-|[]]]; [|right; reflexivity].
  simpl in H. apply sub_loop_chars in H. destruct H as [H|[]]. left. exact H.
Qed.

Lemma num_match_has_digit w :
  lang num_pat w -> exists x, In x w /\ is_digit x = true.
Proof.
  intros L. apply (proj1 (lang_bounded num_body w)), num_body_lang in L.
  destruct L as ([|x a] & s & b & -> & Fa & La & _); [simpl in La; lia|].
  exists x. split; [left; reflexivity|]. inversion Fa. assumption.
Qed.

Lemma bp_match_has_digit w :
  lang bp_pat w -> exists x, In x w /\ is_digit x = true.
Proof.
  intros L. apply bp_pat_lang in L.
  destruct L as ([|x a] & b & -> & Fa & [La _] & _); [simpl in La; lia|].
  exists x. split; [left; reflexivity|]. inversion Fa. assumption.
Qed.

(** A value is found only in a line that holds a digit. *)
Lemma line_value_needs_digit k p cl v :
  line_value k p cl = Some v -> exists x, In x cl /\ is_digit x = true.
Proof.
  intros H. apply line_value_some in H.
  destruct H as (b & e & _ & He & i & j & _ & _ & _ & H).
  destruct (is_bp k); destruct H as [S _];
    apply search_lang in S; try exact He; destruct S as (_ & _ & _ & L);
    [apply bp_match_has_digit in L | apply num_match_has_digit in L];
    destruct L as (x & Hx & Px); exists x; (split; [eapply slice_in, Hx | exact Px]).
Qed.

Lemma splitlines_from_chars : forall n s cur l x,
  length s <= n -> In l (splitlines_from cur s) -> In x l ->
  In x cur \/ In x s.
Proof.
  induction n as [|n IH]; intros s cur l x L H Hx.
  - destruct s; [|simpl in L; lia]. simpl in H.
    destruct cur; [contradiction|]. destruct H as [<-|[]].
    left. apply in_rev. exact Hx.
  - destruct s as [|c t].
    + simpl in H. destruct cur; [contradiction|]. destruct H as [<-|[]].
      left. apply in_rev. exact Hx.
    + simpl in L. cbn [splitlines_from] in H.
      assert (Cut : forall t', length t' <= n ->
                (forall y, In y t' -> In y (c :: t)) ->
                In l (rev cur :: splitlines_from [] t') ->
                In x cur \/ In x (c :: t)).
      { intros t' L' Sub [<-|H']; [left; apply in_rev; exact Hx|].
        destruct (IH t' [] l x L' H' Hx) as [[]|Hin]. right. apply Sub, Hin. }
      destruct (Ascii.eqb c "013").
      * destruct t as [|c' t'];
          [apply (Cut []); [simpl; lia | intros y [] | exact H]|].
        simpl in L.
        destruct (Ascii.eqb c' "010").
        -- apply (Cut t'); [lia | intros y Hy; right; right; exact Hy | exact H].
        -- apply (Cut (c' :: t')); [simpl; lia | intros y Hy; right; exact Hy | exact H].
      * destruct (is_linebreak c).
        -- apply (Cut t); [lia | intros y Hy; right; exact Hy | exact H].
        -- destruct (IH t (c :: cur) l x (le_S_n _ _ L) H Hx) as [[<-|Hc]|Ht].
           ++ right. left. reflexivity.
           ++ left. exact Hc.
           ++ right. right. exact Ht.
Qed.

Lemma splitlines_chars t l x : In l (splitlines t) -> In x l -> In x t.
Proof.
  intros H Hx.
  destruct (splitlines_from_chars (length t) t [] l x (le_n _) H Hx) as [[]|Ht].
  exact Ht.
Qed.

Lemma process_line_no_value res line :
  (forall kp, In kp patterns -> line_value (fst kp) (snd kp) (clean line) = None) ->
  process_line res line = res.
Proof. intros H. unfold process_line. apply inner_loop_no_value. exact H. Qed.

Lemma outer_loop_no_value : forall lines res,
  (forall line, In line lines -> process_line res line = res) ->
  fold_left process_line lines res = res.
Proof.
  induction lines as [|l lines IH]; intros res H; [reflexivity|].
  rewrite fold_left_cons, (H l (or_introl eq_refl)).
  apply IH. intros line Hl. apply H. right. exact Hl.
Qed.

Lemma set_missing_nil : set_missing [] = map (fun k => (k, None)) registry.
Proof. vm_compute. reflexivity. Qed.

(** X3: a text that holds no digit resolves nothing: the result is the
    twelve metrics, in registry order, each mapped to [None], whatever
    labels the text holds. *)
Theorem X3_no_digit_no_value (t : text) :
  (forall x, In x t -> is_digit x = false) ->
  extract_health_values t = map (fun k => (k, None)) registry.
Proof.
  intros H. unfold extract_health_values, scan_lines.
  rewrite outer_loop_no_value; [apply set_missing_nil|].
  intros line Hl. apply process_line_no_value. intros kp _.
  destruct (line_value (fst kp) (snd kp) (clean line)) as [v|] eqn:V;
    [|reflexivity].
  apply line_value_needs_digit in V. destruct V as (x & Hx & Px).
  apply clean_chars in Hx. destruct Hx as [Hx| ->]; [|discriminate].
  apply (splitlines_chars t line x Hl) in Hx. rewrite (H x Hx) in Px.
  discriminate.
Qed.

Lemma X3_no_digit_no_value_witness :
  extract_health_values (lines_of ["Albumin: normal"; "HDL n/a (see note)"]%string)
  = map (fun k => (k, None)) registry.
Proof.
  refine (X3_no_digit_no_value
            (lines_of ["Albumin: normal"; "HDL n/a (see note)"]%string) _).
  intros x H. vm_compute in H.
  repeat (destruct H as [<-|H]; [reflexivity|]). contradiction.
Defined.

(* ------------------------------------------------------------------ *)
(** * Text joined by line feeds *)

(** The value the first text of a list resolves for a key, the texts taken
    one by one. *)
Fixpoint first_resolved (k : string) (texts : list text) : option text :=
  match texts with
  | [] => None
  | t :: more =>
      match final_value t k with
      | Some v => Some v
      | None => first_resolved k more
      end
  end.

Definition is_empty (l : text) : bool :=
  match l with [] => true | _ => false end.

(** The lines that are not empty. *)
Definition nonempty_lines (ls : list text) : list text :=
  filter (fun l => negb (is_empty l)) ls.

Lemma scan_skips_empty_lines : forall ls res,
  fold_left process_line ls res = fold_left process_line (nonempty_lines ls) res.
Proof.
  induction ls as [|l ls IH]; intros res; [reflexivity|].
  unfold nonempty_lines. cbn [filter]. fold (nonempty_lines ls).
  destruct l as [|x l]; cbn [is_empty negb].
  - rewrite fold_left_cons, process_empty_line. apply IH.
  - rewrite !fold_left_cons. apply IH.
Qed.

Lemma nonempty_lines_cons l ls :
  nonempty_lines (l :: ls) = nonempty_lines [l] ++ nonempty_lines ls.
Proof. unfold nonempty_lines. simpl. destruct (is_empty l); reflexivity. Qed.

Lemma nonempty_rev_cur (cur : text) :
  nonempty_lines (match cur with [] => [] | _ => [rev cur] end)
  = nonempty_lines [rev cur].
Proof.
  destruct cur as [|y cur]; [reflexivity|].
  reflexivity.
Qed.

Lemma nonempty_lines_step l A B C :
  nonempty_lines A = nonempty_lines B ++ C ->
  nonempty_lines (l :: A) = nonempty_lines (l :: B) ++ C.
Proof.
  intros H. rewrite (nonempty_lines_cons l A), (nonempty_lines_cons l B), H.
  apply app_assoc.
Qed.

(** The lines of a text, of a line feed and of a second text are the lines
    of the first and the lines of the second, empty lines aside. *)
Lemma splitlines_from_join rest : forall n t cur,
  length t <= n ->
  nonempty_lines (splitlines_from cur (t ++ "010"%char :: rest)) =
  nonempty_lines (splitlines_from cur t) ++ nonempty_lines (splitlines rest).
Proof.
  induction n as [|n IH]; intros t cur L.
  - destruct t; [|simpl in L; lia].
    change ([] ++ "010"%char :: rest) with ("010"%char :: rest).
    cbn [splitlines_from]. change (Ascii.eqb "010" "013") with false.
    change (is_linebreak "010") with true. cbv iota.
    rewrite nonempty_rev_cur. apply nonempty_lines_cons.
  - destruct t as [|c t].
    + change ([] ++ "010"%char :: rest) with ("010"%char :: rest).
      cbn [splitlines_from]. change (Ascii.eqb "010" "013") with false.
      change (is_linebreak "010") with true. cbv iota.
      rewrite nonempty_rev_cur. apply nonempty_lines_cons.
    + simpl in L. rewrite <- app_comm_cons. cbn [splitlines_from].
      destruct (Ascii.eqb c "013").
      * destruct t as [|c' t'].
        -- change ([] ++ "010"%char :: rest) with ("010"%char :: rest).
           change (Ascii.eqb "010" "010") with true. cbv iota.
           cbn [splitlines_from]. apply nonempty_lines_cons.
        -- rewrite <- app_comm_cons. simpl in L.
           destruct (Ascii.eqb c' "010").
           ++ apply nonempty_lines_step, IH. lia.
           ++ apply nonempty_lines_step. rewrite app_comm_cons.
              apply IH. simpl. lia.
      * destruct (is_linebreak c).
        -- apply nonempty_lines_step, IH. lia.
        -- apply IH. lia.
Qed.

Lemma scan_lines_join t1 t2 :
  scan_lines (splitlines (t1 ++ "010"%char :: t2)) =
  fold_left process_line (splitlines t2) (scan_lines (splitlines t1)).
Proof.
  unfold scan_lines at 1. rewrite scan_skips_empty_lines. unfold splitlines at 1.
  rewrite (splitlines_from_join t2 (length t1) t1 [] (le_n _)).
  rewrite fold_left_app, <- !scan_skips_empty_lines. reflexivity.
Qed.

Lemma extract_join t1 t2 k :
  dict_get k (extract_health_values (t1 ++ "010"%char :: t2)) =
  match dict_get k (extract_health_values t1) with
  | Some (Some v) => Some (Some v)
  | _ => dict_get k (extract_health_values t2)
  end.
Proof.
  unfold extract_health_values at 1. rewrite set_missing_get, scan_lines_join.
  rewrite outer_loop_get, !extract_get, !scan_lines_get.
  destruct (pattern_for k patterns) as [p|].
  - destruct (first_value k p (splitlines t1)) as [v|]; [reflexivity|].
    destruct (first_value k p (splitlines t2)) as [v|];
      destruct (existsb (String.eqb k) registry); reflexivity.
  - destruct (existsb (String.eqb k) registry); reflexivity.
Qed.

(** X4: text added after a line feed never changes what the text before it
    resolved.  The result for [t1], a line feed, [t2] holds for each key
    the value [t1] alone resolves, and where [t1] resolves none, what [t2]
    alone gives. *)
Theorem X4_earlier_text_wins (t1 t2 : text) (k : string) :
  dict_get k (extract_health_values (t1 ++ "010"%char :: t2)) =
  match dict_get k (extract_health_values t1) with
  | Some (Some v) => Some (Some v)
  | _ => dict_get k (extract_health_values t2)
  end.
Proof. apply extract_join. Qed.

Lemma extract_final_value t k :
  In k registry ->
  dict_get k (extract_health_values t) = Some (final_value t k).
Proof.
  intros H. rewrite extract_get. unfold final_value.
  destruct (dict_get k (scan_lines (splitlines t))); [reflexivity|].
  apply existsb_eqb_in in H. rewrite H. reflexivity.
Qed.

(* ------------------------------------------------------------------ *)
(** * The ratio taken for Blood Pressure *)

(** A ratio of the string [s]: from offset [i] to offset [j], two or three
    digits, [/], two or three digits.  Nothing is asked of the characters
    around it. *)
Definition is_ratio_at (s : text) (i j : nat) : Prop :=
  i <= j /\ j <= length s /\ is_ratio (slice s i j) = true.

Definition digits23 : regex := Rep true is_digit 2 (Some 3).

(** [/[0-9]{2,3}] *)
Definition slash_digits : regex := Seq (Chr (is_char "/")) digits23.

Lemma bp_pat_eq : bp_pat = Seq digits23 slash_digits.
Proof. reflexivity. Qed.

(** After a shorter end of a greedy repetition comes one more character of
    the class. *)
Lemma shorter_end_has_more p lo hi c d d' :
  In d (ends (Rep true p lo hi) c) -> In d' (ends (Rep true p lo hi) c) ->
  further d d' ->
  exists z t, after d' = z :: t /\ p z = true.
Proof.
  intros Hd Hd' Q.
  destruct (ends_sound _ _ _ Hd) as (a & Sa & Fa & _).
  destruct (ends_sound _ _ _ Hd') as (a' & Sa' & _).
  pose proof (span_rest _ _ _ Sa) as R. pose proof (span_rest _ _ _ Sa') as R'.
  destruct Sa as [Ha _], Sa' as [Ha' _]. rewrite Ha in Ha'. symmetry in Ha'.
  unfold further in Q.
  destruct (prefix_split _ _ _ _ Ha') as (z & r & Ea & Ed); [lia|].
  exists z, (r ++ after d). split; [exact Ed|].
  rewrite Ea in Fa. apply Forall_app in Fa. destruct Fa as [_ Fz].
  inversion Fz. assumption.
Qed.

Lemma slash_digits_sorted d : StronglySorted further (ends slash_digits d).
Proof.
  change (ends slash_digits d)
    with (flat_map (ends digits23) (ends (Chr (is_char "/")) d)).
  apply sorted_flat_map with (Q := fun _ _ => False).
  - cbn [ends]. destruct (after d) as [|x t]; [constructor|].
    destruct (is_char "/" x); repeat constructor.
  - intros d' _. apply ends_greedy_sorted.
  - intros ? ? ? ? [].
Qed.

Lemma slash_digits_head d y :
  In y (ends slash_digits d) -> exists t, after d = "/"%char :: t.
Proof.
  intros H. apply ends_sound in H.
  destruct H as (w & [Ha _] & u & v & -> & (x & -> & Px) & _).
  apply Ascii.eqb_eq in Px. subst x. exists (v ++ after y). exact Ha.
Qed.

(** The ends of [bp_pat] from a position come longest first. *)
Lemma bp_ends_sorted c : StronglySorted further (ends bp_pat c).
Proof.
  rewrite bp_pat_eq.
  change (ends (Seq digits23 slash_digits) c)
    with (flat_map (ends slash_digits) (ends digits23 c)).
  apply sorted_flat_map with (Q := further).
  - apply ends_greedy_sorted.
  - intros d _. apply slash_digits_sorted.
  - intros d d' x y Q Hd Hd' _ Hy. exfalso.
    destruct (shorter_end_has_more _ _ _ c d d' Hd Hd' Q) as (z & t & E & Pz).
    destruct (slash_digits_head d' y Hy) as (t' & E').
    rewrite E in E'. injection E' as -> _. discriminate.
Qed.

Lemma bp_match_longest c e e' :
  match_at bp_pat c = Some e -> In e' (ends bp_pat c) -> rest e <= rest e'.
Proof.
  unfold match_at. intros M H. pose proof (bp_ends_sorted c) as S.
  destruct (ends bp_pat c) as [|e0 l]; [discriminate|]. injection M as ->.
  destruct H as [<-|H]; [lia|].
  inversion S as [|? ? _ F]; subst. rewrite Forall_forall in F.
  apply F in H. unfold further in H. lia.
Qed.

Lemma bp_wordb_free : wordb_free bp_pat = true.
Proof. reflexivity. Qed.

Lemma ratio_is_end s i j :
  is_ratio_at s i j -> In (cursor_at s j) (ends bp_pat (cursor_at s i)).
Proof.
  intros (Hij & Hj & Sh).
  apply (ends_complete bp_pat _ _ (slice s i j) bp_wordb_free).
  - apply span_between; assumption.
  - apply bp_pat_shape. exact Sh.
Qed.

Lemma end_is_ratio s i e :
  i <= length s -> In e (ends bp_pat (cursor_at s i)) ->
  is_ratio_at s i (offset e).
Proof.
  intros Hi H. apply ends_sound in H. destruct H as (w & Sw & L).
  destruct (span_slice _ _ _ _ Hi Sw) as (-> & H1 & H2).
  repeat split; auto. apply bp_pat_shape. exact L.
Qed.

(** [bp_pat.search(s, pos)] finds the leftmost ratio at or after [pos],
    and the longest one that starts there. *)
Lemma bp_search_some s pos i j :
  pos <= length s -> search bp_pat s pos = Some (i, j) ->
  pos <= i /\ is_ratio_at s i j /\
  (forall i' j', pos <= i' -> is_ratio_at s i' j' -> i <= i') /\
  (forall j', is_ratio_at s i j' -> j' <= j).
Proof.
  intros Hp H. apply search_some in H; [|exact Hp].
  destruct H as (H1 & H2 & H3 & M & Hmin).
  split; [exact H1|].
  assert (Hi : i <= length s) by lia.
  pose proof (end_is_ratio s i _ Hi (match_at_in _ _ _ M)) as T.
  rewrite cursor_at_offset, Nat.min_l in T by exact H3.
  split; [exact T|]. split.
  - intros i' j' L T'. destruct (Nat.le_gt_cases i i') as [|G]; [assumption|].
    apply ratio_is_end in T'. rewrite (Hmin i' L G) in T'. contradiction.
  - intros j' T'. pose proof T' as (_ & Hj' & _).
    apply ratio_is_end in T'.
    pose proof (bp_match_longest _ _ _ M T') as R.
    rewrite !rest_cursor_at in R by assumption. lia.
Qed.

Lemma bp_search_none s pos :
  pos <= length s -> search bp_pat s pos = None ->
  forall i j, pos <= i -> ~ is_ratio_at s i j.
Proof.
  intros Hp H i j L T. pose proof T as (Hij & Hj & _).
  apply ratio_is_end in T.
  rewrite (search_none _ _ _ Hp H i L) in T by lia. contradiction.
Qed.

(** X6: when the label of Blood Pressure matches in a cleaned line and ends
    at offset [e], the value taken from that line is the leftmost ratio --
    two or three digits, [/], two or three digits -- that starts at or
    after [e], the longest one starting there, copied as it stands.  The
    ratio need not be a word of its own: it may be cut out of longer runs
    of digits.  When no ratio starts at or after [e] the line gives no
    value. *)
Theorem X6_blood_pressure_is_first_ratio (cl : text) (b e : nat) :
  search (pattern_of "Blood Pressure") cl 0 = Some (b, e) ->
  match line_value "Blood Pressure" (pattern_of "Blood Pressure") cl with
  | Some v =>
      exists i j, e <= i /\ is_ratio_at cl i j /\ v = slice cl i j /\
        (forall i' j', e <= i' -> is_ratio_at cl i' j' -> i <= i') /\
        (forall j', is_ratio_at cl i j' -> j' <= j)
  | None => forall i j, e <= i -> ~ is_ratio_at cl i j
  end.
Proof.
  intros S.
  assert (He : e <= length cl).
  { apply search_some in S; [|lia]. tauto. }
  unfold line_value. rewrite S.
  change (String.eqb "Blood Pressure" "Blood Pressure") with true. cbv iota.
  destruct (search bp_pat cl e) as [[i j]|] eqn:N.
  - apply bp_search_some in N; [|exact He].
    destruct N as (L & T & Hleft & Hlong).
    exists i, j. auto.
  - apply bp_search_none; assumption.
Qed.

Lemma X6_blood_pressure_is_first_ratio_witness :
  match line_value "Blood Pressure" (pattern_of "Blood Pressure")
          (str "BP 1120/8000 mmHg") with
  | Some v =>
      exists i j, 2 <= i /\ is_ratio_at (str "BP 1120/8000 mmHg") i j /\
        v = slice (str "BP 1120/8000 mmHg") i j /\
        (forall i' j', 2 <= i' ->
           is_ratio_at (str "BP 1120/8000 mmHg") i' j' -> i <= i') /\
        (forall j', is_ratio_at (str "BP 1120/8000 mmHg") i j' -> j' <= j)
  | None => forall i j, 2 <= i -> ~ is_ratio_at (str "BP 1120/8000 mmHg") i j
  end.
Proof.
  refine (X6_blood_pressure_is_first_ratio (str "BP 1120/8000 mmHg") 0 2 _).
  vm_compute. reflexivity.
Defined.

(* ------------------------------------------------------------------ *)
(** * The case of the letters of the input *)

(** Two strings that differ in the case of letters only. *)
Definition same_letters (s s' : text) : Prop := map lower s = map lower s'.

(** Two matches at positions that differ in the case of letters only. *)
Definition same_match (m m' : option (cursor * cursor)) : Prop :=
  match m, m' with
  | Some (b, e), Some (b', e') => same_fold b b' /\ same_fold e e'
  | None, None => True
  | _, _ => False
  end.

(** Not an ASCII letter. *)
Definition not_letter (x : ascii) : bool :=
  negb (between 65 90 x) && negb (between 97 122 x).

Lemma caseless_same p x x' :
  caseless p = true -> lower x = lower x' -> p x = p x'.
Proof.
  intros C E. rewrite <- (caseless_spec p x C), <- (caseless_spec p x' C), E.
  reflexivity.
Qed.

Lemma lower_not_letter x : not_letter x = true -> lower x = x.
Proof. destruct x as [[] [] [] [] [] [] [] []]; vm_compute; congruence. Qed.

Lemma lower_cases x : lower x = x \/ not_letter (lower x) = false.
Proof.
  destruct x as [[] [] [] [] [] [] [] []]; vm_compute; auto.
Qed.

Lemma not_letter_same x x' :
  not_letter x = true -> lower x = lower x' -> x = x'.
Proof.
  intros N E. rewrite (lower_not_letter x N) in E.
  destruct (lower_cases x') as [H|H]; [congruence|].
  rewrite <- E in H. congruence.
Qed.

Lemma not_letter_same_text : forall w w',
  Forall (fun x => not_letter x = true) w -> same_letters w w' -> w = w'.
Proof.
  unfold same_letters.
  induction w as [|x w IH]; intros [|x' w'] F E; try discriminate; [reflexivity|].
  inversion F as [|? ? Nx Fw]; subst. simpl in E. injection E as Ex Ew.
  f_equal; [apply not_letter_same; assumption | apply IH; assumption].
Qed.

Lemma digit_not_letter x : is_digit x = true -> not_letter x = true.
Proof. destruct x as [[] [] [] [] [] [] [] []]; vm_compute; congruence. Qed.

Lemma sep_not_letter x : one_of dot_or_comma x = true -> not_letter x = true.
Proof. destruct x as [[] [] [] [] [] [] [] []]; vm_compute; congruence. Qed.

Lemma num_match_not_letters w :
  lang num_pat w -> Forall (fun x => not_letter x = true) w.
Proof.
  intros L. apply (proj1 (lang_bounded num_body w)), num_body_lang in L.
  destruct L as (a & s & b & -> & Fa & _ & Fs & _ & Fb).
  repeat (apply Forall_app; split);
    (eapply Forall_impl; [|eassumption]); simpl;
    auto using digit_not_letter, sep_not_letter.
Qed.

Lemma bp_match_not_letters w :
  lang bp_pat w -> Forall (fun x => not_letter x = true) w.
Proof.
  intros L. apply bp_pat_lang in L.
  destruct L as (a & b & -> & Fa & _ & Fb & _).
  apply Forall_app. split; [|constructor; [reflexivity|]];
    (eapply Forall_impl; [|eassumption]); simpl; auto using digit_not_letter.
Qed.

Lemma num_pat_caseless : caseless_regex num_pat = true.
Proof. vm_compute. reflexivity. Qed.

Lemma bp_pat_caseless : caseless_regex bp_pat = true.
Proof. vm_compute. reflexivity. Qed.

Lemma paren_pat_caseless : caseless_regex paren_pat = true.
Proof. vm_compute. reflexivity. Qed.

Lemma ws_pat_caseless : caseless_regex ws_pat = true.
Proof. vm_compute. reflexivity. Qed.

Lemma is_space_caseless : caseless is_space = true.
Proof. vm_compute. reflexivity. Qed.

Lemma is_linebreak_caseless : caseless is_linebreak = true.
Proof. vm_compute. reflexivity. Qed.

Lemma is_cr_caseless : caseless (fun x => Ascii.eqb x "013") = true.
Proof. vm_compute. reflexivity. Qed.

Lemma is_lf_caseless : caseless (fun x => Ascii.eqb x "010") = true.
Proof. vm_compute. reflexivity. Qed.

Lemma scan_same_match r : caseless_regex r = true ->
  forall aft aft' bef bef',
  map lower bef = map lower bef' -> map lower aft = map lower aft' ->
  same_match (scan r bef aft) (scan r bef' aft').
Proof.
  intros C.
  assert (M : forall c c', same_fold c c' ->
            match match_at r c, match_at r c' with
            | Some e, Some e' => same_fold e e'
            | None, None => True
            | _, _ => False
            end).
  { intros c c' S. unfold match_at.
    destruct (ends_same_fold r C c c' S); auto. }
  induction aft as [|x t IH]; intros [|x' t'] bef bef' Hb Ha;
    try discriminate; simpl.
  - specialize (M (Cursor bef []) (Cursor bef' []) (conj Hb Ha)).
    destruct (match_at r (Cursor bef [])), (match_at r (Cursor bef' []));
      simpl; try contradiction; auto.
    split; [split; assumption | exact M].
  - specialize (M (Cursor bef (x :: t)) (Cursor bef' (x' :: t')) (conj Hb Ha)).
    destruct (match_at r (Cursor bef (x :: t))),
             (match_at r (Cursor bef' (x' :: t')));
      simpl; try contradiction.
    + split; [split; assumption | exact M].
    + simpl in Ha. injection Ha as Ex Et. apply IH; simpl; congruence.
Qed.

Lemma advance_same_fold : forall n c c',
  same_fold c c' -> same_fold (advance n c) (advance n c').
Proof.
  induction n as [|n IH]; intros [bef aft] [bef' aft'] [Hb Ha]; simpl in *;
    [split; assumption|].
  destruct aft as [|x t], aft' as [|x' t']; try discriminate;
    [split; assumption|].
  simpl in Ha. injection Ha as Ex Et. apply IH. split; simpl; congruence.
Qed.

(** [search] from any offset finds the same offsets. *)
Lemma search_same_letters r s s' pos :
  caseless_regex r = true -> same_letters s s' ->
  search r s pos = search r s' pos.
Proof.
  intros C E. unfold search, scan_from.
  assert (S : same_fold (cursor_at s pos) (cursor_at s' pos)).
  { apply advance_same_fold. split; [reflexivity | exact E]. }
  destruct S as [Hb Ha].
  pose proof (scan_same_match r C _ _ _ _ Hb Ha) as H.
  destruct (scan r _ (after (cursor_at s pos))) as [[b e]|],
           (scan r _ (after (cursor_at s' pos))) as [[b' e']|];
    simpl in H; try contradiction; [|reflexivity].
  destruct H as [Sb Se].
  rewrite (same_fold_offset _ _ Sb), (same_fold_offset _ _ Se). reflexivity.
Qed.

Lemma slice_same_letters s s' i j :
  same_letters s s' -> same_letters (slice s i j) (slice s' i j).
Proof.
  unfold same_letters, slice. intros E.
  rewrite <- !firstn_map, <- !skipn_map, E. reflexivity.
Qed.

(** A cleaned line gives the same value whatever the case of its letters. *)
Lemma line_value_same_letters k p cl cl' :
  caseless_regex p = true -> same_letters cl cl' ->
  line_value k p cl = line_value k p cl'.
Proof.
  intros C E. unfold line_value.
  rewrite (search_same_letters p cl cl' 0 C E).
  destruct (search p cl' 0) as [[b e]|] eqn:S; [|reflexivity].
  assert (He : e <= length cl').
  { apply search_some in S; [|lia]. tauto. }
  destruct (String.eqb k "Blood Pressure").
  - rewrite (search_same_letters bp_pat cl cl' e bp_pat_caseless E).
    destruct (search bp_pat cl' e) as [[i j]|] eqn:S2; [|reflexivity].
    apply search_lang in S2; [|exact He]. destruct S2 as (_ & _ & _ & L).
    f_equal. symmetry. apply not_letter_same_text.
    + apply bp_match_not_letters. exact L.
    + apply slice_same_letters. symmetry. exact E.
  - rewrite (search_same_letters num_pat cl cl' e num_pat_caseless E).
    destruct (search num_pat cl' e) as [[i j]|] eqn:S2; [|reflexivity].
    apply search_lang in S2; [|exact He]. destruct S2 as (_ & _ & _ & L).
    do 2 f_equal. symmetry. apply not_letter_same_text.
    + apply num_match_not_letters. exact L.
    + apply slice_same_letters. symmetry. exact E.
Qed.

Lemma sub_loop_same_letters r repl : caseless_regex r = true ->
  forall fuel c c', same_fold c c' ->
  same_letters (sub_loop fuel r repl c) (sub_loop fuel r repl c').
Proof.
  intros C. unfold same_letters.
  induction fuel as [|f IH]; intros c c' S; [exact (proj2 S)|].
  rewrite !sub_loop_S. pose proof S as [Hb Ha].
  pose proof (scan_same_match r C _ _ _ _ Hb Ha) as H.
  destruct (scan r (before c) (after c)) as [[b e]|],
           (scan r (before c') (after c')) as [[b' e']|];
    simpl in H; try contradiction; [|exact Ha].
  destruct H as [Sb Se].
  rewrite !map_app, <- !firstn_map, Ha, (IH e e' Se).
  rewrite (same_fold_offset _ _ Sb), (same_fold_offset _ _ S). reflexivity.
Qed.

Lemma sub_same_letters r repl s s' :
  caseless_regex r = true -> same_letters s s' ->
  same_letters (sub r repl s) (sub r repl s').
Proof.
  intros C E. unfold sub.
  replace (length s') with (length s).
  - apply sub_loop_same_letters; [exact C|]. split; [reflexivity | exact E].
  - apply (f_equal (@length ascii)) in E. rewrite !length_map in E. exact E.
Qed.

Lemma lstrip_same_letters : forall s s',
  same_letters s s' -> same_letters (lstrip s) (lstrip s').
Proof.
  unfold same_letters.
  induction s as [|x s IH]; intros [|x' s'] E; try discriminate; [reflexivity|].
  simpl in E. injection E as Ex Es. simpl.
  rewrite (caseless_same is_space x x' is_space_caseless Ex).
  destruct (is_space x'); [apply IH; exact Es | simpl; congruence].
Qed.

Lemma rev_same_letters s s' :
  same_letters s s' -> same_letters (rev s) (rev s').
Proof. unfold same_letters. intros E. rewrite !map_rev, E. reflexivity. Qed.

Lemma clean_same_letters l l' :
  same_letters l l' -> same_letters (clean l) (clean l').
Proof.
  intros E. unfold clean, strip, rstrip.
  apply rev_same_letters, lstrip_same_letters, rev_same_letters,
    lstrip_same_letters.
  apply sub_same_letters; [exact ws_pat_caseless|].
  apply sub_same_letters; [exact paren_pat_caseless | exact E].
Qed.

Lemma splitlines_from_same_letters : forall n s s' cur cur',
  length s <= n -> same_letters cur cur' -> same_letters s s' ->
  Forall2 same_letters (splitlines_from cur s) (splitlines_from cur' s').
Proof.
  unfold same_letters.
  induction n as [|n IH]; intros s s' cur cur' L Ec E.
  - destruct s; [|simpl in L; lia]. destruct s'; [|discriminate]. simpl.
    destruct cur, cur'; try discriminate; repeat constructor.
    rewrite !map_rev, Ec. reflexivity.
  - destruct s as [|c t], s' as [|c' t']; try discriminate.
    + simpl. destruct cur, cur'; try discriminate; repeat constructor.
      rewrite !map_rev, Ec. reflexivity.
    + simpl in L, E. injection E as Ex Et. cbn [splitlines_from].
      assert (Rc : map lower (rev cur) = map lower (rev cur'))
        by (rewrite !map_rev, Ec; reflexivity).
      rewrite (caseless_same _ c c' is_cr_caseless Ex).
      rewrite (caseless_same _ c c' is_linebreak_caseless Ex).
      destruct (Ascii.eqb c' "013").
      * destruct t as [|d t1], t' as [|d' t1']; try discriminate.
        -- constructor; [exact Rc | constructor].
        -- simpl in Et. injection Et as Ed Et1.
           rewrite (caseless_same _ d d' is_lf_caseless Ed).
           destruct (Ascii.eqb d' "010"); (constructor; [exact Rc|]).
           ++ apply IH; [simpl in L; lia | reflexivity | exact Et1].
           ++ apply IH; [simpl in L |- *; lia | reflexivity | simpl; congruence].
      * destruct (is_linebreak c').
        -- constructor; [exact Rc|]. apply IH; [lia | reflexivity | exact Et].
        -- apply IH; [lia | simpl; congruence | exact Et].
Qed.

Lemma inner_loop_ext cl cl' : forall (ps : list (string * regex)) res,
  (forall kp, In kp ps ->
     line_value (fst kp) (snd kp) cl = line_value (fst kp) (snd kp) cl') ->
  fold_left (try_metric cl) ps res = fold_left (try_metric cl') ps res.
Proof.
  induction ps as [|kp ps IH]; intros res H; [reflexivity|].
  rewrite !fold_left_cons.
  assert (E : try_metric cl res kp = try_metric cl' res kp).
  { unfold try_metric. rewrite (H kp (or_introl eq_refl)). reflexivity. }
  rewrite E. apply IH. intros kp' Hk. apply H. right. exact Hk.
Qed.

Lemma process_line_same_letters res l l' :
  same_letters l l' -> process_line res l = process_line res l'.
Proof.
  intros E. unfold process_line. apply inner_loop_ext. intros kp H.
  apply line_value_same_letters; [|apply clean_same_letters; exact E].
  pose proof patterns_caseless as C. rewrite forallb_forall in C.
  apply C. exact H.
Qed.

(** X7: the result does not depend on the case of the letters of the
    input.  Two texts that differ only in upper and lower case of the
    letters A to Z give the same result, entry for entry and in the same
    order. *)
Theorem X7_letter_case_is_irrelevant (t t' : text) :
  map lower t = map lower t' ->
  extract_health_values t = extract_health_values t'.
Proof.
  intros E. unfold extract_health_values, scan_lines. f_equal.
  pose proof (splitlines_from_same_letters (length t) t t' [] []
                (le_n _) eq_refl E) as F.
  fold (splitlines t) in F. fold (splitlines t') in F.
  generalize (@nil (string * option text)).
  induction F as [|l l' ls ls' Hl _ IH]; intros res; [reflexivity|].
  rewrite !fold_left_cons, (process_line_same_letters res l l' Hl).
  apply IH.
Qed.

Lemma X7_letter_case_is_irrelevant_witness :
  extract_health_values (lines_of ["hba1C 5.8%"; "Blood PRESSURE 120/80"]%string)
  = extract_health_values (lines_of ["HbA1c 5.8%"; "BLOOD pressure 120/80"]%string).
Proof.
  refine (X7_letter_case_is_irrelevant
            (lines_of ["hba1C 5.8%"; "Blood PRESSURE 120/80"]%string)
            (lines_of ["HbA1c 5.8%"; "BLOOD pressure 120/80"]%string) _).
  vm_compute. reflexivity.
Defined.

(* ------------------------------------------------------------------ *)
(** * The callers: text extraction, the upload route, the command line *)

(** ** [os.path.splitext] and [str.lower] *)

Fixpoint text_eqb (a b : text) : bool :=
  match a, b with
  | [], [] => true
  | x :: a', y :: b' => Ascii.eqb x y && text_eqb a' b'
  | _, _ => false
  end.

(** [str.lower] on a character of the range: the ASCII capitals and the
    capitals U+00C0..U+00DE other than the multiplication sign. *)
Definition to_lower (c : ascii) : ascii :=
  if between 65 90 c || between 192 214 c || between 216 222 c
  then ascii_of_N (code c + 32) else c.

Definition str_lower (s : text) : text := map to_lower s.

(** [p.rfind(x)] for a single character [x]: the index of the last [x] of
    [p], or -1.  [rfind_from x p i] is the search in a suffix [p] that
    starts at index [i]. *)
Fixpoint rfind_from (x : ascii) (p : text) (i : Z) : Z :=
  match p with
  | [] => (-1)%Z
  | c :: t =>
      let later := rfind_from x t (i + 1)%Z in
      if (0 <=? later)%Z then later
      else if Ascii.eqb c x then i else (-1)%Z
  end.

Definition rfind (x : ascii) (p : text) : Z := rfind_from x p 0%Z.

(** The [while] loop of [genericpath._splitext]: the split at [dotIndex]
    as soon as a character other than the dot stands at [filenameIndex];
    [None] when the loop ends without [return]. *)
Fixpoint splitext_loop (fuel : nat) (p : text) (filenameIndex dotIndex : Z)
    : option (text * text) :=
  match fuel with
  | 0 => None
  | S fuel' =>
      if (filenameIndex <? dotIndex)%Z then
        if negb (text_eqb (slice p (Z.to_nat filenameIndex)
                                   (Z.to_nat (filenameIndex + 1)))
                          (str "."))
        then Some (firstn (Z.to_nat dotIndex) p, skipn (Z.to_nat dotIndex) p)
        else splitext_loop fuel' p (filenameIndex + 1)%Z dotIndex
      else None
  end.

(** [os.path.splitext] of [posixpath]: the separator is [/], there is no
    alternative separator, and the extension starts at the last dot of
    the last component unless only dots come before it there. *)
Definition splitext (p : text) : text * text :=
  let sepIndex := rfind "/" p in
  let dotIndex := rfind "." p in
  match
    (if (sepIndex <? dotIndex)%Z
     then splitext_loop (length p) p (sepIndex + 1)%Z dotIndex
     else None)
  with
  | Some r => r
  | None => (p, [])
  end.

(** ** [jsonify] and the order of the keys *)

(** [jsonify] writes an object with its keys sorted ([sort_keys], which
    Flask turns on by default): the entries of the dictionary in the
    order of their keys, strings compared character by character on code
    points. *)
Fixpoint insert_sorted (kv : string * option text) (d : dict) : dict :=
  match d with
  | [] => [kv]
  | kv' :: rest =>
      if String.leb (fst kv) (fst kv') then kv :: d
      else kv' :: insert_sorted kv rest
  end.

Definition sort_keys (d : dict) : dict := fold_right insert_sorted [] d.

(** ** The program around [extract_health_values] *)

(** What a JSON answer of the route holds; the entries of an object in
    the order in which the body lists them. *)
Inductive json : Type :=
| Error (error : string)
| ExtractedValues (extracted_values : dict).

(** What [main] prints: its two error lines, the text under its heading,
    the heading of the values and one line for each entry. *)
Inductive printed : Type :=
| NotFound (file_path : text)
| UnsupportedExtension (ext : text)
| ExtractedText (t : text)
| ValuesHeading
| Value (key : string) (value : option text).

Section Program.

(** What lies outside the program.  A document opened by [fitz.open] is
    the list of its pages; [page_text] renders a page and recognises its
    text ([get_pixmap], [Image.open], [image_to_string]); [image_text]
    opens an image file and recognises its text; [path_exists] is
    [os.path.exists].  Each of the three recognisers may raise, and then
    [Raised] holds what [str] gives for the exception. *)
Variable page : Type.
Variable fitz_open : text -> outcome (list page).
Variable page_text : page -> outcome text.
Variable image_text : text -> outcome text.
Variable path_exists : text -> bool.

(** An uploaded file ([werkzeug]'s [FileStorage]) and the files of a
    request, a multi-dictionary: a test for a key finds any entry with
    it, a read gives the first.  [save_temp file ext] creates the
    named temporary file with suffix [ext] and saves the upload there; it
    gives the name of the file, or [file.save] raises. *)
Variable stored : Type.
Record FileStorage : Type := { filename : text; stream : stored }.
Variable save_temp : FileStorage -> text -> outcome text.

(** The loop of [extract_text_from_pdf] (lines 18-23). *)
Fixpoint pages_loop (doc : list page) (full_text : text) : outcome text :=
  match doc with
  | [] => Returned full_text
  | p :: more =>
      match page_text p with
      | Raised e => Raised e
      | Returned t => pages_loop more (full_text ++ (t ++ str LF))
      end
  end.

(** [extract_text_from_pdf] (lines 15-25). *)
Definition extract_text_from_pdf (pdf_path : text) : outcome text :=
  match fitz_open pdf_path with
  | Raised e => Raised e
  | Returned doc => pages_loop doc []
  end.

(** [extract_text_from_image] (lines 27-31). *)
Definition extract_text_from_image (image_path : text) : outcome text :=
  image_text image_path.

(** [upload_file] (lines 87-109): the answer and its status.  [jsonify]
    lists the extracted values by sorted key.  The [finally] clause
    removes the temporary file and changes no answer; the trace of
    [extract_health_values] is taken to be written. *)
Definition upload_file (files : list (string * FileStorage)) : json * nat :=
  match find (fun kv => String.eqb (fst kv) "file") files with
  | None => (Error "No file part in the request", 400)
  | Some (_, file) =>
      if text_eqb (filename file) (str "") then (Error "No file selected", 400)
      else
        let ext := str_lower (snd (splitext (filename file))) in
        if negb (existsb (text_eqb ext)
                   (map str [".pdf"; ".jpg"; ".jpeg"; ".png"]%string))
        then (Error "Unsupported file type", 400)
        else
          match save_temp file ext with
          | Raised e => (Error e, 500)
          | Returned temp_name =>
              match
                (if text_eqb ext (str ".pdf")
                 then extract_text_from_pdf temp_name
                 else extract_text_from_image temp_name)
              with
              | Raised e => (Error e, 500)
              | Returned t =>
                  (ExtractedValues (sort_keys (extract_health_values t)), 200)
              end
          end
  end.

(** [main] (lines 113-138) once the argument [--file] is parsed: what it
    prints, or the exception that ends it.  The trace that
    [extract_health_values] prints on the way is left out, as in its
    embedding. *)
Definition main (file_path : text) : outcome (list printed) :=
  if negb (path_exists file_path) then Returned [NotFound file_path]
  else
    let ext := str_lower (snd (splitext file_path)) in
    match
      (if text_eqb ext (str ".pdf")
       then Some (extract_text_from_pdf file_path)
       else if existsb (text_eqb ext) (map str [".jpg"; ".jpeg"; ".png"]%string)
       then Some (extract_text_from_image file_path)
       else None)
    with
    | None => Returned [UnsupportedExtension ext]
    | Some (Raised e) => Raised e
    | Some (Returned t) =>
        Returned (ExtractedText t :: ValuesHeading ::
                  map (fun kv => Value (fst kv) (snd kv))
                      (extract_health_values t))
    end.

End Program.
Arguments filename {stored} f.
Arguments stream {stored} f.
Arguments Build_FileStorage {stored} filename stream.
Arguments pages_loop {page} page_text doc full_text.
Arguments extract_text_from_pdf {page} fitz_open page_text pdf_path.
Arguments upload_file {page} fitz_open page_text image_text {stored} save_temp files.
Arguments main {page} fitz_open page_text image_text path_exists file_path.

(** ** File names and their extension *)

(** The name [name] ends with the extension [e]: after a directory part
    that is empty or ends with [/], a last component [base] that holds
    some character other than the dot, then a dot and [e], where [e] has
    neither dot nor [/]. *)
Definition has_extension (name e : text) : Prop :=
  exists dir base,
    name = dir ++ base ++ "."%char :: e /\
    (dir = [] \/ exists d, dir = d ++ ["/"%char]) /\
    ~ In "/"%char base /\
    (exists x, In x base /\ x <> "."%char) /\
    ~ In "."%char e /\ ~ In "/"%char e.

(** The extensions the program reads. *)
Definition supported_extensions : list text :=
  map str ["pdf"; "jpg"; "jpeg"; "png"]%string.

Lemma text_eqb_eq a b : text_eqb a b = true <-> a = b.
Proof.
  revert b. induction a as [|x a IH]; intros [|y b]; simpl;
    try (split; [discriminate|discriminate]); [tauto|].
  rewrite andb_true_iff, IH. split.
  - intros [E ->]. apply Ascii.eqb_eq in E. subst. reflexivity.
  - intros E. injection E as -> ->. split; [apply Ascii.eqb_refl|reflexivity].
Qed.

Lemma text_eqb_refl a : text_eqb a a = true.
Proof. apply text_eqb_eq. reflexivity. Qed.

Lemma text_eqb_neq a b : text_eqb a b = false <-> a <> b.
Proof.
  split.
  - intros E H. apply text_eqb_eq in H. congruence.
  - intros H. destruct (text_eqb a b) eqn:E; [|reflexivity].
    apply text_eqb_eq in E. contradiction.
Qed.

Lemma existsb_text_eqb a l : existsb (text_eqb a) l = true <-> In a l.
Proof.
  rewrite existsb_exists. split.
  - intros (b & I & E). apply text_eqb_eq in E. subst. exact I.
  - intros I. exists a. split; [exact I|apply text_eqb_refl].
Qed.

Lemma rfind_from_none x p : forall i, ~ In x p -> rfind_from x p i = (-1)%Z.
Proof.
  induction p as [|c p IH]; intros i H; [reflexivity|].
  cbn [rfind_from]. rewrite IH by (intros I; apply H; right; exact I).
  cbn [Z.leb Z.compare].
  destruct (Ascii.eqb_spec c x) as [->|_]; [|reflexivity].
  exfalso. apply H. left. reflexivity.
Qed.

Lemma rfind_from_last x post : ~ In x post -> forall pre i,
  (0 <= i)%Z ->
  rfind_from x (pre ++ x :: post) i = (i + Z.of_nat (length pre))%Z.
Proof.
  intros H. induction pre as [|c pre IH]; intros i Hi.
  - cbn [app rfind_from length]. rewrite rfind_from_none by exact H.
    cbn [Z.leb Z.compare]. rewrite Ascii.eqb_refl. lia.
  - cbn [app rfind_from length]. rewrite IH by lia.
    destruct (Z.leb_spec 0 (i + 1 + Z.of_nat (length pre))); lia.
Qed.

Lemma last_split (x : ascii) p :
  In x p -> exists pre post, p = pre ++ x :: post /\ ~ In x post.
Proof.
  induction p as [|c p IH]; intros H; [destruct H|].
  destruct (in_dec ascii_dec x p) as [I|N].
  - destruct (IH I) as (pre & post & -> & Hp). exists (c :: pre), post.
    split; [reflexivity|exact Hp].
  - destruct H as [->|I]; [|contradiction]. exists [], p.
    split; [reflexivity|exact N].
Qed.

Lemma rfind_cases x p :
  (rfind x p = (-1)%Z /\ ~ In x p) \/
  (exists pre post, p = pre ++ x :: post /\ ~ In x post /\
                    rfind x p = Z.of_nat (length pre)).
Proof.
  destruct (in_dec ascii_dec x p) as [I|N].
  - right. destruct (last_split x p I) as (pre & post & -> & Hp).
    exists pre, post. split; [reflexivity|]. split; [exact Hp|].
    unfold rfind. rewrite rfind_from_last by (exact Hp || lia). lia.
  - left. split; [apply rfind_from_none; exact N|exact N].
Qed.

Lemma slice_one (front : text) x rest :
  slice (front ++ x :: rest) (length front) (S (length front)) = [x].
Proof.
  unfold slice. rewrite skipn_app, skipn_all, Nat.sub_diag.
  replace (S (length front) - length front) with 1 by lia. reflexivity.
Qed.

Lemma splitext_loop_spec rest di : forall base front fuel,
  length base <= fuel ->
  di = Z.of_nat (length front + length base) ->
  splitext_loop fuel (front ++ base ++ rest) (Z.of_nat (length front)) di =
  if existsb (fun x => negb (Ascii.eqb x "."%char)) base
  then Some (firstn (Z.to_nat di) (front ++ base ++ rest),
             skipn (Z.to_nat di) (front ++ base ++ rest))
  else None.
Proof.
  induction base as [|x base IH]; intros front fuel Hf Hd.
  - cbn [existsb]. destruct fuel as [|fuel]; [reflexivity|].
    cbn [splitext_loop]. cbn [length] in Hd.
    destruct (Z.ltb_spec (Z.of_nat (length front)) di); [lia|reflexivity].
  - cbn [length] in Hf, Hd. destruct fuel as [|fuel]; [lia|].
    cbn [splitext_loop existsb].
    destruct (Z.ltb_spec (Z.of_nat (length front)) di); [|lia].
    replace (Z.to_nat (Z.of_nat (length front) + 1)) with (S (length front))
      by lia.
    rewrite Nat2Z.id. cbn [app]. rewrite slice_one.
    cbn [str list_ascii_of_string text_eqb]. rewrite andb_true_r.
    destruct (Ascii.eqb x "."%char); cbn [negb orb]; [|reflexivity].
    specialize (IH (front ++ [x]) fuel).
    rewrite length_app in IH. cbn [length] in IH.
    replace (Z.of_nat (length front) + 1)%Z
      with (Z.of_nat (length front + 1)) by lia.
    rewrite <- app_assoc in IH. cbn [app] in IH. apply IH; lia.
Qed.

(** A name with an extension is split before the dot of the extension. *)
Lemma splitext_has_extension name e :
  has_extension name e ->
  exists root, name = root ++ "."%char :: e /\
               splitext name = (root, "."%char :: e).
Proof.
  intros (dir & base & -> & Hdir & Hb & (x & Ix & Nx) & He & Hs).
  exists (dir ++ base). split; [rewrite <- app_assoc; reflexivity|].
  assert (Hdot : rfind "." (dir ++ base ++ "."%char :: e)
                 = Z.of_nat (length dir + length base)).
  { unfold rfind. rewrite app_assoc, rfind_from_last by (exact He || lia).
    rewrite length_app. lia. }
  assert (Hsep : (rfind "/" (dir ++ base ++ "."%char :: e) + 1)%Z
                 = Z.of_nat (length dir)).
  { assert (N : ~ In "/"%char (base ++ "."%char :: e)).
    { intros I. apply in_app_or in I. destruct I as [I|[I|I]];
        [contradiction|discriminate|contradiction]. }
    destruct Hdir as [->|(d & ->)].
    - cbn [app length]. unfold rfind. rewrite rfind_from_none by exact N.
      reflexivity.
    - rewrite <- app_assoc. cbn [app]. unfold rfind.
      rewrite rfind_from_last by (exact N || lia).
      rewrite length_app. cbn [length]. lia. }
  unfold splitext. cbv zeta. rewrite Hdot, Hsep.
  destruct (Z.ltb_spec (rfind "/" (dir ++ base ++ "."%char :: e))
              (Z.of_nat (length dir + length base))) as [_|L]; [|lia].
  rewrite (splitext_loop_spec ("."%char :: e) _ base dir)
    by (rewrite ?length_app; lia || reflexivity).
  assert (E : existsb (fun x => negb (Ascii.eqb x "."%char)) base = true).
  { apply existsb_exists. exists x. split; [exact Ix|].
    destruct (Ascii.eqb_spec x "."%char); [contradiction|reflexivity]. }
  rewrite E, Nat2Z.id, <- length_app, (app_assoc dir base).
  rewrite firstn_app, firstn_all, Nat.sub_diag, skipn_app, skipn_all,
    Nat.sub_diag. cbn [firstn skipn app]. rewrite app_nil_r. reflexivity.
Qed.

Lemma app_cons_split (x y : ascii) : forall a b c d,
  a ++ x :: b = c ++ y :: d -> length c < length a ->
  exists m, a = c ++ y :: m /\ d = m ++ x :: b.
Proof.
  induction a as [|h a IH]; intros b c d E L; [cbn in L; lia|].
  destruct c as [|h' c].
  - cbn [app] in E. injection E as -> <-. exists a. split; reflexivity.
  - cbn [app] in E. injection E as -> E. cbn [length] in L.
    destruct (IH b c d E) as (m & -> & ->); [lia|].
    exists m. split; reflexivity.
Qed.

(** What [splitext] gives as the extension is empty, or a dot and the
    extension of the name. *)
Lemma splitext_ext name :
  snd (splitext name) = [] \/
  exists e, snd (splitext name) = "."%char :: e /\ has_extension name e.
Proof.
  destruct (splitext name) as [root ext] eqn:S. cbn [snd].
  unfold splitext in S. cbv zeta in S.
  destruct (Z.ltb_spec (rfind "/" name) (rfind "." name)) as [L|L];
    [|left; congruence].
  destruct (rfind_cases "." name)
    as [[Ed _]|(pre & e & Hn & He & Ed)].
  { destruct (rfind_cases "/" name) as [[Es _]|(a & b & _ & _ & Es)]; lia. }
  assert (D : exists dir base, pre = dir ++ base /\
                (dir = [] \/ exists d, dir = d ++ ["/"%char]) /\
                ~ In "/"%char base /\ ~ In "/"%char e /\
                (rfind "/" name + 1)%Z = Z.of_nat (length dir)).
  { destruct (rfind_cases "/" name)
      as [[Es N]|(d & post & Hn' & Hp & Es)].
    - exists [], pre. rewrite Hn in N. split; [reflexivity|].
      split; [left; reflexivity|]. rewrite Es.
      repeat split; try reflexivity; intros I; apply N, in_or_app;
        [left|right; right]; exact I.
    - rewrite Hn in Hn'. apply app_cons_split in Hn'; [|lia].
      destruct Hn' as (m & -> & ->). exists (d ++ ["/"%char]), m.
      rewrite <- app_assoc. split; [reflexivity|].
      split; [right; exists d; reflexivity|]. rewrite Es, length_app.
      cbn [length].
      repeat split; try lia; intros I; apply Hp, in_or_app;
        [left|right; right]; exact I. }
  destruct D as (dir & base & -> & Hdir & Hb & Hs & Esep).
  rewrite Esep, Ed, Hn, <- app_assoc in S. rewrite length_app in S.
  rewrite (splitext_loop_spec ("."%char :: e) _ base dir) in S
    by (rewrite ?length_app; lia || reflexivity).
  destruct (existsb (fun x => negb (Ascii.eqb x "."%char)) base) eqn:E.
  - right. exists e. injection S as _ <-.
    rewrite Nat2Z.id, (app_assoc dir base), skipn_app, skipn_all,
      Nat.sub_diag. cbn [skipn app]. split; [reflexivity|].
    exists dir, base. rewrite Hn, <- app_assoc.
    split; [reflexivity|]. split; [exact Hdir|]. split; [exact Hb|].
    split; [|split; [exact He|exact Hs]].
    apply existsb_exists in E. destruct E as (x & Ix & Nx). exists x.
    split; [exact Ix|]. intros ->. discriminate.
  - left. congruence.
Qed.

Lemma str_lower_dot e : str_lower ("."%char :: e) = "."%char :: str_lower e.
Proof. reflexivity. Qed.

(** The test of the route on the lowered extension, in terms of the
    name. *)
Lemma supported_iff name :
  existsb (text_eqb (str_lower (snd (splitext name))))
    (map str [".pdf"; ".jpg"; ".jpeg"; ".png"]%string) = true <->
  exists e, has_extension name e /\ In (str_lower e) supported_extensions.
Proof.
  rewrite existsb_text_eqb. split.
  - intros I. destruct (splitext_ext name) as [E|(e & E & H)].
    + rewrite E in I. cbn in I. intuition discriminate.
    + exists e. split; [exact H|]. rewrite E, str_lower_dot in I.
      cbn [map str list_ascii_of_string In] in I.
      unfold supported_extensions. cbn [map str list_ascii_of_string In].
      destruct I as [I|[I|[I|[I|[]]]]]; injection I as <-; auto.
  - intros (e & H & I). apply splitext_has_extension in H.
    destruct H as (root & _ & ->). cbn [snd]. rewrite str_lower_dot.
    unfold supported_extensions in I.
    cbn [map str list_ascii_of_string In] in I |- *.
    destruct I as [I|[I|[I|[I|[]]]]]; rewrite <- I; auto.
Qed.

(** ** The pages of a document *)

Lemma pages_loop_eq (page : Type) (page_text : page -> outcome text) :
  forall doc texts acc,
  Forall2 (fun p t => page_text p = Returned t) doc texts ->
  pages_loop page_text doc acc =
  Returned (acc ++ flat_map (fun t => t ++ ["010"%char]) texts).
Proof.
  intros doc texts acc F. revert acc.
  induction F as [|p t doc texts E F IH]; intros acc.
  - cbn [pages_loop flat_map]. rewrite app_nil_r. reflexivity.
  - cbn [pages_loop flat_map]. rewrite E, IH, <- app_assoc. reflexivity.
Qed.

Lemma first_page_wins texts k :
  In k registry ->
  dict_get k (extract_health_values
                (flat_map (fun t => t ++ ["010"%char]) texts)) =
  Some (first_resolved k texts).
Proof.
  intros Hk. induction texts as [|t texts IH].
  - cbn [flat_map first_resolved].
    rewrite extract_final_value by exact Hk. reflexivity.
  - cbn [flat_map first_resolved]. rewrite <- app_assoc. cbn [app].
    rewrite extract_join, IH, (extract_final_value t) by exact Hk.
    destruct (final_value t k); reflexivity.
Qed.

(** X5: in a document of several pages the first page that resolves a
    metric decides it.  When the document opens and a text is recognised
    on every page, [extract_text_from_pdf] returns, and the result of
    [extract_health_values] for what it returns holds, for each key of
    the registry, the value resolved by the first page to resolve that
    key when its text is taken alone, and [None] when no page does. *)
Theorem X5_first_page_wins (page : Type)
    (fitz_open : text -> outcome (list page))
    (page_text : page -> outcome text)
    (pdf_path : text) (doc : list page) (texts : list text) (k : string) :
  In k registry ->
  fitz_open pdf_path = Returned doc ->
  Forall2 (fun p t => page_text p = Returned t) doc texts ->
  exists full_text,
    extract_text_from_pdf fitz_open page_text pdf_path = Returned full_text /\
    dict_get k (extract_health_values full_text) =
    Some (first_resolved k texts).
Proof.
  intros Hk Ho F. unfold extract_text_from_pdf. rewrite Ho.
  rewrite (pages_loop_eq page page_text doc texts [] F). cbn [app].
  eexists. split; [reflexivity|]. apply first_page_wins. exact Hk.
Qed.

Lemma X5_first_page_wins_witness :
  exists full_text,
    extract_text_from_pdf
      (fun _ => Returned ["LDL 130"; "HDL 41"; "HDL 52"]%string)
      (fun s => Returned (str s)) (str "report.pdf") = Returned full_text /\
    dict_get "HDL" (extract_health_values full_text) =
    Some (first_resolved "HDL" (map str ["LDL 130"; "HDL 41"; "HDL 52"]%string)).
Proof.
  refine (X5_first_page_wins string
            (fun _ => Returned ["LDL 130"; "HDL 41"; "HDL 52"]%string)
            (fun s => Returned (str s)) (str "report.pdf")
            ["LDL 130"; "HDL 41"; "HDL 52"]%string
            (map str ["LDL 130"; "HDL 41"; "HDL 52"]%string) "HDL" _ _ _).
  - vm_compute. auto 12.
  - reflexivity.
  - repeat constructor.
Defined.

(** ** The file names the route accepts *)

Lemma text_eqb_nil_false (s : text) : s <> [] -> text_eqb s (str "") = false.
Proof. intros H. apply text_eqb_neq. exact H. Qed.

(** X8: which uploads are refused for their type.  For a request with a
    file part whose name is not empty, the route answers "Unsupported file
    type" with status 400 exactly when the name has no extension that
    reads pdf, jpg, jpeg or png once lowered; the extension is what
    follows the last dot of the last component of the name, and a
    component with only dots before that dot has none. *)
Theorem X8_refused_file_names (page stored : Type)
    (fitz_open : text -> outcome (list page))
    (page_text : page -> outcome text)
    (image_text : text -> outcome text)
    (save_temp : FileStorage stored -> text -> outcome text)
    (files : list (string * FileStorage stored))
    (key : string) (file : FileStorage stored) :
  find (fun kv => String.eqb (fst kv) "file") files = Some (key, file) ->
  filename file <> [] ->
  upload_file fitz_open page_text image_text save_temp files
    = (Error "Unsupported file type", 400) <->
  ~ exists e, has_extension (filename file) e /\
              In (str_lower e) supported_extensions.
Proof.
  intros Hf Hn. unfold upload_file. rewrite Hf.
  rewrite (text_eqb_nil_false _ Hn). cbv zeta.
  rewrite <- supported_iff.
  destruct (existsb _ _) eqn:E; cbn [negb].
  - split; [|intros H; exfalso; apply H; reflexivity].
    intros H. exfalso.
    destruct (save_temp _ _); [|discriminate].
    destruct (if text_eqb _ _ then _ else _); discriminate.
  - split; [intros _ H; discriminate|reflexivity].
Qed.

Lemma X8_refused_file_names_witness :
  upload_file (page := unit) (fun _ => Returned []) (fun _ => Returned [])
    (fun _ => Returned (str "HbA1c 5.8")) (fun _ _ => Returned (str "/tmp/tmpq3.png"))
    [("file"%string, Build_FileStorage (str "scans/.png") tt)]
    = (Error "Unsupported file type", 400) <->
  ~ exists e, has_extension (str "scans/.png") e /\
              In (str_lower e) supported_extensions.
Proof.
  refine (X8_refused_file_names unit unit (fun _ => Returned [])
            (fun _ => Returned []) (fun _ => Returned (str "HbA1c 5.8"))
            (fun _ _ => Returned (str "/tmp/tmpq3.png"))
            [("file"%string, Build_FileStorage (str "scans/.png") tt)]
            "file" (Build_FileStorage (str "scans/.png") tt) _ _).
  - reflexivity.
  - simpl. discriminate.
Defined.

(** ** The route and the command line *)

Lemma supported_pdf_or_image (ext : text) :
  existsb (text_eqb ext) (map str [".pdf"; ".jpg"; ".jpeg"; ".png"]%string) =
  text_eqb ext (str ".pdf")
  || existsb (text_eqb ext) (map str [".jpg"; ".jpeg"; ".png"]%string).
Proof. reflexivity. Qed.

(** The order of [sort_keys]: each key is at most the next. *)
Definition by_key (a b : string * option text) : Prop :=
  String.leb (fst a) (fst b) = true.

Lemma insert_sorted_perm kv d : Permutation (insert_sorted kv d) (kv :: d).
Proof.
  induction d as [|kv' d IH]; cbn [insert_sorted]; [reflexivity|].
  destruct (String.leb (fst kv) (fst kv')); [reflexivity|].
  rewrite IH. apply perm_swap.
Qed.

Lemma sort_keys_perm d : Permutation (sort_keys d) d.
Proof.
  induction d as [|kv d IH]; [reflexivity|]. cbn [sort_keys fold_right].
  rewrite insert_sorted_perm. apply perm_skip. exact IH.
Qed.

Lemma insert_sorted_head kv kv0 d :
  by_key kv0 kv -> HdRel by_key kv0 d -> HdRel by_key kv0 (insert_sorted kv d).
Proof.
  intros H Hd. destruct d as [|kv' d]; cbn [insert_sorted].
  - constructor. exact H.
  - destruct (String.leb (fst kv) (fst kv')); constructor; [exact H|].
    inversion Hd. assumption.
Qed.

Lemma insert_sorted_sorted kv d :
  Sorted by_key d -> Sorted by_key (insert_sorted kv d).
Proof.
  induction d as [|kv' d IH]; intros S; cbn [insert_sorted].
  - repeat constructor.
  - inversion S as [|? ? S' Hd]; subst.
    destruct (String.leb (fst kv) (fst kv')) eqn:L.
    + constructor; [exact S|]. constructor. exact L.
    + constructor; [apply IH; exact S'|].
      apply insert_sorted_head; [|exact Hd]. unfold by_key.
      destruct (String.leb_total (fst kv) (fst kv')) as [T|T]; congruence.
Qed.

Lemma sort_keys_sorted d : Sorted by_key (sort_keys d).
Proof.
  induction d as [|kv d IH]; [constructor|].
  cbn [sort_keys fold_right]. apply insert_sorted_sorted. exact IH.
Qed.



(** The keys of the answer on an example: sorted, where the dictionary
    has them in the order of insertion. *)
Example sorted_answer :
  keys (sort_keys (extract_health_values (str "LDL 130 HDL 40"))) =
  [ "Albumin"; "BMI"; "Blood Pressure"; "CK"; "Cholesterol"; "HDL";
    "HbA1c"; "LDH"; "LDL"; "Plasma Glucose"; "TSH"; "Triglycerides" ]%string /\
  keys (extract_health_values (str "LDL 130 HDL 40")) =
  [ "HDL"; "LDL"; "Plasma Glucose"; "HbA1c"; "Triglycerides"; "Albumin";
    "Cholesterol"; "BMI"; "Blood Pressure"; "TSH"; "LDH"; "CK" ]%string.
Proof. split; vm_compute; reflexivity. Qed.

(** X10: the answers of the route.  An answer that holds extracted values
    has status 200, holds each key of the registry exactly once, and is
    given only to a request whose file part has a name with one of the
    four extensions; every other answer is an error message with status
    400 or 500. *)
Theorem X10_answers_of_the_route (page stored : Type)
    (fitz_open : text -> outcome (list page))
    (page_text : page -> outcome text)
    (image_text : text -> outcome text)
    (save_temp : FileStorage stored -> text -> outcome text)
    (files : list (string * FileStorage stored)) :
  match upload_file fitz_open page_text image_text save_temp files with
  | (ExtractedValues d, status) =>
      status = 200 /\ Permutation (keys d) registry /\ NoDup (keys d) /\
      exists key file e,
        find (fun kv => String.eqb (fst kv) "file") files = Some (key, file) /\
        has_extension (filename file) e /\
        In (str_lower e) supported_extensions
  | (Error _, status) => status = 400 \/ status = 500
  end.
Proof.
  unfold upload_file.
  destruct (find _ files) as [[key file]|]; [|left; reflexivity].
  destruct (text_eqb (filename file) (str "")); [left; reflexivity|].
  cbv zeta. destruct (existsb _ _) eqn:E; cbn [negb]; [|left; reflexivity].
  apply supported_iff in E. destruct E as (e & He & Ie).
  destruct (save_temp _ _) as [temp_name|]; [|right; reflexivity].
  destruct (if text_eqb _ _ then _ else _) as [t|]; [|right; reflexivity].
  assert (P : Permutation (keys (sort_keys (extract_health_values t)))
                          (keys (extract_health_values t))).
  { apply Permutation_map, sort_keys_perm. }
  split; [reflexivity|].
  split; [rewrite P; apply extract_keys_perm|].
  split; [apply (Permutation_NoDup (Permutation_sym P)), extract_keys_nodup|].
  exists key, file, e. auto.
Qed.

(* ------------------------------------------------------------------ *)
(** * The shape of a cleaned line *)

(** No [(] of the string comes before a [)]. *)
Fixpoint parens_done (s : text) : bool :=
  match s with
  | [] => true
  | x :: t =>
      (negb (is_char "(" x) || negb (existsb (is_char ")") t))
      && parens_done t
  end.

(** The string is empty or starts with a character that is no
    whitespace. *)
Definition starts_solid (s : text) : Prop :=
  match s with [] => True | x :: _ => is_space x = false end.

Definition starts_solidb (s : text) : bool :=
  match s with [] => true | x :: _ => negb (is_space x) end.

(** Each whitespace character of the string is a space that stands before
    a character that is no whitespace, or at the end. *)
Fixpoint spaced (s : text) : bool :=
  match s with
  | [] => true
  | x :: t =>
      (negb (is_space x) || (Ascii.eqb x " " && starts_solidb t))
      && spaced t
  end.

Lemma starts_solidb_iff s : starts_solidb s = true <-> starts_solid s.
Proof.
  destruct s as [|x t]; simpl; [tauto|]. destruct (is_space x); simpl.
  - split; discriminate.
  - tauto.
Qed.

Lemma after_close_none t :
  after_close t = None <-> existsb (is_char ")") t = false.
Proof.
  induction t as [|x t IH]; simpl; [tauto|].
  destruct (is_char ")" x); simpl; [split; discriminate|exact IH].
Qed.

Lemma after_close_exists t rest :
  after_close t = Some rest ->
  existsb (is_char ")") rest = true -> existsb (is_char ")") t = true.
Proof.
  revert rest. induction t as [|x t IH]; simpl; intros rest A E;
    [discriminate|].
  destruct (is_char ")" x); simpl; [reflexivity|]. eapply IH; eassumption.
Qed.

(** Removing the parenthesised spans brings no [)] in. *)
Lemma remove_parens_close : forall n s,
  existsb (is_char ")") s = false ->
  existsb (is_char ")") (remove_parens n s) = false.
Proof.
  induction n as [|n IH]; intros s H; [exact H|].
  destruct s as [|x t]; [reflexivity|]. cbn [remove_parens].
  cbn [existsb] in H. apply orb_false_iff in H. destruct H as [Hx Ht].
  destruct (is_char "(" x).
  - destruct (after_close t) as [rest|] eqn:A.
    + apply after_close_none in Ht. congruence.
    + cbn [existsb]. rewrite Hx, IH by exact Ht. reflexivity.
  - cbn [existsb]. rewrite Hx, IH by exact Ht. reflexivity.
Qed.

Lemma remove_parens_done : forall n s,
  length s <= n -> parens_done (remove_parens n s) = true.
Proof.
  induction n as [|n IH]; intros s L.
  - destruct s; [reflexivity|cbn in L; lia].
  - destruct s as [|x t]; [reflexivity|]. cbn [length] in L.
    cbn [remove_parens]. destruct (is_char "(" x) eqn:P.
    + destruct (after_close t) as [rest|] eqn:A.
      * apply IH. apply after_close_length in A. lia.
      * cbn [parens_done]. rewrite IH by lia.
        apply after_close_none in A.
        rewrite (remove_parens_close n t A). rewrite orb_true_r. reflexivity.
    + cbn [parens_done]. rewrite P, IH by lia. reflexivity.
Qed.

Lemma parens_done_app u v :
  parens_done (u ++ v) = true -> parens_done u = true /\ parens_done v = true.
Proof.
  induction u as [|x u IH]; cbn [app parens_done]; [tauto|].
  intros H. apply andb_true_iff in H. destruct H as [H1 H2].
  destruct (IH H2) as [Hu Hv]. split; [|exact Hv].
  rewrite Hu, andb_true_r. apply orb_true_iff in H1.
  destruct H1 as [H1|H1]; [rewrite H1; reflexivity|].
  rewrite existsb_app in H1. apply negb_true_iff, orb_false_iff in H1.
  destruct H1 as [H1 _]. rewrite H1. apply orb_true_r.
Qed.

Lemma space_not_close x : is_space x = true -> is_char ")" x = false.
Proof.
  intros H. destruct (is_char ")" x) eqn:E; [|reflexivity].
  apply Ascii.eqb_eq in E. subst x. discriminate.
Qed.

Lemma space_not_open x : is_space x = true -> is_char "(" x = false.
Proof.
  intros H. destruct (is_char "(" x) eqn:E; [|reflexivity].
  apply Ascii.eqb_eq in E. subst x. discriminate.
Qed.

Lemma drop_spaces_close t :
  existsb (is_char ")") (drop_while is_space t) = existsb (is_char ")") t.
Proof.
  induction t as [|x t IH]; [reflexivity|]. cbn [drop_while].
  destruct (is_space x) eqn:S; [|reflexivity].
  cbn [existsb]. rewrite (space_not_close x S). exact IH.
Qed.

Lemma drop_while_suffix (p : ascii -> bool) t :
  exists a, t = a ++ drop_while p t.
Proof. exists (take_while p t). symmetry. apply take_drop. Qed.

Lemma parens_done_drop p t :
  parens_done t = true -> parens_done (drop_while p t) = true.
Proof.
  intros H. destruct (drop_while_suffix p t) as (a & E). rewrite E in H.
  apply parens_done_app in H. apply H.
Qed.

Lemma collapse_close : forall n s,
  existsb (is_char ")") (collapse n s) = existsb (is_char ")") s.
Proof.
  induction n as [|n IH]; intros s; [reflexivity|].
  destruct s as [|x t]; [reflexivity|]. cbn [collapse].
  destruct (is_space x) eqn:S; cbn [existsb].
  - rewrite IH, drop_spaces_close, (space_not_close x S). reflexivity.
  - rewrite IH. reflexivity.
Qed.

Lemma collapse_done : forall n s,
  parens_done s = true -> parens_done (collapse n s) = true.
Proof.
  induction n as [|n IH]; intros s H; [exact H|].
  destruct s as [|x t]; [reflexivity|]. cbn [collapse].
  cbn [parens_done] in H. apply andb_true_iff in H. destruct H as [H1 H2].
  destruct (is_space x) eqn:S; cbn [parens_done].
  - rewrite IH by (apply parens_done_drop; exact H2). reflexivity.
  - rewrite collapse_close, H1, IH by exact H2. reflexivity.
Qed.

Lemma collapse_head : forall n s,
  starts_solid s -> starts_solidb (collapse n s) = true.
Proof.
  intros [|n] [|x t] H; try reflexivity.
  - cbn in H |- *. rewrite H. reflexivity.
  - cbn [collapse]. cbn in H. rewrite H. cbn. rewrite H. reflexivity.
Qed.

Lemma collapse_spaced : forall n s,
  length s <= n -> spaced (collapse n s) = true.
Proof.
  induction n as [|n IH]; intros s L.
  - destruct s; [reflexivity|cbn in L; lia].
  - destruct s as [|x t]; [reflexivity|]. cbn [length] in L.
    cbn [collapse]. destruct (is_space x) eqn:S; cbn [spaced].
    + pose proof (drop_while_length is_space t).
      rewrite IH by lia. rewrite collapse_head by apply drop_while_head.
      rewrite orb_true_r. reflexivity.
    + rewrite S, IH by lia. reflexivity.
Qed.

Lemma spaced_app u v :
  spaced (u ++ v) = true -> spaced u = true /\ spaced v = true.
Proof.
  induction u as [|x u IH]; cbn [app spaced]; [tauto|].
  intros H. apply andb_true_iff in H. destruct H as [H1 H2].
  destruct (IH H2) as [Hu Hv]. split; [|exact Hv].
  rewrite Hu, andb_true_r. apply orb_true_iff in H1.
  destruct H1 as [H1|H1]; [rewrite H1; reflexivity|].
  apply andb_true_iff in H1. destruct H1 as [H1 H3]. rewrite H1.
  destruct u as [|y u]; [apply orb_true_r|].
  cbn in H3 |- *. rewrite H3. apply orb_true_r.
Qed.

(** What [spec_trim] leaves: a segment of the string, between
    whitespace, that neither starts nor ends with whitespace. *)
Lemma trim_segment s :
  exists a b, s = a ++ spec_trim s ++ b /\
    starts_solid (spec_trim s) /\ starts_solid (rev (spec_trim s)).
Proof.
  unfold spec_trim.
  destruct (drop_while_suffix is_space s) as (a & Ea).
  destruct (drop_while_suffix is_space (rev (drop_while is_space s)))
    as (b & Eb).
  exists a, (rev b). split; [|split].
  - rewrite <- rev_app_distr, <- Eb, rev_involutive. exact Ea.
  - pose proof (drop_while_head is_space s) as H.
    apply (f_equal (@rev ascii)) in Eb.
    rewrite rev_involutive, rev_app_distr in Eb.
    destruct (rev (drop_while is_space (rev (drop_while is_space s))))
      as [|y u]; [exact I|].
    rewrite Eb in H. exact H.
  - rewrite rev_involutive. apply drop_while_head.
Qed.

Lemma drop_while_solid s : starts_solid s -> drop_while is_space s = s.
Proof.
  destruct s as [|x t]; [reflexivity|]. cbn. intros ->. reflexivity.
Qed.

Lemma trim_fixed s :
  starts_solid s -> starts_solid (rev s) -> spec_trim s = s.
Proof.
  intros H1 H2. unfold spec_trim.
  rewrite (drop_while_solid s H1), (drop_while_solid (rev s) H2).
  apply rev_involutive.
Qed.

Lemma collapse_fixed : forall n s, spaced s = true -> collapse n s = s.
Proof.
  induction n as [|n IH]; intros s H; [reflexivity|].
  destruct s as [|x t]; [reflexivity|]. cbn [collapse].
  cbn [spaced] in H. apply andb_true_iff in H. destruct H as [H1 H2].
  destruct (is_space x) eqn:S.
  - cbn [negb orb] in H1. apply andb_true_iff in H1. destruct H1 as [E H3].
    apply Ascii.eqb_eq in E. subst x. apply starts_solidb_iff in H3.
    rewrite (drop_while_solid t H3), IH by exact H2. reflexivity.
  - rewrite IH by exact H2. reflexivity.
Qed.

Lemma parens_done_close t :
  existsb (is_char ")") t = false -> parens_done t = true.
Proof.
  induction t as [|x t IH]; [reflexivity|]. cbn [existsb parens_done].
  intros H. apply orb_false_iff in H. destruct H as [_ H].
  rewrite H, IH by exact H. rewrite orb_true_r. reflexivity.
Qed.

Lemma remove_parens_fixed : forall n s,
  parens_done s = true -> remove_parens n s = s.
Proof.
  induction n as [|n IH]; intros s H; [reflexivity|].
  destruct s as [|x t]; [reflexivity|]. cbn [remove_parens].
  cbn [parens_done] in H. apply andb_true_iff in H. destruct H as [H1 H2].
  destruct (is_char "(" x).
  - cbn [negb orb] in H1. apply negb_true_iff in H1.
    rewrite (proj2 (after_close_none t) H1), IH by exact H2. reflexivity.
  - rewrite IH by exact H2. reflexivity.
Qed.

(** The three properties of a cleaned line. *)
Lemma clean_shape line :
  no_newline line ->
  parens_done (clean line) = true /\ spaced (clean line) = true /\
  starts_solid (clean line) /\ starts_solid (rev (clean line)).
Proof.
  intros F. rewrite (clean_normalize line F). unfold spec_normalize.
  set (k := spec_collapse_whitespace (spec_strip_parens line)).
  assert (Hd : parens_done k = true).
  { apply collapse_done, remove_parens_done, le_n. }
  assert (Hs : spaced k = true) by (apply collapse_spaced, le_n).
  destruct (trim_segment k) as (a & b & E & H1 & H2).
  rewrite E in Hd, Hs.
  apply parens_done_app in Hd. destruct Hd as [_ Hd].
  apply parens_done_app in Hd. destruct Hd as [Hd _].
  apply spaced_app in Hs. destruct Hs as [_ Hs].
  apply spaced_app in Hs. destruct Hs as [Hs _].
  auto.
Qed.

Lemma clean_no_newline line : no_newline line -> no_newline (clean line).
Proof.
  unfold no_newline. rewrite !Forall_forall. intros F x H.
  apply clean_chars in H. destruct H as [H| ->]; [auto|reflexivity].
Qed.

(** X11: what a cleaned line looks like.  For a line without line feed,
    as every line of [splitlines] is, the cleaned line neither starts nor
    ends with whitespace, its only whitespace is the space, no two spaces
    stand side by side, and no [(] comes before a [)]. *)
Theorem X11_shape_of_a_cleaned_line (line : text) :
  no_newline line ->
  (forall x t, clean line = x :: t -> is_space x = false) /\
  (forall x t, clean line = t ++ [x] -> is_space x = false) /\
  (forall x, In x (clean line) -> is_space x = true -> x = " "%char) /\
  (forall u x y v, clean line = u ++ x :: y :: v ->
     is_space x = true -> is_space y = false) /\
  (forall u v, clean line = u ++ "("%char :: v -> ~ In ")"%char v).
Proof.
  intros F. destruct (clean_shape line F) as (Hd & Hs & H1 & H2).
  split; [|split; [|split; [|split]]].
  - intros x t E. rewrite E in H1. exact H1.
  - intros x t E. rewrite E, rev_app_distr in H2. exact H2.
  - intros x I S. apply in_split in I. destruct I as (u & v & E).
    rewrite E in Hs. apply spaced_app in Hs. destruct Hs as [_ Hs].
    cbn [spaced] in Hs. rewrite S in Hs. cbn [negb orb] in Hs.
    apply andb_true_iff in Hs. destruct Hs as [Hs _].
    apply andb_true_iff in Hs. destruct Hs as [Hs _].
    apply Ascii.eqb_eq in Hs. exact Hs.
  - intros u x y v E S. rewrite E in Hs. apply spaced_app in Hs.
    destruct Hs as [_ Hs]. cbn [spaced] in Hs. rewrite S in Hs.
    cbn [negb orb starts_solidb] in Hs.
    apply andb_true_iff in Hs. destruct Hs as [Hs _].
    apply andb_true_iff in Hs. destruct Hs as [_ Hs].
    apply negb_true_iff in Hs. exact Hs.
  - intros u v E I. rewrite E in Hd. apply parens_done_app in Hd.
    destruct Hd as [_ Hd]. cbn [parens_done] in Hd.
    apply andb_true_iff in Hd. destruct Hd as [Hd _].
    cbn in Hd. apply negb_true_iff in Hd.
    assert (X : existsb (is_char ")") v = true).
    { apply existsb_exists. exists ")"%char. split; [exact I|reflexivity]. }
    congruence.
Qed.

Lemma X11_shape_of_a_cleaned_line_witness :
  (forall x t, clean (str "  LDL ( calc )   130  (") = x :: t ->
     is_space x = false) /\
  (forall x t, clean (str "  LDL ( calc )   130  (") = t ++ [x] ->
     is_space x = false) /\
  (forall x, In x (clean (str "  LDL ( calc )   130  (")) ->
     is_space x = true -> x = " "%char) /\
  (forall u x y v, clean (str "  LDL ( calc )   130  (") = u ++ x :: y :: v ->
     is_space x = true -> is_space y = false) /\
  (forall u v, clean (str "  LDL ( calc )   130  (") = u ++ "("%char :: v ->
     ~ In ")"%char v).
Proof.
  refine (X11_shape_of_a_cleaned_line (str "  LDL ( calc )   130  (") _).
  vm_compute. repeat constructor.
Defined.

(** X12: cleaning a cleaned line changes nothing.  For a line without line
    feed the cleaned line is its own cleaning.  With a line feed between
    the parentheses this fails: the first cleaning keeps the span and
    turns the line feed into a space, the second removes the span. *)
Theorem X12_cleaning_twice_is_cleaning_once :
  (forall line, no_newline line -> clean (clean line) = clean line) /\
  clean (str "(a" ++ "010"%char :: str "b) 7") = str "(a b) 7" /\
  clean (str "(a b) 7") = str "7".
Proof.
  split; [|split; vm_compute; reflexivity].
  intros line F. destruct (clean_shape line F) as (Hd & Hs & H1 & H2).
  rewrite (clean_normalize (clean line)) by (apply clean_no_newline; exact F).
  unfold spec_normalize, spec_collapse_whitespace, spec_strip_parens.
  rewrite (remove_parens_fixed _ _ Hd), (collapse_fixed _ _ Hs).
  apply trim_fixed; assumption.
Qed.

Lemma X12_cleaning_twice_is_cleaning_once_witness :
  clean (clean (str "HbA1c (ref 4-6%)   5.8%")) =
  clean (str "HbA1c (ref 4-6%)   5.8%").
Proof.
  refine (proj1 X12_cleaning_twice_is_cleaning_once
            (str "HbA1c (ref 4-6%)   5.8%") _).
  vm_compute. repeat constructor.
Defined.
